(** * Hamiltonian neural networks (hnn.py): a shallow embedding

    The module [hnn.py] defines three [torch.nn.Module] classes, [HNN],
    [HNN_structure] and [HNN_structure_pend].  Each one wraps externally
    supplied sub-networks, predicts a Hamiltonian in [forward] and turns it
    into a vector field in [time_derivative].

    Conventions of the embedding:
    - tensor entries are mathematical reals ([R]); rounding is not modelled;
    - a 1-D tensor is a [vec], a 2-D tensor a [mat] (list of rows), a 3-D
      tensor a [bmat] (list of matrices); a tensor whose rank is only known at
      run time (the result of [torch.squeeze]) is a [tensor];
    - the sizes of a tensor are read off its first elements; the tensors of
      PyTorch are rectangular, which the properties assume where they need it
      ([Torch.is_mat], [Torch.is_bmat]);
    - an operation that raises in PyTorch (shape mismatch, unpacking error,
      singular matrix) returns [None];
    - the sub-networks are functions from a batch, a 2-D tensor, to a tensor
      of the rank the code uses their output with: 2-D for the energy, mass
      and potential networks of [HNN] and [HNN_structure], 3-D for
      [dampNet], [M_net] and [A_net];
    - [torch.autograd.grad] is an operator taking the scalar-valued
      computation and the point at which it is differentiated; the properties
      hold for every such operator, the concrete runs use one that is exact
      on them;
    - a method is a computation on the module: it returns the module it
      leaves and a value or an exception. *)

From Stdlib Require Import Reals List Lia Lra Arith Bool.
From Stdlib Require Import FunctionalExtensionality.
Import ListNotations.

Open Scope R_scope.

Abbreviation vec := (list R).
Abbreviation mat := (list (list R)).
Abbreviation bmat := (list (list (list R))).

(** ** The error monad of raised exceptions *)

Definition obind {A B : Type} (a : option A) (f : A -> option B) : option B :=
  match a with
  | Some x => f x
  | None => None
  end.

Notation "x <-? a ;; b" := (obind a (fun x => b))
  (at level 61, a at next level, right associativity).

(** all the results, or the first exception *)
Fixpoint sequence {A : Type} (l : list (option A)) : option (list A) :=
  match l with
  | [] => Some []
  | a :: l' => x <-? a ;; xs <-? sequence l' ;; Some (x :: xs)
  end.

(** A method runs on the module [self]: it may update it, and it returns a
    value or raises. An update made before the exception stays. *)
Definition prog (S A : Type) : Type := S -> S * option A.

Definition ret {S A : Type} (a : A) : prog S A := fun s => (s, Some a).
Definition lift {S A : Type} (o : option A) : prog S A := fun s => (s, o).
Definition get {S : Type} : prog S S := fun s => (s, Some s).
Definition put {S : Type} (s' : S) : prog S unit := fun _ => (s', Some tt).
Definition pbind {S A B : Type} (c : prog S A) (f : A -> prog S B) : prog S B :=
  fun s =>
    match c s with
    | (s', Some a) => f a s'
    | (s', None) => (s', None)
    end.

Notation "x <- c ;; k" := (pbind c (fun x => k))
  (at level 61, c at next level, right associativity).
Notation "c ;;; k" := (pbind c (fun _ => k))
  (at level 61, right associativity).

(** ** Tensor primitives *)

Module Torch.

(** [torch.eye(n)] *)
Definition unit_row (n k : nat) : vec :=
  map (fun j => if Nat.eqb j k then 1 else 0) (seq 0 n).

Definition eye (n : nat) : mat := map (unit_row n) (seq 0 n).

(** [torch.ones(n, m)], [torch.zeros(n, m)] *)
Definition full (c : R) (n m : nat) : mat := repeat (repeat c m) n.
Definition ones := full 1.
Definition zeros := full 0.

(** number of columns of a 2-D tensor, read off its first row *)
Definition ncols (A : mat) : nat :=
  match A with
  | [] => O
  | r :: _ => length r
  end.

(** every row has [m] entries and there are [n] rows *)
Definition is_mat (n m : nat) (A : mat) : Prop :=
  length A = n /\ Forall (fun r => length r = m) A.

Definition is_bmat (b n m : nat) (T : bmat) : Prop :=
  length T = b /\ Forall (is_mat n m) T.

Definition entry (A : mat) (i j : nat) : R := nth j (nth i A []) 0.

(** unary minus and multiplication by a Python scalar *)
Definition vneg (v : vec) : vec := map Ropp v.
Definition neg (A : mat) : mat := map vneg A.
Definition scale (c : R) (A : mat) : mat := map (map (Rmult c)) A.

(** [A.t()] *)
Definition col (A : mat) (j : nat) : vec := map (fun r => nth j r 0) A.
Definition t (A : mat) : mat := map (col A) (seq 0 (ncols A)).

(** [x.sum()] *)
Definition vsum (v : vec) : R := fold_right Rplus 0 v.
Definition msum (A : mat) : R := vsum (map vsum A).
Definition bsum (T : bmat) : R := vsum (map msum T).

Fixpoint dot (u v : vec) : R :=
  match u, v with
  | a :: u', b :: v' => a * b + dot u' v'
  | _, _ => 0
  end.

(** [torch.matmul] of two 2-D tensors: every row of [A] must be as long as
    [B] has rows, otherwise PyTorch raises *)
Definition matmul (A B : mat) : option mat :=
  if forallb (fun r => Nat.eqb (length r) (length B)) A
  then Some (map (fun r => map (dot r) (t B)) A)
  else None.

(** in-place update of the elements at even positions, [l[::2] = f(l[::2])] *)
Fixpoint map_even {A : Type} (f : A -> A) (l : list A) : list A :=
  match l with
  | [] => []
  | [a] => [f a]
  | a :: b :: l' => f a :: b :: map_even f l'
  end.

(** in-place update of one element, [l[i] = f(l[i])] *)
Fixpoint upd {A : Type} (i : nat) (f : A -> A) (l : list A) : list A :=
  match l, i with
  | [], _ => []
  | a :: l', O => f a :: l'
  | a :: l', S i' => a :: upd i' f l'
  end.

(** elementwise product of two tensors of the same shape *)
Definition emul (A B : mat) : mat :=
  map (fun rs => map (fun ab => fst ab * snd ab) (combine (fst rs) (snd rs)))
      (combine A B).

Definition map2 {A B C : Type} (f : A -> B -> C) (l : list A) (l' : list B)
  : list C :=
  map (fun ab => f (fst ab) (snd ab)) (combine l l').

(** *** Broadcasting

    Two sizes are compatible when they are equal or one of them is 1; the
    operand of size 1 is repeated. *)
Definition broadcast {A B C : Type} (f : A -> B -> option C) (da : A) (db : B)
    (l : list A) (l' : list B) : option (list C) :=
  if Nat.eqb (length l) (length l') then sequence (map2 f l l')
  else if Nat.eqb (length l) 1 then sequence (map (f (hd da l)) l')
  else if Nat.eqb (length l') 1 then sequence (map (fun a => f a (hd db l')) l)
  else None.

Definition bop1 (f : R -> R -> R) : vec -> vec -> option vec :=
  broadcast (fun a b => Some (f a b)) 0 0.
Definition bop2 (f : R -> R -> R) : mat -> mat -> option mat :=
  broadcast (bop1 f) [] [].
Definition bop3 (f : R -> R -> R) : bmat -> bmat -> option bmat :=
  broadcast (bop2 f) [] [].

(** *** Tensors whose rank is known only at run time *)
Inductive tensor : Type :=
| T0 (r : R)
| T1 (v : vec)
| T2 (A : mat)
| T3 (B : bmat).

Definition rank (x : tensor) : nat :=
  match x with
  | T0 _ => 0%nat
  | T1 _ => 1%nat
  | T2 _ => 2%nat
  | T3 _ => 3%nat
  end.

(** the shape, each size read off the first element *)
Definition shape (x : tensor) : list nat :=
  match x with
  | T0 _ => []
  | T1 v => [length v]
  | T2 A => [length A; ncols A]
  | T3 B => [length B; length (hd [] B); ncols (hd [] B)]
  end.

(** [x.sum()] *)
Definition tsum (x : tensor) : R :=
  match x with
  | T0 r => r
  | T1 v => vsum v
  | T2 A => msum A
  | T3 B => bsum B
  end.

(** ranks are aligned on the right: missing leading sizes count as 1 *)
Definition lift3 (x : tensor) : bmat :=
  match x with
  | T0 r => [[[r]]]
  | T1 v => [[v]]
  | T2 A => [A]
  | T3 B => B
  end.

Definition lower (k : nat) (B : bmat) : tensor :=
  match k with
  | O => T0 (hd 0 (hd [] (hd [] B)))
  | S O => T1 (hd [] (hd [] B))
  | S (S O) => T2 (hd [] B)
  | _ => T3 B
  end.

(** an elementwise binary operator, [x + y], [x - y], ... *)
Definition tbop (f : R -> R -> R) (x y : tensor) : option tensor :=
  B <-? bop3 f (lift3 x) (lift3 y) ;;
  Some (lower (Nat.max (rank x) (rank y)) B).

(** [torch.squeeze] of a 3-D tensor: every dimension of size 1 goes *)
Definition squeeze (B : bmat) : tensor :=
  match shape (T3 B) with
  | [a; b; c] =>
      match Nat.eqb a 1, Nat.eqb b 1, Nat.eqb c 1 with
      | true, true, true => T0 (hd 0 (hd [] (hd [] B)))
      | true, true, false => T1 (hd [] (hd [] B))
      | true, false, true => T1 (map (hd 0) (hd [] B))
      | true, false, false => T2 (hd [] B)
      | false, true, true => T1 (map (fun A => hd 0 (hd [] A)) B)
      | false, true, false => T2 (map (hd []) B)
      | false, false, true => T2 (map (map (hd 0)) B)
      | false, false, false => T3 B
      end
  | _ => T3 B
  end.

(** [torch.unsqueeze(A, 1)] and [torch.unsqueeze(A, 2)] of a 2-D tensor *)
Definition unsqueeze1 (A : mat) : bmat := map (fun r => [r]) A.
Definition unsqueeze2 (A : mat) : bmat := map (map (fun e => [e])) A.

(** [torch.transpose(B, 1, 2)] of a 3-D tensor *)
Definition transpose12 (B : bmat) : bmat := map t B.

(** [q, p = torch.chunk(x, 2, dim=1)]: the first chunk takes the ceiling of
    half the columns; with a single column there is one chunk only and the
    unpacking raises *)
Definition chunk2 (x : mat) : option (mat * mat) :=
  let c := ncols x in
  if Nat.eqb c 1 then None
  else Some (map (firstn ((c + 1) / 2)) x, map (skipn ((c + 1) / 2)) x).

(** [torch.matmul] with 3-D operands: the matrix product in each batch, the
    batch sizes broadcast; a 2-D operand is used in every batch *)
Definition bmatmul : bmat -> bmat -> option bmat := broadcast matmul [] [].
Definition matmul32 (B : bmat) (A : mat) : option bmat :=
  sequence (map (fun X => matmul X A) B).
Definition matmul23 (A : mat) (B : bmat) : option bmat :=
  sequence (map (matmul A) B).

(** [torch.diag_embed] of a 1-D tensor *)
Definition diag_embed (v : vec) : mat :=
  map (fun i => map (fun j => if Nat.eqb i j then nth i v 0 else 0)
                    (seq 0 (length v)))
      (seq 0 (length v)).

(** [torch.zeros_like] *)
Definition zeros_like (A : mat) : mat := map (map (fun _ => 0)) A.

(** [torch.cat((x, y), dim=1)] where [x = torch.zeros_like(y)]: there is no
    dimension 1 below rank 2 *)
Definition cat1_zeros_like (y : tensor) : option tensor :=
  match y with
  | T0 _ | T1 _ => None
  | T2 A => Some (T2 (map (fun r => map (fun _ => 0) r ++ r) A))
  | T3 B => Some (T3 (map (fun A => zeros_like A ++ A) B))
  end.

(** *** [torch.inverse]

    The inverse of a square matrix by cofactors; a singular or non-square
    matrix raises. *)
Fixpoint drop_nth {A : Type} (i : nat) (l : list A) : list A :=
  match l, i with
  | [], _ => []
  | _ :: l', O => l'
  | a :: l', S i' => a :: drop_nth i' l'
  end.

Definition minor (A : mat) (i j : nat) : mat :=
  map (drop_nth j) (drop_nth i A).

Definition sign (k : nat) : R := if Nat.even k then 1 else -1.

(** Laplace expansion along the first row, for an [n]-by-[n] matrix *)
Fixpoint det (n : nat) (A : mat) : R :=
  match n with
  | O => 1
  | S n' =>
      vsum (map (fun j => sign j * entry A 0 j * det n' (minor A 0 j))
                (seq 0 n))
  end.

Definition is_square (A : mat) : bool :=
  forallb (fun r => Nat.eqb (length r) (length A)) A.

Definition inverse (A : mat) : option mat :=
  let n := length A in
  if is_square A then
    if Req_dec_T (det n A) 0 then None
    else Some (map (fun i =>
                 map (fun j => sign (i + j) * det (n - 1) (minor A j i) / det n A)
                     (seq 0 n))
               (seq 0 n))
  else None.

Definition binverse (B : bmat) : option bmat := sequence (map inverse B).

End Torch.

(** ** [permutation_tensor]

    The three classes carry the same method, word for word; it reads
    [self.assume_canonical_coords] and nothing else of the module. *)

Definition permutation_tensor (assume_canonical_coords : bool) (n : nat) : mat :=
  if assume_canonical_coords then
    let M := Torch.eye n in
    skipn (n / 2) M ++ Torch.neg (firstn (n / 2) M)
  else
    let M := Torch.ones n n in
    let M := Torch.emul M (map (map (fun e => 1 - e)) (Torch.eye n)) in
    let M := Torch.map_even (map (fun e => e * -1)) M in
    let M := map (Torch.map_even (fun e => e * -1)) M in
    fold_left
      (fun M i =>
         fold_left
           (fun M j => Torch.upd i (Torch.upd j (fun e => e * -1)) M)
           (seq (i + 1) (n - (i + 1))) M)
      (seq 0 n) M.


(** ** [class HNN] *)

Module HNN.

Record self : Type := mk {
  baseline : bool;
  differentiale_model : mat -> mat;
  assume_canonical_coords : bool;
  device : nat;
  M : mat;
  nfe : Z;
  damp : bool;
  (** set by [__init__] only under [damp] *)
  dampNet : option (mat -> bmat)
}.

Definition set_nfe (s : self) (k : Z) : self :=
  mk (baseline s) (differentiale_model s) (assume_canonical_coords s)
     (device s) (M s) k (damp s) (dampNet s).

Definition init (input_dim : nat) (differentiale_model : mat -> mat)
    (device : nat) (baseline assume_canonical_coords damp : bool)
    (dampNet : option (mat -> bmat)) : self :=
  mk baseline differentiale_model assume_canonical_coords device
     (permutation_tensor assume_canonical_coords input_dim)
     0%Z damp (if damp then dampNet else None).

Definition permutation_tensor (n : nat) : prog self mat :=
  s <- get ;;
  ret (permutation_tensor (assume_canonical_coords s) n).

Definition forward (x : mat) : prog self mat :=
  s <- get ;;
  if baseline s then ret (differentiale_model s x)
  else
    let y := differentiale_model s x in
    ret y.

Section Autograd.

(** [torch.autograd.grad(out, x)[0]]: [out] is given as the computation that
    produced it from [x] *)
Variable autograd_grad : (mat -> option R) -> mat -> mat.

Definition time_derivative (t : R) (x : mat) : prog self Torch.tensor :=
  s <- get ;;
  put (set_nfe s (nfe s + 1)%Z) ;;;
  s <- get ;;
  if baseline s then ret (Torch.T2 (differentiale_model s x))
  else
    H <- forward x ;;
    let dH :=
      autograd_grad (fun x' => option_map Torch.msum (snd (forward x' s))) x in
    H_vector_field <- lift (Torch.matmul dH (Torch.t (M s))) ;;
    if negb (damp s) then ret (Torch.T2 H_vector_field)
    else
      dampNet <- lift (dampNet s) ;;
      let D := dampNet x in
      D_vector_field <-
        lift (option_map Torch.squeeze
                (Torch.bmatmul (Torch.unsqueeze1 dH) D)) ;;
      lift (Torch.tbop Rminus (Torch.T2 H_vector_field) D_vector_field).

Definition Hamiltonian_vector (x : mat) : prog self mat :=
  s <- get ;;
  H <- forward x ;;
  let dH :=
    autograd_grad (fun x' => option_map Torch.msum (snd (forward x' s))) x in
  H_vector_field <- lift (Torch.matmul dH (Torch.t (M s))) ;;
  ret H_vector_field.

End Autograd.

End HNN.

(** ** [class HNN_structure] *)

Module HNN_structure.

Record self : Type := mk {
  L_net : mat -> mat;
  V_net : mat -> mat;
  device : nat;
  assume_canonical_coords : bool;
  M : mat;
  nfe : Z
}.

Definition set_nfe (s : self) (k : Z) : self :=
  mk (L_net s) (V_net s) (device s) (assume_canonical_coords s) (M s) k.

Definition init (input_dim : nat) (L_net V_net : mat -> mat) (device : nat)
    (assume_canonical_coords : bool) : self :=
  mk L_net V_net device assume_canonical_coords
     (permutation_tensor assume_canonical_coords input_dim) 0%Z.

Definition permutation_tensor (n : nat) : prog self mat :=
  s <- get ;;
  ret (permutation_tensor (assume_canonical_coords s) n).

(** line 96, [M_q = L * L + 0.1] *)
Definition M_q (L : mat) : option mat :=
  L_L <-? Torch.bop2 Rmult L L ;;
  Some (map (map (fun e => e + 0.1)) L_L).

Definition forward (x : mat) : prog self mat :=
  s <- get ;;
  qp <- lift (Torch.chunk2 x) ;;
  let '(q, p) := qp in
  let L := L_net s q in
  let V_q := V_net s q in
  M_q <- lift (M_q L) ;;
  p_p <- lift (Torch.bop2 Rmult p p) ;;
  K <- lift (Torch.bop2 Rdiv p_p M_q) ;;
  H <- lift (Torch.bop2 Rplus (map (map (fun e => e / 2)) K) V_q) ;;
  ret H.

Section Autograd.

Variable autograd_grad : (mat -> option R) -> mat -> mat.

Definition time_derivative (t : R) (x : mat) : prog self mat :=
  s <- get ;;
  put (set_nfe s (nfe s + 1)%Z) ;;;
  s <- get ;;
  H <- forward x ;;
  let dH :=
    autograd_grad (fun x' => option_map Torch.msum (snd (forward x' s))) x in
  vector_field <- lift (Torch.matmul dH (Torch.t (M s))) ;;
  ret vector_field.

End Autograd.

End HNN_structure.

(** ** [class HNN_structure_pend] *)

Module HNN_structure_pend.

Record self : Type := mk {
  M_net : mat -> bmat;
  V_net : mat -> mat;
  A_net : mat -> bmat;
  device : nat;
  assume_canonical_coords : bool;
  M : mat;
  nfe : Z
}.

Definition set_nfe (s : self) (k : Z) : self :=
  mk (M_net s) (V_net s) (A_net s) (device s) (assume_canonical_coords s)
     (M s) k.

Definition init (input_dim : nat) (M_net : mat -> bmat) (V_net : mat -> mat)
    (A_net : mat -> bmat) (device : nat) (assume_canonical_coords : bool)
  : self :=
  mk M_net V_net A_net device assume_canonical_coords
     (permutation_tensor assume_canonical_coords input_dim) 0%Z.

Definition permutation_tensor (n : nat) : prog self mat :=
  s <- get ;;
  ret (permutation_tensor (assume_canonical_coords s) n).

Definition forward (x : mat) : prog self bmat :=
  s <- get ;;
  qp <- lift (Torch.chunk2 x) ;;
  let '(q, p) := qp in
  let V_q := V_net s q in
  let M_q_inv := M_net s q in
  M_p <- lift (Torch.matmul32 M_q_inv p) ;;
  pT_M_p <- lift (Torch.matmul23 (Torch.t p) M_p) ;;
  H <- lift (Torch.bop3 Rplus pT_M_p [V_q]) ;;
  ret H.

(** the constant that replaces [self.M_net(q)] in [time_derivative] *)
Definition M_q_inv_const (bs : nat) : bmat :=
  repeat (Torch.diag_embed [1; 1; 3]) bs.

(** lines 148-158 of [time_derivative]: the Hamiltonian [H] as computed from
    [x]; this is the computation [torch.autograd.grad] differentiates *)
Definition time_derivative_H (s : self) (x : mat) : option Torch.tensor :=
  let bs := length x in
  qp <-? Torch.chunk2 x ;;
  let '(q, p) := qp in
  let V_q := V_net s q in
  let M_q_inv := M_q_inv_const bs in
  let p_aug := Torch.unsqueeze2 p in
  M_p <-? Torch.bmatmul M_q_inv p_aug ;;
  pT_M_p <-? Torch.bmatmul (Torch.transpose12 p_aug) M_p ;;
  Torch.tbop Rplus (Torch.squeeze pT_M_p) (Torch.T2 V_q).

(** line 167: [A_T_M_inv_p] as computed from [q], with [p] held fixed *)
Definition time_derivative_A_T_M_inv_p (s : self) (bs : nat) (p q : mat)
  : option bmat :=
  let A_q := A_net s q in
  let A_T_q := Torch.transpose12 A_q in
  M_p <-? Torch.bmatmul (M_q_inv_const bs) (Torch.unsqueeze2 p) ;;
  Torch.bmatmul A_T_q M_p.

(** [output.sum(0)] *)
Definition sum0 (x : Torch.tensor) : Torch.tensor :=
  match x with
  | Torch.T0 r => Torch.T0 r
  | Torch.T1 v => Torch.T0 (Torch.vsum v)
  | Torch.T2 A =>
      Torch.T1 (map (fun j => Torch.vsum (Torch.col A j))
                    (seq 0 (Torch.ncols A)))
  | Torch.T3 B =>
      Torch.T2 (map (fun i =>
                  map (fun j => Torch.vsum (map (fun A => Torch.entry A i j) B))
                      (seq 0 (Torch.ncols (hd [] B))))
                (seq 0 (length (hd [] B))))
  end.

(** [len(x)]: a 0-d tensor has none *)
Definition len (x : Torch.tensor) : option nat :=
  match x with
  | Torch.T0 _ => None
  | Torch.T1 v => Some (length v)
  | Torch.T2 A => Some (length A)
  | Torch.T3 B => Some (length B)
  end.

(** [x[i]] as the output of [torch.autograd.grad], which takes scalars only *)
Definition scalar_item (x : Torch.tensor) (i : nat) : option R :=
  match x with
  | Torch.T1 v => nth_error v i
  | _ => None
  end.

(** [torch.stack(jac, dim=1)] of 2-D tensors; an empty list raises *)
Definition stack1 (jac : list mat) : option bmat :=
  match jac with
  | [] => None
  | J :: _ =>
      Some (map (fun b => map (fun J' => nth b J' []) jac) (seq 0 (length J)))
  end.

Section Autograd.

Variable autograd_grad : (mat -> option R) -> mat -> mat.

(** [output] is given as the computation that produced it from [input] *)
Definition get_jacobian (input : mat) (output : mat -> option bmat)
  : prog self bmat :=
  out <- lift (output input) ;;
  let out := Torch.squeeze out in
  let output_sum := sum0 out in
  n <- lift (len output_sum) ;;
  jac <- lift (sequence
           (map (fun i =>
              _ <-? scalar_item output_sum i ;;
              Some (autograd_grad
                      (fun q' => o <-? output q' ;;
                                 scalar_item (sum0 (Torch.squeeze o)) i)
                      input))
            (seq 0 n))) ;;
  lift (stack1 jac).

(** lines 162-172 of [time_derivative]: the right-hand side [RHS] of the
    equation of the multiplier, from the halves of [x], the batch size and
    the gradient [dH] *)
Definition time_derivative_RHS (bs : nat) (q p dH : mat) : prog self bmat :=
  s <- get ;;
  let M_q_inv := M_q_inv_const bs in
  dHdqp <- lift (Torch.chunk2 dH) ;;
  let '(dHdq, dHdp) := dHdqp in
  let A_q := A_net s q in
  let A_T_q := Torch.transpose12 A_q in
  A_T_M_inv_p <- lift (time_derivative_A_T_M_inv_p s bs p q) ;;
  dA_T_M_inv_p_dq <- get_jacobian q (time_derivative_A_T_M_inv_p s bs p) ;;
  M_dHdq <- lift (Torch.bmatmul M_q_inv (Torch.unsqueeze2 dHdq)) ;;
  A_M_dHdq <- lift (Torch.bmatmul A_T_q M_dHdq) ;;
  dA_dHdp <- lift (Torch.bmatmul dA_T_M_inv_p_dq (Torch.unsqueeze2 dHdp)) ;;
  lift (Torch.bop3 Rminus A_M_dHdq dA_dHdp).

(** line 173: [LHS], before the constant is added *)
Definition time_derivative_LHS (s : self) (bs : nat) (q : mat) : option bmat :=
  let A_q := A_net s q in
  let A_T_q := Torch.transpose12 A_q in
  M_A <-? Torch.bmatmul (M_q_inv_const bs) A_q ;;
  Torch.bmatmul A_T_q M_A.

(** lines 162-175 of [time_derivative]: the multiplier [lambd] *)
Definition time_derivative_lambd (bs : nat) (q p dH : mat) : prog self bmat :=
  s <- get ;;
  RHS <- time_derivative_RHS bs q p dH ;;
  LHS <- lift (time_derivative_LHS s bs q) ;;
  let LHS := map (map (map (fun e => e + 1 * 0.1))) LHS in
  LHS_inv <- lift (Torch.binverse LHS) ;;
  lambd <- lift (Torch.bmatmul LHS_inv RHS) ;;
  ret lambd.

(** lines 162-177 of [time_derivative]: the constraint force [con_force] *)
Definition time_derivative_con_force (bs : nat) (q p dH : mat)
  : prog self Torch.tensor :=
  s <- get ;;
  lambd <- time_derivative_lambd bs q p dH ;;
  A_lambd <- lift (Torch.bmatmul (A_net s q) lambd) ;;
  ret (Torch.squeeze A_lambd).

(** line 160: the gradient [dH] *)
Definition time_derivative_dH (s : self) (x : mat) : mat :=
  autograd_grad (fun x' => option_map Torch.tsum (time_derivative_H s x')) x.

Definition time_derivative (t : R) (x : mat) : prog self Torch.tensor :=
  s <- get ;;
  put (set_nfe s (nfe s + 1)%Z) ;;;
  s <- get ;;
  let bs := length x in
  qp <- lift (Torch.chunk2 x) ;;
  let '(q, p) := qp in
  H <- lift (time_derivative_H s x) ;;
  let dH := time_derivative_dH s x in
  H_vector_field <- lift (Torch.matmul dH (Torch.t (M s))) ;;
  con_force <- time_derivative_con_force bs q p dH ;;
  con_force_vector_field <- lift (Torch.cat1_zeros_like con_force) ;;
  lift (Torch.tbop Rplus (Torch.T2 H_vector_field) con_force_vector_field).

End Autograd.

End HNN_structure_pend.

(** ** Reference notions the properties are stated with *)

(** [[A, B]] side by side *)
Definition hcat (A B : mat) : mat := Torch.map2 (@app R) A B.

(** the canonical symplectic matrix [[0, I_d], [-I_d, 0]] *)
Definition canonical_symplectic (d : nat) : mat :=
  hcat (Torch.zeros d d) (Torch.eye d) ++
  hcat (Torch.neg (Torch.eye d)) (Torch.zeros d d).

(** an [n]-by-[n] matrix with exactly one nonzero entry, [+1] or [-1], in
    each row and in each column *)
Definition signed_permutation (n : nat) (A : mat) : Prop :=
  Torch.is_mat n n A /\
  (forall i, (i < n)%nat ->
     exists j, (j < n)%nat /\
       (Torch.entry A i j = 1 \/ Torch.entry A i j = -1) /\
       forall j', (j' < n)%nat -> j' <> j -> Torch.entry A i j' = 0) /\
  (forall j, (j < n)%nat ->
     exists i, (i < n)%nat /\
       (Torch.entry A i j = 1 \/ Torch.entry A i j = -1) /\
       forall i', (i' < n)%nat -> i' <> i -> Torch.entry A i' j = 0).

(** the gradient that [HNN.time_derivative] takes: of [forward(x).sum()] in
    [x] *)
Definition HNN_dH (autograd_grad : (mat -> option R) -> mat -> mat)
    (s : HNN.self) (x : mat) : mat :=
  autograd_grad (fun x' => option_map Torch.msum (snd (HNN.forward x' s))) x.

(** the Hamiltonian of [HNN_structure] as a kinetic term in [p * p] and the
    mass term [L_net(q)^2 + 0.1], plus a potential term in [q] *)
Definition square (A : mat) : mat := map (map (fun e => e * e)) A.
Definition mass_term (L : mat) : mat := map (map (fun l => l * l + 0.1)) L.
Definition kinetic_term (p_p M_q : mat) : option mat :=
  Torch.bop2 (fun a m => a / (2 * m)) p_p M_q.
Definition kinetic_plus_potential (L_net V_net : mat -> mat) (q p : mat)
  : option mat :=
  K <-? kinetic_term (square p) (mass_term (L_net q)) ;;
  Torch.bop2 Rplus K (V_net q).

(** a computation that leaves the module as it found it *)
Definition preserves {S A : Type} (c : prog S A) : Prop :=
  forall s, fst (c s) = s.

(** ** Concrete modules and inputs

    The gradients of the concrete runs are taken by a difference quotient
    that is exact on them: the functions differentiated there are
    polynomials of degree at most 2 in the entries of the input. *)

(** the symmetric difference quotient with step 1 in each entry: the exact
    gradient of a polynomial of degree at most 2 *)
Definition central_difference (f : mat -> option R) (x : mat) : mat :=
  let val x' := match f x' with Some v => v | None => 0 end in
  map (fun i =>
         map (fun j =>
                (val (Torch.upd i (Torch.upd j (fun e => e + 1)) x) -
                 val (Torch.upd i (Torch.upd j (fun e => e - 1)) x)) / 2)
             (seq 0 (length (nth i x []))))
      (seq 0 (length x)).

(** two states of dimension 6; the potential is [q1 + q2 + q3], the two
    constraint directions are the first two axes *)
Definition pend_example : HNN_structure_pend.self :=
  HNN_structure_pend.init 6
    (fun q => map (fun _ => Torch.diag_embed [1; 1; 3]) q)
    (fun q => map (fun r => [Torch.vsum r]) q)
    (fun q => map (fun _ => [[1; 0]; [0; 1]; [0; 0]]) q)
    0 true.

Definition pend_example_x : mat :=
  [[0; 0; 0; 1; 0; 0]; [0; 0; 0; 0; 1; 0]].

Definition pend_example_q : mat := [[0; 0; 0]; [0; 0; 0]].
Definition pend_example_p : mat := [[1; 0; 0]; [0; 1; 0]].
Definition pend_example_dH_value : mat :=
  [[2; 2; 2; 4; 0; 0]; [2; 2; 2; 0; 4; 0]].

(** three states of dimension 6, the only batch size [forward] accepts; the
    mass network returns [diag(2, 2, 2)], the potential is zero *)
Definition pend_example3 : HNN_structure_pend.self :=
  HNN_structure_pend.init 6
    (fun q => map (fun _ => Torch.diag_embed [2; 2; 2]) q)
    (fun q => map (fun _ => [0]) q)
    (fun q => map (fun _ => [[1; 0]; [0; 1]; [0; 0]]) q)
    0 true.

Definition pend_example3_x : mat :=
  [[0; 0; 0; 1; 0; 0]; [0; 0; 0; 0; 1; 0]; [0; 0; 0; 0; 0; 1]].

(** the gradient of [forward(x).sum()] in [x] *)
Definition forward_gradient (autograd_grad : (mat -> option R) -> mat -> mat)
    (s : HNN_structure_pend.self) (x : mat) : mat :=
  autograd_grad
    (fun x' => option_map Torch.bsum (snd (HNN_structure_pend.forward x' s))) x.

(** the module with another mass network *)
Definition with_M_net (s : HNN_structure_pend.self) (M_net : mat -> bmat)
  : HNN_structure_pend.self :=
  HNN_structure_pend.mk M_net (HNN_structure_pend.V_net s)
    (HNN_structure_pend.A_net s) (HNN_structure_pend.device s)
    (HNN_structure_pend.assume_canonical_coords s) (HNN_structure_pend.M s)
    (HNN_structure_pend.nfe s).

(** a computation whose result is the same under any mass network *)
Definition ignores_M_net {A : Type} (c : prog HNN_structure_pend.self A)
  : Prop :=
  forall s M_net, snd (c (with_M_net s M_net)) = snd (c s).

(** the gradient that [HNN_structure.time_derivative] takes *)
Definition HNN_structure_dH (autograd_grad : (mat -> option R) -> mat -> mat)
    (s : HNN_structure.self) (x : mat) : mat :=
  autograd_grad
    (fun x' => option_map Torch.msum (snd (HNN_structure.forward x' s))) x.

(** the field of Hamilton's equations for a gradient [dH = (dH/dq, dH/dp)]
    with halves of [d] columns: [(dH/dp, -dH/dq)] in every row *)
Definition hamiltonian_field (d : nat) (dH : mat) : mat :=
  map (fun r => skipn d r ++ Torch.vneg (firstn d r)) dH.

(** a network with energy [q^2 + p^2] per state, and one with output 1 per
    state *)
Definition quadratic_energy (x : mat) : mat :=
  map (fun r => [nth 0 r 0 * nth 0 r 0 + nth 1 r 0 * nth 1 r 0]) x.
Definition constant_one (q : mat) : mat := map (fun _ => [1]) q.

(** the gradients [get_jacobian] stacks when the squeezed output has [k]
    columns: one for each column sum *)
Definition jacobian_rows (autograd_grad : (mat -> option R) -> mat -> mat)
    (input : mat) (output : mat -> option bmat) (k : nat) : list mat :=
  map (fun i =>
         autograd_grad
           (fun q' => o <-? output q' ;;
                      HNN_structure_pend.scalar_item
                        (HNN_structure_pend.sum0 (Torch.squeeze o)) i)
           input)
      (seq 0 k).

(** the damping term of [HNN.time_derivative]: in every state the gradient,
    as a row, times the matrix of that state *)
Definition damping_field (dH : mat) (D : bmat) : mat :=
  Torch.map2 (fun g Dm => map (Torch.dot g) (Torch.t Dm)) dH D.

(** the quadratic form [g D g^T] *)
Definition quadratic_form (g : vec) (Dm : mat) : R :=
  Torch.dot g (map (Torch.dot g) (Torch.t Dm)).

(** a damping network that returns the identity matrix in every state *)
Definition unit_damping (x : mat) : bmat := map (fun _ => Torch.eye 2) x.

(** the entries of the tensor that [permutation_tensor] builds without
    [assume_canonical_coords]: zero on the diagonal, and off it a sign that
    alternates along rows and columns and flips across the diagonal *)
Definition levi_civita_entry (i j : nat) : R :=
  if Nat.eqb i j then 0
  else if Bool.eqb (Nat.even (i + j)) (Nat.ltb i j) then -1 else 1.

(** every row of [dH] against every row of [M]: the product [dH M^T] *)
Definition times_transpose (dH M : mat) : mat :=
  map (fun g => map (Torch.dot g) M) dH.

(** [p^T diag(1, 1, 3) p] for three momenta *)
Definition momentum_form (p : vec) : R :=
  nth 0 p 0 * nth 0 p 0 + nth 1 p 0 * nth 1 p 0 + 3 * (nth 2 p 0 * nth 2 p 0).

(** ** Sequences of method calls

    A caller such as an ODE integrator calls the methods of one module one
    after the other; a call that raises leaves the module as the exception
    found it. *)

Inductive HNN_call : Type :=
| HNN_time_derivative (t : R) (x : mat)
| HNN_forward (x : mat)
| HNN_Hamiltonian_vector (x : mat)
| HNN_permutation_tensor (n : nat).

Definition HNN_step (autograd_grad : (mat -> option R) -> mat -> mat)
    (s : HNN.self) (c : HNN_call) : HNN.self :=
  match c with
  | HNN_time_derivative t x => fst (HNN.time_derivative autograd_grad t x s)
  | HNN_forward x => fst (HNN.forward x s)
  | HNN_Hamiltonian_vector x => fst (HNN.Hamiltonian_vector autograd_grad x s)
  | HNN_permutation_tensor n => fst (HNN.permutation_tensor n s)
  end.

Definition HNN_is_time_derivative (c : HNN_call) : bool :=
  match c with
  | HNN_time_derivative _ _ => true
  | _ => false
  end.

Inductive pend_call : Type :=
| pend_time_derivative (t : R) (x : mat)
| pend_forward (x : mat)
| pend_permutation_tensor (n : nat).

Definition pend_step (autograd_grad : (mat -> option R) -> mat -> mat)
    (s : HNN_structure_pend.self) (c : pend_call) : HNN_structure_pend.self :=
  match c with
  | pend_time_derivative t x =>
      fst (HNN_structure_pend.time_derivative autograd_grad t x s)
  | pend_forward x => fst (HNN_structure_pend.forward x s)
  | pend_permutation_tensor n => fst (HNN_structure_pend.permutation_tensor n s)
  end.

Definition pend_is_time_derivative (c : pend_call) : bool :=
  match c with
  | pend_time_derivative _ _ => true
  | _ => false
  end.

(** * Properties *)

(** ** Lists and rows *)

Lemma nth_map_seq {A : Type} (f : nat -> A) (s n i : nat) (d : A) :
  (i < n)%nat -> nth i (map f (seq s n)) d = f (s + i)%nat.
Proof.
  intros Hi.
  rewrite (nth_indep _ d (f O)) by (rewrite length_map, length_seq; exact Hi).
  rewrite (map_nth f (seq s n) O i), seq_nth by exact Hi.
  reflexivity.
Qed.

Lemma length_unit_row (n k : nat) : length (Torch.unit_row n k) = n.
Proof. unfold Torch.unit_row. now rewrite length_map, length_seq. Qed.

Lemma nth_unit_row (n k j : nat) :
  (j < n)%nat ->
  nth j (Torch.unit_row n k) 0 = if Nat.eqb j k then 1 else 0.
Proof. intros Hj. unfold Torch.unit_row. now rewrite nth_map_seq. Qed.

Lemma length_eye (n : nat) : length (Torch.eye n) = n.
Proof. unfold Torch.eye. now rewrite length_map, length_seq. Qed.

Lemma nth_vneg (v : vec) (j : nat) : nth j (Torch.vneg v) 0 = - nth j v 0.
Proof.
  unfold Torch.vneg. rewrite <- (map_nth Ropp v 0 j). now rewrite Ropp_0.
Qed.

Lemma dot_nil_r (u : vec) : Torch.dot u [] = 0.
Proof. now destruct u. Qed.

Lemma dot_vneg_l (u v : vec) : Torch.dot (Torch.vneg u) v = - Torch.dot u v.
Proof.
  revert v. induction u as [|a u IH]; intros [|b v]; simpl; try lra.
  rewrite IH. lra.
Qed.

(** the product with a unit row picks one entry *)
Lemma dot_unit_seq (a n s : nat) (v : vec) :
  Torch.dot v (map (fun j => if Nat.eqb j a then 1 else 0) (seq s n)) =
  if (s <=? a)%nat && (a <? s + n)%nat then nth (a - s) v 0 else 0.
Proof.
  revert s v. induction n as [|n IH]; intros s v.
  - simpl. rewrite dot_nil_r.
    destruct (Nat.leb_spec s a), (Nat.ltb_spec a (s + 0)); simpl; trivial; lia.
  - destruct v as [|b v].
    + simpl. now destruct (a - s)%nat, ((s <=? a)%nat && (a <? s + S n)%nat).
    + simpl map. simpl Torch.dot. rewrite IH.
      destruct (Nat.eqb_spec s a) as [->|Hne].
      * replace (a - a)%nat with O by lia.
        destruct (Nat.leb_spec (S a) a); [lia|].
        destruct (Nat.leb_spec a a); [|lia].
        destruct (Nat.ltb_spec a (a + S n)); [|lia]. simpl. lra.
      * destruct (Nat.leb_spec (S s) a), (Nat.leb_spec s a); try lia;
          destruct (Nat.ltb_spec a (S s + n)), (Nat.ltb_spec a (s + S n));
          try lia; simpl; try lra.
        replace (a - s)%nat with (S (a - S s)) by lia. simpl. lra.
Qed.

Lemma dot_unit_row (n a : nat) (v : vec) :
  (a < n)%nat -> Torch.dot v (Torch.unit_row n a) = nth a v 0.
Proof.
  intros Ha. unfold Torch.unit_row. rewrite dot_unit_seq. simpl.
  destruct (Nat.ltb_spec a n); [|lia]. now rewrite Nat.sub_0_r.
Qed.

Lemma dot_vneg_r (u v : vec) : Torch.dot u (Torch.vneg v) = - Torch.dot u v.
Proof.
  revert v. induction u as [|a u IH]; intros [|b v]; simpl; try lra.
  rewrite IH. lra.
Qed.

(** ** The canonical permutation tensor *)

Lemma seq_add_map (s k n : nat) :
  seq (k + s) n = map (fun i => (k + i)%nat) (seq s n).
Proof.
  revert s. induction n as [|n IH]; intros s; simpl; [reflexivity|].
  f_equal. rewrite <- IH. f_equal. lia.
Qed.

(** rows [0..d-1] are the unit rows [d..2d-1], rows [d..2d-1] are the negated
    unit rows [0..d-1] *)
Lemma permutation_tensor_rows (d : nat) :
  permutation_tensor true (d + d) =
  map (fun i => Torch.unit_row (d + d) (d + i)) (seq 0 d) ++
  map (fun i => Torch.vneg (Torch.unit_row (d + d) i)) (seq 0 d).
Proof.
  unfold permutation_tensor, Torch.eye.
  replace ((d + d) / 2)%nat with d
    by (replace (d + d)%nat with (d * 2)%nat by lia;
        symmetry; apply Nat.div_mul; lia).
  rewrite seq_app, map_app.
  assert (Hl : length (map (Torch.unit_row (d + d)) (seq 0 d)) = d)
    by now rewrite length_map, length_seq.
  rewrite skipn_app, firstn_app, Hl, Nat.sub_diag.
  rewrite skipn_all2 by lia. rewrite firstn_all2 by lia.
  simpl skipn. simpl firstn. rewrite app_nil_r. simpl app.
  f_equal.
  - replace (seq d d) with (seq (d + 0) d) by (f_equal; lia).
    rewrite seq_add_map, map_map. reflexivity.
  - unfold Torch.neg. now rewrite map_map.
Qed.

Lemma permutation_tensor_length (d : nat) :
  length (permutation_tensor true (d + d)) = (d + d)%nat.
Proof.
  rewrite permutation_tensor_rows, length_app, !length_map, !length_seq.
  reflexivity.
Qed.

Lemma permutation_tensor_row (d i : nat) :
  (i < d + d)%nat ->
  nth i (permutation_tensor true (d + d)) [] =
  if (i <? d)%nat then Torch.unit_row (d + d) (d + i)
  else Torch.vneg (Torch.unit_row (d + d) (i - d)).
Proof.
  intros Hi. rewrite permutation_tensor_rows.
  destruct (Nat.ltb_spec i d) as [Hlt|Hge].
  - rewrite app_nth1 by (now rewrite length_map, length_seq).
    now rewrite nth_map_seq.
  - rewrite app_nth2; rewrite length_map, length_seq; [|exact Hge].
    rewrite nth_map_seq by lia. reflexivity.
Qed.

Lemma permutation_tensor_row_length (d i : nat) :
  (i < d + d)%nat ->
  length (nth i (permutation_tensor true (d + d)) []) = (d + d)%nat.
Proof.
  intros Hi. rewrite permutation_tensor_row by exact Hi.
  destruct (i <? d)%nat; unfold Torch.vneg;
    now rewrite ?length_map, length_unit_row.
Qed.

Lemma permutation_tensor_is_mat (d : nat) :
  Torch.is_mat (d + d) (d + d) (permutation_tensor true (d + d)).
Proof.
  split; [apply permutation_tensor_length|].
  apply Forall_forall. intros r Hr.
  destruct (In_nth _ _ [] Hr) as [i [Hi <-]].
  rewrite permutation_tensor_length in Hi.
  now apply permutation_tensor_row_length.
Qed.

(** entry [(i, j)] is [+1] when [j = i + d], [-1] when [i = j + d], else 0 *)
Lemma permutation_tensor_entry (d i j : nat) :
  (i < d + d)%nat -> (j < d + d)%nat ->
  Torch.entry (permutation_tensor true (d + d)) i j =
  (if Nat.eqb j (i + d) then 1 else 0) - (if Nat.eqb i (j + d) then 1 else 0).
Proof.
  intros Hi Hj. unfold Torch.entry.
  rewrite permutation_tensor_row by exact Hi.
  destruct (Nat.ltb_spec i d).
  - rewrite nth_unit_row by exact Hj.
    destruct (Nat.eqb_spec j (d + i)), (Nat.eqb_spec j (i + d)),
      (Nat.eqb_spec i (j + d)); try lia; lra.
  - rewrite nth_vneg, nth_unit_row by exact Hj.
    destruct (Nat.eqb_spec j (i - d)), (Nat.eqb_spec j (i + d)),
      (Nat.eqb_spec i (j + d)); try lia; lra.
Qed.

Lemma permutation_tensor_ncols (d : nat) :
  Torch.ncols (permutation_tensor true (d + d)) = (d + d)%nat.
Proof.
  destruct d as [|d]; [reflexivity|].
  pose proof (permutation_tensor_row_length (S d) 0 ltac:(lia)) as H.
  pose proof (permutation_tensor_length (S d)) as Hl.
  destruct (permutation_tensor true (S d + S d)); [discriminate|exact H].
Qed.

Lemma length_t (A : mat) : length (Torch.t A) = Torch.ncols A.
Proof. unfold Torch.t. now rewrite length_map, length_seq. Qed.

Lemma nth_t (A : mat) (j : nat) :
  (j < Torch.ncols A)%nat -> nth j (Torch.t A) [] = Torch.col A j.
Proof. intros Hj. unfold Torch.t. now rewrite nth_map_seq. Qed.

Lemma nth_col (A : mat) (i j : nat) :
  nth i (Torch.col A j) 0 = Torch.entry A i j.
Proof.
  unfold Torch.col, Torch.entry.
  destruct (Nat.lt_ge_cases i (length A)) as [Hi|Hi].
  - rewrite (nth_indep _ 0 (nth j [] 0)) by now rewrite length_map.
    now rewrite (map_nth (fun r => nth j r 0) A [] i).
  - rewrite nth_overflow by now rewrite length_map.
    rewrite (nth_overflow A) by exact Hi. now destruct j.
Qed.

(** [M.t()] is [-M] *)
Lemma permutation_tensor_t (d : nat) :
  Torch.t (permutation_tensor true (d + d)) =
  Torch.neg (permutation_tensor true (d + d)).
Proof.
  apply (nth_ext _ _ [] []).
  - unfold Torch.neg.
    now rewrite length_t, length_map, permutation_tensor_ncols,
      permutation_tensor_length.
  - intros j Hj. rewrite length_t, permutation_tensor_ncols in Hj.
    rewrite nth_t by now rewrite permutation_tensor_ncols.
    unfold Torch.neg.
    rewrite (nth_indep _ [] (Torch.vneg []))
      by now rewrite length_map, permutation_tensor_length.
    rewrite (map_nth Torch.vneg).
    apply (nth_ext _ _ 0 0).
    + unfold Torch.col, Torch.vneg.
      now rewrite !length_map, permutation_tensor_length,
        permutation_tensor_row_length.
    + intros i Hi. unfold Torch.col in Hi.
      rewrite length_map, permutation_tensor_length in Hi.
      rewrite nth_col, nth_vneg.
      fold (Torch.entry (permutation_tensor true (d + d)) j i).
      rewrite !permutation_tensor_entry by assumption.
      destruct (Nat.eqb j (i + d)), (Nat.eqb i (j + d)); lra.
Qed.

Lemma ncols_neg (A : mat) : Torch.ncols (Torch.neg A) = Torch.ncols A.
Proof. destruct A; simpl; [reflexivity|]. unfold Torch.vneg. apply length_map. Qed.

Lemma vneg_involutive (v : vec) : Torch.vneg (Torch.vneg v) = v.
Proof.
  unfold Torch.vneg. rewrite map_map. rewrite <- (map_id v) at 2.
  apply map_ext. intros a. lra.
Qed.

Lemma neg_involutive (A : mat) : Torch.neg (Torch.neg A) = A.
Proof.
  unfold Torch.neg. rewrite map_map. rewrite <- (map_id A) at 2.
  apply map_ext. apply vneg_involutive.
Qed.

Lemma t_neg (A : mat) : Torch.t (Torch.neg A) = Torch.neg (Torch.t A).
Proof.
  unfold Torch.t. rewrite ncols_neg. unfold Torch.neg at 2. rewrite map_map.
  apply map_ext. intros j. unfold Torch.col, Torch.neg, Torch.vneg.
  rewrite !map_map. apply map_ext. intros r.
  rewrite <- (map_nth Ropp r 0 j). now rewrite Ropp_0.
Qed.

Lemma permutation_tensor_t_t (d : nat) :
  Torch.t (Torch.t (permutation_tensor true (d + d))) =
  permutation_tensor true (d + d).
Proof.
  now rewrite permutation_tensor_t, t_neg, permutation_tensor_t, neg_involutive.
Qed.

(** the product of a row [v] with row [j] of [M]: the entry of [v] in the
    other half, negated in the second half *)
Lemma dot_permutation_tensor_row (d j : nat) (v : vec) :
  (j < d + d)%nat ->
  Torch.dot v (nth j (permutation_tensor true (d + d)) []) =
  if (j <? d)%nat then nth (d + j) v 0 else - nth (j - d) v 0.
Proof.
  intros Hj. rewrite permutation_tensor_row by exact Hj.
  destruct (Nat.ltb_spec j d).
  - apply dot_unit_row. lia.
  - rewrite dot_vneg_r. f_equal. apply dot_unit_row. lia.
Qed.

Lemma map_nth_seq {A : Type} (l : list A) (d : A) (s n : nat) :
  (s + n <= length l)%nat ->
  map (fun i => nth i l d) (seq s n) = firstn n (skipn s l).
Proof.
  revert s l. induction n as [|n IH]; intros s l Hl; [reflexivity|].
  simpl map. rewrite IH by lia.
  revert l Hl. induction s as [|s IHs]; intros l Hl.
  - destruct l as [|a l]; [simpl in Hl; lia|]. reflexivity.
  - destruct l as [|a l]; [simpl in Hl; lia|].
    simpl in Hl. simpl nth. simpl skipn.
    apply (IHs l). lia.
Qed.

Lemma map_dot_permutation_tensor (d : nat) (v : vec) :
  length v = (d + d)%nat ->
  map (Torch.dot v) (permutation_tensor true (d + d)) =
  skipn d v ++ Torch.vneg (firstn d v).
Proof.
  intros Hv. rewrite permutation_tensor_rows, map_app, !map_map.
  f_equal.
  - rewrite (map_ext_in _ (fun i => nth (d + i) v 0)).
    2:{ intros i Hi. apply in_seq in Hi. apply dot_unit_row. lia. }
    rewrite <- (map_map (fun i => (d + i)%nat) (fun k => nth k v 0)).
    rewrite <- seq_add_map.
    rewrite map_nth_seq by lia.
    rewrite Nat.add_0_r.
    apply firstn_all2. rewrite length_skipn. lia.
  - rewrite (map_ext_in _ (fun i => - nth i v 0)).
    2:{ intros i Hi. apply in_seq in Hi. rewrite dot_vneg_r.
        f_equal. apply dot_unit_row. lia. }
    rewrite <- (map_map (fun i => nth i v 0) Ropp).
    unfold Torch.vneg. f_equal.
    rewrite map_nth_seq by lia. reflexivity.
Qed.

(** [torch.matmul(dH, M.t())] swaps the two halves of every row of [dH] and
    negates the new second half *)
Lemma matmul_permutation_tensor_t (d : nat) (dH : mat) :
  Forall (fun r => length r = (d + d)%nat) dH ->
  Torch.matmul dH (Torch.t (permutation_tensor true (d + d))) =
  Some (map (fun r => skipn d r ++ Torch.vneg (firstn d r)) dH).
Proof.
  intros HdH. unfold Torch.matmul.
  rewrite length_t, permutation_tensor_ncols, permutation_tensor_t_t.
  replace (forallb _ dH) with true.
  2:{ symmetry. apply forallb_forall. intros r Hr.
      rewrite Forall_forall in HdH. apply Nat.eqb_eq. now apply HdH. }
  f_equal. apply map_ext_in. intros r Hr.
  rewrite Forall_forall in HdH. apply map_dot_permutation_tensor. now apply HdH.
Qed.

Lemma mat_ext (n m : nat) (A B : mat) :
  Torch.is_mat n m A -> Torch.is_mat n m B ->
  (forall i j, (i < n)%nat -> (j < m)%nat ->
     Torch.entry A i j = Torch.entry B i j) ->
  A = B.
Proof.
  intros [HA HrA] [HB HrB] Hent.
  rewrite Forall_forall in HrA, HrB.
  apply (nth_ext _ _ [] []); [congruence|].
  intros i Hi.
  assert (HlA : length (nth i A []) = m) by (apply HrA, nth_In; lia).
  assert (HlB : length (nth i B []) = m) by (apply HrB, nth_In; lia).
  apply (nth_ext _ _ 0 0); [congruence|].
  intros j Hj. apply Hent; lia.
Qed.

Lemma hcat_rows (d : nat) (f g : nat -> vec) :
  hcat (map f (seq 0 d)) (map g (seq 0 d)) =
  map (fun i => f i ++ g i) (seq 0 d).
Proof.
  unfold hcat, Torch.map2.
  generalize O. induction d as [|d IH]; intros s; simpl; [reflexivity|].
  now rewrite IH.
Qed.

Lemma repeat_map_seq {A : Type} (a : A) (n s : nat) :
  repeat a n = map (fun _ => a) (seq s n).
Proof. revert s. induction n; intros s; simpl; [|rewrite (IHn (S s))]; reflexivity. Qed.

Lemma canonical_symplectic_rows (d : nat) :
  canonical_symplectic d =
  map (fun i => repeat 0 d ++ Torch.unit_row d i) (seq 0 d) ++
  map (fun i => Torch.vneg (Torch.unit_row d i) ++ repeat 0 d) (seq 0 d).
Proof.
  unfold canonical_symplectic, Torch.zeros, Torch.full, Torch.eye, Torch.neg.
  rewrite (repeat_map_seq (repeat 0 d) d 0), map_map, !hcat_rows.
  reflexivity.
Qed.

Lemma canonical_symplectic_is_mat (d : nat) :
  Torch.is_mat (d + d) (d + d) (canonical_symplectic d).
Proof.
  rewrite canonical_symplectic_rows. split.
  - now rewrite length_app, !length_map, !length_seq.
  - apply Forall_app. split; apply Forall_forall; intros r Hr;
      apply in_map_iff in Hr; destruct Hr as [i [<- _]];
      unfold Torch.vneg;
      now rewrite length_app, ?length_map, repeat_length, length_unit_row.
Qed.

Lemma canonical_symplectic_entry (d i j : nat) :
  (i < d + d)%nat -> (j < d + d)%nat ->
  Torch.entry (canonical_symplectic d) i j =
  (if Nat.eqb j (i + d) then 1 else 0) - (if Nat.eqb i (j + d) then 1 else 0).
Proof.
  intros Hi Hj. unfold Torch.entry. rewrite canonical_symplectic_rows.
  destruct (Nat.lt_ge_cases i d) as [Hid|Hid].
  - rewrite app_nth1 by now rewrite length_map, length_seq.
    rewrite nth_map_seq by exact Hid. simpl.
    destruct (Nat.lt_ge_cases j d) as [Hjd|Hjd].
    + rewrite app_nth1 by now rewrite repeat_length.
      rewrite nth_repeat.
      destruct (Nat.eqb_spec j (i + d)), (Nat.eqb_spec i (j + d)); try lia; lra.
    + rewrite app_nth2; rewrite repeat_length; [|exact Hjd].
      rewrite nth_unit_row by lia.
      destruct (Nat.eqb_spec (j - d) i), (Nat.eqb_spec j (i + d)),
        (Nat.eqb_spec i (j + d)); try lia; lra.
  - rewrite app_nth2; rewrite length_map, length_seq; [|exact Hid].
    rewrite nth_map_seq by lia. simpl.
    destruct (Nat.lt_ge_cases j d) as [Hjd|Hjd].
    + rewrite app_nth1
        by (unfold Torch.vneg; now rewrite length_map, length_unit_row).
      rewrite nth_vneg, nth_unit_row by exact Hjd.
      destruct (Nat.eqb_spec j (i - d)), (Nat.eqb_spec j (i + d)),
        (Nat.eqb_spec i (j + d)); try lia; lra.
    + rewrite app_nth2; unfold Torch.vneg;
        rewrite length_map, length_unit_row; [|exact Hjd].
      rewrite nth_repeat.
      destruct (Nat.eqb_spec j (i + d)), (Nat.eqb_spec i (j + d)); try lia; lra.
Qed.

Lemma permutation_tensor_canonical_symplectic (d : nat) :
  permutation_tensor true (d + d) = canonical_symplectic d.
Proof.
  apply (mat_ext (d + d) (d + d)).
  - apply permutation_tensor_is_mat.
  - apply canonical_symplectic_is_mat.
  - intros i j Hi Hj.
    now rewrite permutation_tensor_entry, canonical_symplectic_entry.
Qed.

Lemma permutation_tensor_signed_permutation (d : nat) :
  signed_permutation (d + d) (permutation_tensor true (d + d)).
Proof.
  split; [apply permutation_tensor_is_mat|]. split.
  - intros i Hi.
    destruct (Nat.lt_ge_cases i d) as [Hid|Hid].
    + exists (i + d)%nat. split; [lia|]. split.
      * left. rewrite permutation_tensor_entry by lia.
        rewrite Nat.eqb_refl.
        destruct (Nat.eqb_spec i (i + d + d)); [lia|lra].
      * intros j' Hj' Hne. rewrite permutation_tensor_entry by lia.
        destruct (Nat.eqb_spec j' (i + d)), (Nat.eqb_spec i (j' + d));
          try lia; lra.
    + exists (i - d)%nat. split; [lia|]. split.
      * right. rewrite permutation_tensor_entry by lia.
        destruct (Nat.eqb_spec (i - d) (i + d)), (Nat.eqb_spec i (i - d + d));
          try lia; lra.
      * intros j' Hj' Hne. rewrite permutation_tensor_entry by lia.
        destruct (Nat.eqb_spec j' (i + d)), (Nat.eqb_spec i (j' + d));
          try lia; lra.
  - intros j Hj.
    destruct (Nat.lt_ge_cases j d) as [Hjd|Hjd].
    + exists (j + d)%nat. split; [lia|]. split.
      * right. rewrite permutation_tensor_entry by lia.
        rewrite Nat.eqb_refl.
        destruct (Nat.eqb_spec j (j + d + d)); [lia|lra].
      * intros i' Hi' Hne. rewrite permutation_tensor_entry by lia.
        destruct (Nat.eqb_spec j (i' + d)), (Nat.eqb_spec i' (j + d));
          try lia; lra.
    + exists (j - d)%nat. split; [lia|]. split.
      * left. rewrite permutation_tensor_entry by lia.
        destruct (Nat.eqb_spec j (j - d + d)), (Nat.eqb_spec (j - d) (j + d));
          try lia; lra.
      * intros i' Hi' Hne. rewrite permutation_tensor_entry by lia.
        destruct (Nat.eqb_spec j (i' + d)), (Nat.eqb_spec i' (j + d));
          try lia; lra.
Qed.

Lemma eye_is_mat (n : nat) : Torch.is_mat n n (Torch.eye n).
Proof.
  split; [apply length_eye|]. apply Forall_forall. intros r Hr.
  apply in_map_iff in Hr. destruct Hr as [i [<- _]]. apply length_unit_row.
Qed.

Lemma eye_entry (n i j : nat) :
  (i < n)%nat -> (j < n)%nat ->
  Torch.entry (Torch.eye n) i j = if Nat.eqb j i then 1 else 0.
Proof.
  intros Hi Hj. unfold Torch.entry, Torch.eye.
  rewrite nth_map_seq by exact Hi. now rewrite nth_unit_row.
Qed.

(** [M * M^T = I] *)
Lemma permutation_tensor_orthogonal (d : nat) :
  Torch.matmul (permutation_tensor true (d + d))
               (Torch.t (permutation_tensor true (d + d))) =
  Some (Torch.eye (d + d)).
Proof.
  pose proof (permutation_tensor_is_mat d) as [HM Hrows].
  rewrite matmul_permutation_tensor_t by exact Hrows.
  f_equal. apply (mat_ext (d + d) (d + d)).
  - split; [now rewrite length_map|].
    apply Forall_forall. intros r Hr. apply in_map_iff in Hr.
    destruct Hr as [r' [<- Hr']]. rewrite Forall_forall in Hrows.
    rewrite <- map_dot_permutation_tensor by now apply Hrows.
    now rewrite length_map.
  - apply eye_is_mat.
  - intros i j Hi Hj. rewrite eye_entry by assumption.
    unfold Torch.entry.
    rewrite (nth_indep _ []
               ((fun r => skipn d r ++ Torch.vneg (firstn d r)) []))
      by (rewrite length_map; lia).
    rewrite (map_nth (fun r => skipn d r ++ Torch.vneg (firstn d r))).
    rewrite <- map_dot_permutation_tensor
      by now apply permutation_tensor_row_length.
    rewrite (nth_indep _ 0 (Torch.dot (nth i (permutation_tensor true (d + d)) []) []))
      by (rewrite length_map; lia).
    rewrite (map_nth (Torch.dot _)).
    rewrite dot_permutation_tensor_row by exact Hj.
    destruct (Nat.ltb_spec j d).
    + fold (Torch.entry (permutation_tensor true (d + d)) i (d + j)).
      rewrite permutation_tensor_entry by lia.
      destruct (Nat.eqb_spec (d + j) (i + d)), (Nat.eqb_spec i (d + j + d)),
        (Nat.eqb_spec j i); try lia; lra.
    + fold (Torch.entry (permutation_tensor true (d + d)) i (j - d)).
      rewrite permutation_tensor_entry by lia.
      destruct (Nat.eqb_spec (j - d) (i + d)), (Nat.eqb_spec i (j - d + d)),
        (Nat.eqb_spec j i); try lia; lra.
Qed.

(** C6: for every even [input_dim = 2 d], [permutation_tensor] under
    [assume_canonical_coords=True] returns the canonical symplectic matrix
    [[0, I_d], [-I_d, 0]]; it is a signed permutation matrix, its transpose
    is its negation, and [M * M^T] is the identity. *)
Theorem permutation_tensor_canonical (d : nat) :
  let n := (2 * d)%nat in
  let M := permutation_tensor true n in
  M = canonical_symplectic d /\
  signed_permutation n M /\
  Torch.t M = Torch.neg M /\
  Torch.matmul M (Torch.t M) = Some (Torch.eye n).
Proof.
  replace (2 * d)%nat with (d + d)%nat by lia. cbv zeta.
  split; [apply permutation_tensor_canonical_symplectic|].
  split; [apply permutation_tensor_signed_permutation|].
  split; [apply permutation_tensor_t|apply permutation_tensor_orthogonal].
Qed.

(** ** [HNN.time_derivative] *)

Section HNN_properties.

Variable autograd_grad : (mat -> option R) -> mat -> mat.

(** without [baseline] and [damp], [time_derivative] is the product of the
    gradient with [M.t()] *)
Lemma HNN_time_derivative_plain (s : HNN.self) (t : R) (x : mat) :
  HNN.baseline s = false -> HNN.damp s = false ->
  snd (HNN.time_derivative autograd_grad t x s) =
  option_map Torch.T2
    (Torch.matmul (HNN_dH autograd_grad s x) (Torch.t (HNN.M s))).
Proof.
  intros Hb Hd. destruct s as [b f acc dev M k d net].
  simpl in Hb, Hd. subst b d.
  unfold HNN.time_derivative, HNN_dH, HNN.forward, pbind, get, put, lift, ret.
  simpl.
  destruct (Torch.matmul _ _); reflexivity.
Qed.

(** C1: on an instance built with [baseline=False] and [damp=False], whatever
    its counter, [time_derivative(t, x)] is the gradient of
    [forward(x).sum()] in [x] times the transpose of the matrix built by
    [permutation_tensor]; it raises exactly when that product does. *)
Theorem HNN_time_derivative_symplectic
    (input_dim : nat) (differentiale_model : mat -> mat) (device : nat)
    (assume_canonical_coords : bool) (dampNet : option (mat -> bmat))
    (k : Z) (t : R) (x : mat) :
  let s := HNN.set_nfe
             (HNN.init input_dim differentiale_model device false
                       assume_canonical_coords false dampNet) k in
  snd (HNN.time_derivative autograd_grad t x s) =
  option_map Torch.T2
    (Torch.matmul (HNN_dH autograd_grad s x)
       (Torch.t (permutation_tensor assume_canonical_coords input_dim))).
Proof.
  cbv zeta. rewrite HNN_time_derivative_plain by reflexivity. reflexivity.
Qed.

(** in canonical coordinates the field is [(dH/dp, -dH/dq)] row by row *)
Lemma HNN_time_derivative_canonical
    (d : nat) (differentiale_model : mat -> mat) (device : nat)
    (dampNet : option (mat -> bmat)) (k : Z) (t : R) (x : mat) :
  let s := HNN.set_nfe
             (HNN.init (d + d) differentiale_model device false true false
                       dampNet) k in
  Forall (fun r => length r = (d + d)%nat) (HNN_dH autograd_grad s x) ->
  snd (HNN.time_derivative autograd_grad t x s) =
  Some (Torch.T2 (map (fun r => skipn d r ++ Torch.vneg (firstn d r))
                      (HNN_dH autograd_grad s x))).
Proof.
  cbv zeta. intros Hrows.
  rewrite HNN_time_derivative_plain by reflexivity.
  change (HNN.M _) with (permutation_tensor true (d + d)).
  now rewrite matmul_permutation_tensor_t.
Qed.

End HNN_properties.

(** ** What a method does to the module *)

Lemma preserves_ret {S A : Type} (a : A) : preserves (@ret S A a).
Proof. intros s. reflexivity. Qed.

Lemma preserves_lift {S A : Type} (o : option A) : preserves (@lift S A o).
Proof. intros s. reflexivity. Qed.

Lemma preserves_get {S : Type} : preserves (@get S).
Proof. intros s. reflexivity. Qed.

Lemma preserves_pbind {S A B : Type} (c : prog S A) (k : A -> prog S B) :
  preserves c -> (forall a, preserves (k a)) -> preserves (pbind c k).
Proof.
  intros Hc Hk s. unfold pbind. specialize (Hc s).
  destruct (c s) as [s' [a|]]; simpl in *; subst s'.
  - apply Hk.
  - reflexivity.
Qed.

(** after [put s'] and a computation that preserves the module, the module
    is [s'] *)
Lemma fst_put_then {S A : Type} (s' : S) (c : prog S A) (s : S) :
  preserves c -> fst ((put s' ;;; c) s) = s'.
Proof. intros Hc. unfold pbind, put. apply Hc. Qed.

Ltac frame :=
  repeat first
    [ apply preserves_ret | apply preserves_lift | apply preserves_get
    | apply preserves_pbind; [|intros ?]
    | match goal with
      | |- preserves (let '(_, _) := ?qp in _) => destruct qp
      | |- preserves (if ?b then _ else _) => destruct b
      end ].

Lemma HNN_forward_preserves (x : mat) : preserves (HNN.forward x).
Proof. unfold HNN.forward. frame. Qed.

Lemma HNN_structure_forward_preserves (x : mat) :
  preserves (HNN_structure.forward x).
Proof. unfold HNN_structure.forward. frame. Qed.

Lemma HNN_structure_pend_forward_preserves (x : mat) :
  preserves (HNN_structure_pend.forward x).
Proof. unfold HNN_structure_pend.forward. frame. Qed.

Section Frame.

Variable autograd_grad : (mat -> option R) -> mat -> mat.

Lemma get_jacobian_preserves (input : mat) (output : mat -> option bmat) :
  preserves (HNN_structure_pend.get_jacobian autograd_grad input output).
Proof. unfold HNN_structure_pend.get_jacobian. frame. Qed.

Lemma time_derivative_RHS_preserves (bs : nat) (q p dH : mat) :
  preserves (HNN_structure_pend.time_derivative_RHS autograd_grad bs q p dH).
Proof.
  unfold HNN_structure_pend.time_derivative_RHS.
  frame; apply get_jacobian_preserves.
Qed.

Lemma time_derivative_lambd_preserves (bs : nat) (q p dH : mat) :
  preserves (HNN_structure_pend.time_derivative_lambd autograd_grad bs q p dH).
Proof.
  unfold HNN_structure_pend.time_derivative_lambd.
  frame; apply time_derivative_RHS_preserves.
Qed.

Lemma time_derivative_con_force_preserves (bs : nat) (q p dH : mat) :
  preserves
    (HNN_structure_pend.time_derivative_con_force autograd_grad bs q p dH).
Proof.
  unfold HNN_structure_pend.time_derivative_con_force.
  frame; apply time_derivative_lambd_preserves.
Qed.

(** C8: a call of [time_derivative], on any of the three classes and whether
    it returns or raises, leaves the module with [nfe] one higher and every
    other attribute as it was; [forward], [Hamiltonian_vector] and
    [permutation_tensor] leave the whole module, [nfe] included, as it was. *)
Theorem nfe_counts_time_derivative_calls :
  (forall (s : HNN.self) (t : R) (x : mat) (n : nat),
     fst (HNN.time_derivative autograd_grad t x s) =
       HNN.set_nfe s (HNN.nfe s + 1)%Z /\
     fst (HNN.forward x s) = s /\
     fst (HNN.Hamiltonian_vector autograd_grad x s) = s /\
     fst (HNN.permutation_tensor n s) = s) /\
  (forall (s : HNN_structure.self) (t : R) (x : mat) (n : nat),
     fst (HNN_structure.time_derivative autograd_grad t x s) =
       HNN_structure.set_nfe s (HNN_structure.nfe s + 1)%Z /\
     fst (HNN_structure.forward x s) = s /\
     fst (HNN_structure.permutation_tensor n s) = s) /\
  (forall (s : HNN_structure_pend.self) (t : R) (x : mat) (n : nat),
     fst (HNN_structure_pend.time_derivative autograd_grad t x s) =
       HNN_structure_pend.set_nfe s (HNN_structure_pend.nfe s + 1)%Z /\
     fst (HNN_structure_pend.forward x s) = s /\
     fst (HNN_structure_pend.permutation_tensor n s) = s).
Proof.
  split; [|split]; intros s t x n.
  - split; [|split; [|split]].
    + unfold HNN.time_derivative. unfold pbind at 1. unfold get at 1.
      apply fst_put_then.
      frame; apply HNN_forward_preserves.
    + apply HNN_forward_preserves.
    + assert (H : preserves (HNN.Hamiltonian_vector autograd_grad x))
        by (unfold HNN.Hamiltonian_vector; frame; apply HNN_forward_preserves).
      apply H.
    + reflexivity.
  - split; [|split].
    + unfold HNN_structure.time_derivative. unfold pbind at 1. unfold get at 1.
      apply fst_put_then.
      frame; apply HNN_structure_forward_preserves.
    + apply HNN_structure_forward_preserves.
    + reflexivity.
  - split; [|split].
    + unfold HNN_structure_pend.time_derivative.
      unfold pbind at 1. unfold get at 1.
      apply fst_put_then.
      frame; apply time_derivative_con_force_preserves.
    + apply HNN_structure_pend_forward_preserves.
    + reflexivity.
Qed.

(** C7: the time argument is never read: at two times [t1] and [t2] a call
    of [time_derivative] on the same module and input returns the same field
    (or raises alike) and leaves the same module, for [HNN] in every
    configuration, [HNN_structure] and [HNN_structure_pend]. *)
Theorem time_derivative_time_independent (t1 t2 : R) (x : mat) :
  (forall s : HNN.self,
     HNN.time_derivative autograd_grad t1 x s =
     HNN.time_derivative autograd_grad t2 x s) /\
  (forall s : HNN_structure.self,
     HNN_structure.time_derivative autograd_grad t1 x s =
     HNN_structure.time_derivative autograd_grad t2 x s) /\
  (forall s : HNN_structure_pend.self,
     HNN_structure_pend.time_derivative autograd_grad t1 x s =
     HNN_structure_pend.time_derivative autograd_grad t2 x s).
Proof. repeat split. Qed.

End Frame.

(** ** Broadcasting *)

Lemma sequence_map_Some {A B : Type} (f : A -> B) (l : list A) :
  sequence (map (fun a => Some (f a)) l) = Some (map f l).
Proof. induction l as [|a l IH]; simpl; [|rewrite IH]; reflexivity. Qed.

Lemma sequence_option_map {A B : Type} (h : A -> B) (l : list (option A)) :
  option_map (map h) (sequence l) = sequence (map (option_map h) l).
Proof.
  induction l as [|[a|] l IH]; simpl; try reflexivity.
  rewrite <- IH. now destruct (sequence l).
Qed.

Lemma map2_map_l {A A' B C : Type} (f : A' -> B -> C) (g : A -> A')
    (l : list A) (l' : list B) :
  Torch.map2 f (map g l) l' = Torch.map2 (fun a b => f (g a) b) l l'.
Proof.
  unfold Torch.map2. revert l'.
  induction l as [|a l IH]; intros [|b l']; simpl; try reflexivity.
  now rewrite IH.
Qed.

Lemma map2_map_r {A B B' C : Type} (f : A -> B' -> C) (g : B -> B')
    (l : list A) (l' : list B) :
  Torch.map2 f l (map g l') = Torch.map2 (fun a b => f a (g b)) l l'.
Proof.
  unfold Torch.map2. revert l'.
  induction l as [|a l IH]; intros [|b l']; simpl; try reflexivity.
  now rewrite IH.
Qed.

Lemma map2_ext {A B C : Type} (f g : A -> B -> C) (l : list A) (l' : list B) :
  (forall a b, f a b = g a b) -> Torch.map2 f l l' = Torch.map2 g l l'.
Proof. intros H. unfold Torch.map2. apply map_ext. intros [a b]. apply H. Qed.

Lemma map2_diag {A C : Type} (f : A -> A -> C) (l : list A) :
  Torch.map2 f l l = map (fun a => f a a) l.
Proof.
  unfold Torch.map2. induction l as [|a l IH]; simpl; [|rewrite IH]; reflexivity.
Qed.

Lemma broadcast_ext {A B C : Type} (f g : A -> B -> option C) (da : A) (db : B)
    (l : list A) (l' : list B) :
  (forall a b, f a b = g a b) ->
  Torch.broadcast f da db l l' = Torch.broadcast g da db l l'.
Proof.
  intros H. unfold Torch.broadcast.
  rewrite (map2_ext f g _ _ H).
  rewrite (map_ext (f (hd da l)) (g (hd da l))) by (intros b; apply H).
  rewrite (map_ext (fun a => f a (hd db l')) (fun a => g a (hd db l')))
    by (intros a; apply H).
  reflexivity.
Qed.

Lemma hd_map_single {A B : Type} (g : A -> B) (l : list A) (d : A) (d' : B) :
  length l = 1%nat -> hd d' (map g l) = g (hd d l).
Proof. destruct l as [|a [|]]; simpl; intros H; try discriminate. reflexivity. Qed.

Lemma broadcast_map_l {A A' B C : Type} (f : A' -> B -> option C) (g : A -> A')
    (da : A) (da' : A') (db : B) (l : list A) (l' : list B) :
  Torch.broadcast f da' db (map g l) l' =
  Torch.broadcast (fun a b => f (g a) b) da db l l'.
Proof.
  unfold Torch.broadcast. rewrite length_map, map2_map_l, map_map.
  destruct (Nat.eqb (length l) (length l')); [reflexivity|].
  destruct (Nat.eqb_spec (length l) 1); [|reflexivity].
  now rewrite (hd_map_single g l da da').
Qed.

Lemma broadcast_map_r {A B B' C : Type} (f : A -> B' -> option C) (g : B -> B')
    (da : A) (db : B) (db' : B') (l : list A) (l' : list B) :
  Torch.broadcast f da db' l (map g l') =
  Torch.broadcast (fun a b => f a (g b)) da db l l'.
Proof.
  unfold Torch.broadcast. rewrite length_map, map2_map_r, map_map.
  destruct (Nat.eqb (length l) (length l')); [reflexivity|].
  destruct (Nat.eqb (length l) 1); [reflexivity|].
  destruct (Nat.eqb_spec (length l') 1); [|reflexivity].
  now rewrite (hd_map_single g l' db db').
Qed.

Lemma broadcast_post {A B C D : Type} (f : A -> B -> option C) (h : C -> D)
    (da : A) (db : B) (l : list A) (l' : list B) :
  option_map (map h) (Torch.broadcast f da db l l') =
  Torch.broadcast (fun a b => option_map h (f a b)) da db l l'.
Proof.
  unfold Torch.broadcast.
  destruct (Nat.eqb (length l) (length l')).
  { rewrite sequence_option_map. unfold Torch.map2. now rewrite map_map. }
  destruct (Nat.eqb (length l) 1).
  { now rewrite sequence_option_map, map_map. }
  destruct (Nat.eqb (length l') 1).
  { now rewrite sequence_option_map, map_map. }
  reflexivity.
Qed.

Lemma broadcast_diag {A C : Type} (f : A -> A -> option C) (d : A) (l : list A) :
  Torch.broadcast f d d l l = sequence (map (fun a => f a a) l).
Proof.
  unfold Torch.broadcast. now rewrite Nat.eqb_refl, map2_diag.
Qed.

Lemma bop1_map_l (f : R -> R -> R) (g : R -> R) (u v : vec) :
  Torch.bop1 f (map g u) v = Torch.bop1 (fun a b => f (g a) b) u v.
Proof. apply broadcast_map_l. Qed.

Lemma bop1_map_r (f : R -> R -> R) (g : R -> R) (u v : vec) :
  Torch.bop1 f u (map g v) = Torch.bop1 (fun a b => f a (g b)) u v.
Proof. apply broadcast_map_r. Qed.

Lemma bop1_post (f : R -> R -> R) (h : R -> R) (u v : vec) :
  option_map (map h) (Torch.bop1 f u v) = Torch.bop1 (fun a b => h (f a b)) u v.
Proof. unfold Torch.bop1. now rewrite broadcast_post. Qed.

Lemma bop1_ext (f g : R -> R -> R) (u v : vec) :
  (forall a b, f a b = g a b) -> Torch.bop1 f u v = Torch.bop1 g u v.
Proof. intros H. apply broadcast_ext. intros a b. now rewrite H. Qed.

Lemma bop1_diag (f : R -> R -> R) (u : vec) :
  Torch.bop1 f u u = Some (map (fun a => f a a) u).
Proof. unfold Torch.bop1. now rewrite broadcast_diag, sequence_map_Some. Qed.

Lemma bop2_map_l (f : R -> R -> R) (g : R -> R) (A B : mat) :
  Torch.bop2 f (map (map g) A) B = Torch.bop2 (fun a b => f (g a) b) A B.
Proof.
  unfold Torch.bop2. rewrite (broadcast_map_l _ (map g) []).
  apply broadcast_ext. intros u v. apply bop1_map_l.
Qed.

Lemma bop2_map_r (f : R -> R -> R) (g : R -> R) (A B : mat) :
  Torch.bop2 f A (map (map g) B) = Torch.bop2 (fun a b => f a (g b)) A B.
Proof.
  unfold Torch.bop2. rewrite (broadcast_map_r _ (map g) [] []).
  apply broadcast_ext. intros u v. apply bop1_map_r.
Qed.

Lemma bop2_post (f : R -> R -> R) (h : R -> R) (A B : mat) :
  option_map (map (map h)) (Torch.bop2 f A B) =
  Torch.bop2 (fun a b => h (f a b)) A B.
Proof.
  unfold Torch.bop2. rewrite broadcast_post.
  apply broadcast_ext. intros u v. apply bop1_post.
Qed.

Lemma bop2_ext (f g : R -> R -> R) (A B : mat) :
  (forall a b, f a b = g a b) -> Torch.bop2 f A B = Torch.bop2 g A B.
Proof. intros H. apply broadcast_ext. intros u v. now apply bop1_ext. Qed.

Lemma bop2_diag (f : R -> R -> R) (A : mat) :
  Torch.bop2 f A A = Some (map (map (fun a => f a a)) A).
Proof.
  unfold Torch.bop2. rewrite broadcast_diag.
  rewrite (map_ext _ (fun u => Some (map (fun a => f a a) u)))
    by (intros u; apply bop1_diag).
  apply sequence_map_Some.
Qed.

(** ** [HNN_structure.forward] *)

Lemma M_q_mass_term (L : mat) : HNN_structure.M_q L = Some (mass_term L).
Proof.
  unfold HNN_structure.M_q, mass_term. rewrite bop2_diag. simpl.
  f_equal. rewrite map_map. apply map_ext. intros r. now rewrite map_map.
Qed.

(** C9: for every output [L] of [L_net], the mass term [M_q = L * L + 0.1]
    of [forward] is computed without exception and each of its entries is at
    least [0.1], hence positive and not zero: the division by [M_q] never
    divides by zero. *)
Theorem M_q_at_least_tenth (L : mat) :
  exists M, HNN_structure.M_q L = Some M /\
    Forall (Forall (fun m => 0.1 <= m /\ 0 < m /\ m <> 0)) M.
Proof.
  exists (mass_term L). split; [apply M_q_mass_term|].
  unfold mass_term. apply Forall_forall. intros r Hr.
  apply in_map_iff in Hr. destruct Hr as [r' [<- _]].
  apply Forall_forall. intros m Hm.
  apply in_map_iff in Hm. destruct Hm as [l [<- _]].
  pose proof (Rle_0_sqr l) as Hsq. unfold Rsqr in Hsq.
  repeat split; lra.
Qed.

Lemma kinetic_term_halved (P M : mat) :
  kinetic_term P M =
  option_map (map (map (fun e => e / 2))) (Torch.bop2 Rdiv P M).
Proof.
  unfold kinetic_term. rewrite bop2_post. apply bop2_ext.
  intros a m. unfold Rdiv. rewrite Rinv_mult. ring.
Qed.

Lemma HNN_structure_forward_value (s : HNN_structure.self) (x : mat) :
  snd (HNN_structure.forward x s) =
  (qp <-? Torch.chunk2 x ;;
   let '(q, p) := qp in
   kinetic_plus_potential (HNN_structure.L_net s) (HNN_structure.V_net s) q p).
Proof.
  unfold HNN_structure.forward, pbind, get, lift, ret. simpl.
  destruct (Torch.chunk2 x) as [[q p]|]; simpl; [|reflexivity].
  rewrite M_q_mass_term. rewrite bop2_diag.
  unfold kinetic_plus_potential. rewrite kinetic_term_halved.
  fold (square p).
  destruct (Torch.bop2 Rdiv (square p) _) as [K|]; simpl; [|reflexivity].
  destruct (Torch.bop2 Rplus _ _); reflexivity.
Qed.

(** C4: [forward(x)], with [x] split into [q] and [p], is
    [p * p / (2 * (L_net(q) * L_net(q) + 0.1)) + V_net(q)]: a kinetic term
    computed from [p * p] and the mass term of [q], plus the potential
    [V_net(q)]; it raises where the split or the broadcasting does. The
    kinetic term reads [p] through [p * p] only: the opposite momenta give
    the same kinetic term. *)
Theorem HNN_structure_forward_kinetic_potential
    (s : HNN_structure.self) (x : mat) :
  snd (HNN_structure.forward x s) =
  (qp <-? Torch.chunk2 x ;;
   let '(q, p) := qp in
   K <-? kinetic_term (square p) (mass_term (HNN_structure.L_net s q)) ;;
   Torch.bop2 Rplus K (HNN_structure.V_net s q)) /\
  (forall p, square (Torch.neg p) = square p).
Proof.
  split; [apply HNN_structure_forward_value|].
  intros p. unfold square, Torch.neg, Torch.vneg. rewrite map_map.
  apply map_ext. intros r. rewrite map_map. apply map_ext. intros e. ring.
Qed.

(** ** Shapes of [forward] *)

Lemma bop1_column (f : R -> R -> R) (u v : vec) :
  length v = 1%nat ->
  Torch.bop1 f u v = Some (map (fun a => f a (hd 0 v)) u).
Proof.
  intros Hv. destruct v as [|b [|]]; try discriminate. simpl.
  unfold Torch.bop1, Torch.broadcast. simpl length.
  destruct (Nat.eqb_spec (length u) 1) as [Hu|Hu].
  - destruct u as [|a [|]]; try discriminate. reflexivity.
  - simpl. apply sequence_map_Some.
Qed.

Lemma sequence_map2_column (f : R -> R -> R) (d : nat) (A B : mat) :
  length A = length B ->
  Forall (fun r => length r = d) A ->
  Forall (fun r => length r = 1%nat) B ->
  exists C, sequence (Torch.map2 (Torch.bop1 f) A B) = Some C /\
            length C = length A /\ Forall (fun r => length r = d) C.
Proof.
  revert B. induction A as [|r A IH]; intros [|v B] Hlen HA HB;
    try discriminate.
  - exists []. repeat split; constructor.
  - inversion HA as [|? ? Hr HA']; subst.
    inversion HB as [|? ? Hv HB']; subst.
    destruct (IH B) as [C [HC [HlC HrC]]]; [simpl in Hlen; lia|assumption..|].
    exists (map (fun a => f a (hd 0 v)) r :: C).
    unfold Torch.map2 in *. simpl.
    rewrite (bop1_column f r v Hv). simpl. rewrite HC. simpl.
    repeat split; [now rewrite HlC|].
    constructor; [now rewrite length_map|assumption].
Qed.

(** a column [B] broadcast along the rows of [A] *)
Lemma bop2_column (f : R -> R -> R) (n d : nat) (A B : mat) :
  Torch.is_mat n d A -> Torch.is_mat n 1 B ->
  exists C, Torch.bop2 f A B = Some C /\ Torch.is_mat n d C.
Proof.
  intros [HA HrA] [HB HrB].
  destruct (sequence_map2_column f d A B) as [C [HC [HlC HrC]]];
    [congruence|assumption..|].
  exists C. split.
  - unfold Torch.bop2, Torch.broadcast. now rewrite HA, HB, Nat.eqb_refl.
  - split; [congruence|assumption].
Qed.

Lemma is_mat_map (g : R -> R) (n d : nat) (A : mat) :
  Torch.is_mat n d A -> Torch.is_mat n d (map (map g) A).
Proof.
  intros [HA HrA]. split; [now rewrite length_map|].
  apply Forall_forall. intros r Hr. apply in_map_iff in Hr.
  destruct Hr as [r' [<- Hr']]. rewrite length_map.
  rewrite Forall_forall in HrA. now apply HrA.
Qed.

Lemma ncols_is_mat (n d : nat) (A : mat) :
  Torch.is_mat (S n) d A -> Torch.ncols A = d.
Proof.
  intros [HA HrA]. destruct A as [|r A]; [discriminate|].
  now inversion HrA.
Qed.

(** the split of a batch of [n] states of dimension [2 d], [d >= 1] *)
Lemma chunk2_is_mat (n d : nat) (x : mat) :
  Torch.is_mat n (S d + S d) x ->
  exists q p, Torch.chunk2 x = Some (q, p) /\
    q = map (firstn (S d)) x /\
    Torch.is_mat n (S d) q /\ Torch.is_mat n (S d) p.
Proof.
  intros Hx. pose proof Hx as [Hn Hr].
  assert (Hc : ((Torch.ncols x + 1) / 2 = S d \/ x = [])%nat).
  { destruct n as [|n].
    - right. now destruct x.
    - left. rewrite (ncols_is_mat n _ x Hx).
      replace (S d + S d + 1)%nat with (1 + S d * 2)%nat by lia.
      rewrite Nat.div_add by lia. reflexivity. }
  assert (Hne : Nat.eqb (Torch.ncols x) 1 = false).
  { destruct n as [|n].
    - now destruct x.
    - rewrite (ncols_is_mat n _ x Hx). apply Nat.eqb_neq. lia. }
  unfold Torch.chunk2. rewrite Hne.
  destruct Hc as [Hc| ->].
  - rewrite Hc. eexists. eexists. split; [reflexivity|]. split; [reflexivity|].
    rewrite Forall_forall in Hr.
    split; (split; [now rewrite length_map|]);
      apply Forall_forall; intros r Hin; apply in_map_iff in Hin;
      destruct Hin as [r' [<- Hr']]; specialize (Hr r' Hr').
    + rewrite length_firstn. lia.
    + rewrite length_skipn. lia.
  - simpl in Hn. subst n. exists [], []. repeat split; constructor.
Qed.

(** on a batch of [n] states of dimension [2 d], with [L_net] and [V_net]
    returning one value per state, [forward] returns [d] values per state *)
Lemma HNN_structure_forward_shape (s : HNN_structure.self) (n d : nat) (x : mat) :
  Torch.is_mat n (S d + S d) x ->
  Torch.is_mat n 1 (HNN_structure.L_net s (map (firstn (S d)) x)) ->
  Torch.is_mat n 1 (HNN_structure.V_net s (map (firstn (S d)) x)) ->
  exists H, snd (HNN_structure.forward x s) = Some H /\
            Torch.is_mat n (S d) H.
Proof.
  intros Hx HL HV.
  rewrite HNN_structure_forward_value.
  destruct (chunk2_is_mat n d x Hx) as [q [p [Hqp [Hq [Hmq Hmp]]]]].
  rewrite Hqp. simpl. subst q.
  unfold kinetic_plus_potential, kinetic_term.
  destruct (bop2_column (fun a m => a / (2 * m)) n (S d) (square p)
              (mass_term (HNN_structure.L_net s (map (firstn (S d)) x))))
    as [K [HK HmK]].
  { now apply is_mat_map. }
  { now apply is_mat_map. }
  rewrite HK. simpl.
  now apply bop2_column.
Qed.

(** C3, as the code has it: [HNN.forward] returns the output of
    [differentiale_model] as it is, so one value per state when the network
    gives one; [HNN_structure.forward], on a batch of [m] states of dimension
    2 with [L_net] and [V_net] giving one value per state, returns one value
    per state. *)
Theorem forward_one_scalar_per_state
    (sH : HNN.self) (sS : HNN_structure.self) (n m : nat) (x xs : mat)
    (Hy : Torch.is_mat n 1 (HNN.differentiale_model sH x))
    (Hxs : Torch.is_mat m 2 xs)
    (HL : Torch.is_mat m 1 (HNN_structure.L_net sS (map (firstn 1) xs)))
    (HV : Torch.is_mat m 1 (HNN_structure.V_net sS (map (firstn 1) xs))) :
  (exists H, snd (HNN.forward x sH) = Some H /\
             H = HNN.differentiale_model sH x /\ Torch.is_mat n 1 H) /\
  (exists H, snd (HNN_structure.forward xs sS) = Some H /\ Torch.is_mat m 1 H).
Proof.
  split.
  - exists (HNN.differentiale_model sH x).
    split; [|split; [reflexivity|exact Hy]].
    unfold HNN.forward, pbind, get, ret. simpl.
    now destruct (HNN.baseline sH).
  - now apply (HNN_structure_forward_shape sS m 0 xs).
Qed.

(** the statement above on a batch of two states of dimension 2 *)
Lemma forward_one_scalar_per_state_witness :
  let sH := HNN.init 2 (fun x => map (fun r => [Torch.vsum r]) x) 0
              false true false None in
  let sS := HNN_structure.init 2 (fun q => map (fun _ => [1]) q) (fun q => q)
              0 true in
  let x := [[1; 2]; [3; 4]] in
  (exists H, snd (HNN.forward x sH) = Some H /\
             H = HNN.differentiale_model sH x /\ Torch.is_mat 2 1 H) /\
  (exists H, snd (HNN_structure.forward x sS) = Some H /\ Torch.is_mat 2 1 H).
Proof.
  cbv zeta.
  apply (forward_one_scalar_per_state _ _ 2 2);
    (split; [reflexivity|repeat constructor]).
Defined.

(** C3 fails as stated. [HNN_structure.forward] on one state of dimension 4,
    with [L_net] and [V_net] giving one value per state, returns two values
    for it, one per momentum; [HNN_structure_pend.forward] raises on a batch
    of two states of dimension 6, with [M_net] giving a 3-by-3 matrix and
    [V_net] one value per state. *)
Lemma forward_not_one_scalar_per_state :
  let s := HNN_structure.init 4 (fun q => map (fun _ => [1]) q)
             (fun q => map (fun _ => [0]) q) 0 true in
  let s' := HNN_structure_pend.init 6
              (fun q => map (fun _ => Torch.diag_embed [1; 1; 3]) q)
              (fun q => map (fun _ => [0]) q)
              (fun q => map (fun _ => [[1; 0]; [0; 1]; [0; 0]]) q) 0 true in
  snd (HNN_structure.forward [[1; 2; 3; 4]] s) =
    Some [[3 * 3 / (1 * 1 + 0.1) / 2 + 0; 4 * 4 / (1 * 1 + 0.1) / 2 + 0]] /\
  ~ Torch.is_mat 1 1
      [[3 * 3 / (1 * 1 + 0.1) / 2 + 0; 4 * 4 / (1 * 1 + 0.1) / 2 + 0]] /\
  snd (HNN_structure_pend.forward
         [[0; 0; 0; 1; 0; 0]; [0; 0; 0; 0; 1; 0]] s') = None.
Proof.
  cbv zeta. split; [reflexivity|]. split; [|reflexivity].
  intros [_ Hrows]. inversion Hrows as [|? ? Hlen _]. discriminate Hlen.
Qed.

(** ** A concrete run of [HNN_structure_pend.time_derivative] *)

Ltac run_tensor :=
  cbv - [Rplus Rminus Rmult Rdiv Ropp Rinv IZR Req_dec_T Z.pow_pos].

(** equality of tensors, entry by entry *)
Ltac tensor_eq :=
  repeat match goal with
         | |- (_, _) = (_, _) => f_equal
         | |- Some _ = Some _ => f_equal
         | |- Torch.T2 _ = Torch.T2 _ => f_equal
         | |- _ :: _ = _ :: _ => f_equal
         end.

(** the Levi-Civita branch of [permutation_tensor] for [n = 3], and the
    canonical branch for an odd [n] *)
Example permutation_tensor_levi_civita_3 :
  permutation_tensor false 3 = [[0; 1; -1]; [-1; 0; 1]; [1; -1; 0]].
Proof. run_tensor. tensor_eq; lra. Qed.

Example permutation_tensor_canonical_3 :
  permutation_tensor true 3 = [[0; 1; 0]; [0; 0; 1]; [-1; 0; 0]].
Proof. run_tensor. tensor_eq; lra. Qed.

Lemma inverse_2x2 (a b c d : R) :
  a * d - b * c <> 0 ->
  Torch.inverse [[a; b]; [c; d]] =
  Some [[d / (a * d - b * c); - b / (a * d - b * c)];
        [- c / (a * d - b * c); a / (a * d - b * c)]].
Proof.
  intros Hdet. unfold Torch.inverse.
  cbv [Torch.is_square forallb length Nat.eqb andb].
  assert (Hd : Torch.det 2 [[a; b]; [c; d]] = a * d - b * c).
  { cbv [Torch.det Torch.vsum Torch.minor Torch.drop_nth Torch.entry Torch.sign
         Nat.even map seq fold_right nth]. ring. }
  rewrite Hd. destruct (Req_dec_T (a * d - b * c) 0) as [He|_]; [contradiction|].
  cbv [Torch.det Torch.vsum Torch.minor Torch.drop_nth Torch.entry Torch.sign
       Nat.even Nat.add Nat.sub map seq fold_right nth].
  repeat f_equal; field; exact Hdet.
Qed.

Lemma pend_example_dH (k : Z) :
  HNN_structure_pend.time_derivative_dH central_difference
    (HNN_structure_pend.set_nfe pend_example k) pend_example_x =
  [[2; 2; 2; 4; 0; 0]; [2; 2; 2; 0; 4; 0]].
Proof.
  run_tensor. tensor_eq; lra.
Qed.

Lemma pend_example_RHS (k : Z) :
  HNN_structure_pend.time_derivative_RHS central_difference 2
    pend_example_q pend_example_p pend_example_dH_value
    (HNN_structure_pend.set_nfe pend_example k) =
  (HNN_structure_pend.set_nfe pend_example k, Some [[[2]; [2]]; [[2]; [2]]]).
Proof.
  run_tensor. tensor_eq; lra.
Qed.

Lemma pend_example_LHS (k : Z) :
  HNN_structure_pend.time_derivative_LHS
    (HNN_structure_pend.set_nfe pend_example k) 2 pend_example_q =
  Some [[[1; 0]; [0; 1]]; [[1; 0]; [0; 1]]].
Proof.
  run_tensor. tensor_eq; lra.
Qed.

Lemma pend_example_lambd (k : Z) :
  HNN_structure_pend.time_derivative_lambd central_difference 2
    pend_example_q pend_example_p pend_example_dH_value
    (HNN_structure_pend.set_nfe pend_example k) =
  (HNN_structure_pend.set_nfe pend_example k,
   Some [[[5 / 3]; [5 / 3]]; [[5 / 3]; [5 / 3]]]).
Proof.
  unfold HNN_structure_pend.time_derivative_lambd, pbind at 1, get at 1.
  unfold pbind at 1. rewrite pend_example_RHS.
  unfold pbind at 1, lift at 1. rewrite pend_example_LHS.
  cbv - [Rplus Rminus Rmult Rdiv Ropp Rinv IZR Req_dec_T Z.pow_pos
         Torch.inverse].
  rewrite inverse_2x2 by lra.
  run_tensor. tensor_eq; lra.
Qed.

Lemma pend_example_con_force (k : Z) :
  HNN_structure_pend.time_derivative_con_force central_difference 2
    pend_example_q pend_example_p pend_example_dH_value
    (HNN_structure_pend.set_nfe pend_example k) =
  (HNN_structure_pend.set_nfe pend_example k,
   Some (Torch.T2 [[5 / 3; 5 / 3; 0]; [5 / 3; 5 / 3; 0]])).
Proof.
  unfold HNN_structure_pend.time_derivative_con_force, pbind at 1, get at 1.
  unfold pbind at 1. rewrite pend_example_lambd.
  run_tensor. tensor_eq; lra.
Qed.

Lemma pend_example_chunk2 :
  Torch.chunk2 pend_example_x = Some (pend_example_q, pend_example_p).
Proof. reflexivity. Qed.

Lemma pend_example_H_vector_field (k : Z) :
  Torch.matmul pend_example_dH_value
    (Torch.t (HNN_structure_pend.M
                (HNN_structure_pend.set_nfe pend_example k))) =
  Some [[4; 0; 0; -2; -2; -2]; [0; 4; 0; -2; -2; -2]].
Proof. run_tensor. tensor_eq; lra. Qed.

Lemma pend_example_time_derivative (t : R) (k : Z) :
  HNN_structure_pend.time_derivative central_difference t pend_example_x
    (HNN_structure_pend.set_nfe pend_example k) =
  (HNN_structure_pend.set_nfe pend_example (k + 1),
   Some (Torch.T2 [[4; 0; 0; - 1 / 3; - 1 / 3; - 2];
                   [0; 4; 0; - 1 / 3; - 1 / 3; - 2]])).
Proof.
  unfold HNN_structure_pend.time_derivative.
  cbv [pbind get put lift ret].
  rewrite pend_example_chunk2.
  change (HNN_structure_pend.set_nfe
            (HNN_structure_pend.set_nfe pend_example k)
            (HNN_structure_pend.nfe
               (HNN_structure_pend.set_nfe pend_example k) + 1)%Z)
    with (HNN_structure_pend.set_nfe pend_example (k + 1)).
  rewrite pend_example_dH.
  change (length pend_example_x) with 2%nat.
  fold pend_example_dH_value.
  rewrite pend_example_con_force, pend_example_H_vector_field.
  run_tensor. tensor_eq; lra.
Qed.

(** ** The constraint force of [HNN_structure_pend.time_derivative] *)

Lemma bop1_same_length (f : R -> R -> R) (u v : vec) :
  length u = length v -> Torch.bop1 f u v = Some (Torch.map2 f u v).
Proof.
  intros H. unfold Torch.bop1, Torch.broadcast. rewrite H, Nat.eqb_refl.
  unfold Torch.map2.
  apply (sequence_map_Some (fun ab => f (fst ab) (snd ab))).
Qed.

Lemma sequence_map2_same_shape (f : R -> R -> R) (m : nat) (A B : mat) :
  Forall (fun r => length r = m) A -> Forall (fun r => length r = m) B ->
  sequence (Torch.map2 (Torch.bop1 f) A B) =
  Some (Torch.map2 (Torch.map2 f) A B).
Proof.
  intros HA. revert B. induction HA as [|u A Hu HA IH]; intros B HB.
  - reflexivity.
  - destruct HB as [|v B Hv HB]; [reflexivity|].
    unfold Torch.map2 in *. simpl.
    rewrite (bop1_same_length f u v) by congruence. simpl.
    rewrite (IH B HB). reflexivity.
Qed.

Lemma bop2_same_shape (f : R -> R -> R) (n m : nat) (A B : mat) :
  Torch.is_mat n m A -> Torch.is_mat n m B ->
  Torch.bop2 f A B = Some (Torch.map2 (Torch.map2 f) A B).
Proof.
  intros [HA HrA] [HB HrB]. unfold Torch.bop2, Torch.broadcast.
  rewrite HA, HB, Nat.eqb_refl. now apply (sequence_map2_same_shape f m).
Qed.

Lemma map2_app {A B C : Type} (f : A -> B -> C) (l1 l2 : list A)
    (l1' l2' : list B) :
  length l1 = length l1' ->
  Torch.map2 f (l1 ++ l2) (l1' ++ l2') =
  Torch.map2 f l1 l1' ++ Torch.map2 f l2 l2'.
Proof.
  unfold Torch.map2. revert l1'.
  induction l1 as [|a l1 IH]; intros [|b l1'] H; try discriminate.
  - reflexivity.
  - simpl. rewrite IH by (simpl in H; lia). reflexivity.
Qed.

Lemma map2_plus_zeros (h : vec) : Torch.map2 Rplus h (repeat 0 (length h)) = h.
Proof.
  unfold Torch.map2. induction h as [|a h IH]; simpl; [reflexivity|].
  rewrite IH. f_equal. lra.
Qed.

Lemma length_map2 {A B C : Type} (f : A -> B -> C) (l : list A) (l' : list B) :
  length (Torch.map2 f l l') = Nat.min (length l) (length l').
Proof. unfold Torch.map2. now rewrite length_map, length_combine. Qed.

(** adding [0 ... 0, c] to a row [h] twice as long as [c] *)
Lemma map2_plus_zeros_app (d : nat) (h c : vec) :
  length h = (d + d)%nat -> length c = d ->
  Torch.map2 Rplus h (repeat 0 d ++ c) =
  firstn d h ++ Torch.map2 Rplus (skipn d h) c.
Proof.
  intros Hh Hc.
  rewrite <- (firstn_skipn d h) at 1.
  rewrite map2_app by (rewrite length_firstn, repeat_length; lia).
  f_equal.
  replace d with (length (firstn d h)) at 2 by (rewrite length_firstn; lia).
  apply map2_plus_zeros.
Qed.

(** a [bs]-by-[2 d] matrix whose second half of each row is increased by a
    [bs]-by-[d] matrix: the halves of the result *)
Lemma rows_of_sum (bs d : nat) (A C : mat) :
  Torch.is_mat bs (d + d) A -> Torch.is_mat bs d C ->
  let S := Torch.map2
             (fun h c => firstn d h ++ Torch.map2 Rplus (skipn d h) c) A C in
  map (firstn d) S = map (firstn d) A /\
  map (skipn d) S = Torch.map2 (Torch.map2 Rplus) (map (skipn d) A) C.
Proof.
  intros [Hn Hrows] [Hn' Hrows']. cbv zeta.
  assert (Hlen : length A = length C) by congruence.
  clear Hn Hn'. revert C Hrows' Hlen.
  induction Hrows as [|h A Hh _ IH]; intros C HC Hlen.
  - destruct C; [split; reflexivity|discriminate].
  - destruct HC as [|c C Hc HC]; [discriminate|].
    destruct (IH C HC) as [IH1 IH2]; [simpl in Hlen; lia|].
    unfold Torch.map2 in *. simpl. rewrite IH1, IH2. split; f_equal.
    + rewrite firstn_app, length_firstn, Hh.
      replace (d - Nat.min d (d + d))%nat with O by lia. simpl.
      rewrite app_nil_r. apply firstn_all2. rewrite length_firstn. lia.
    + rewrite skipn_app, length_firstn, Hh.
      replace (d - Nat.min d (d + d))%nat with O by lia. simpl.
      rewrite skipn_all2 by (rewrite length_firstn; lia). reflexivity.
Qed.

Section Constraint_force.

Variable autograd_grad : (mat -> option R) -> mat -> mat.

(** C10: in a call of [time_derivative] where the Hamiltonian field is
    [bs]-by-[2 d] and the constraint force [bs]-by-[d], the field of the
    constraint force is [0, con_force]: its first half is zero, the call
    returns the entrywise sum, and the first half of every row of the result
    is that of the Hamiltonian field. *)
Theorem constraint_force_momentum_only
    (t : R) (x q p : mat) (s : HNN_structure_pend.self)
    (H : Torch.tensor) (H_vector_field con_force : mat) (bs d : nat) :
  let s' := HNN_structure_pend.set_nfe s (HNN_structure_pend.nfe s + 1)%Z in
  let dH := HNN_structure_pend.time_derivative_dH autograd_grad s' x in
  let con_force_vector_field := map (fun c => repeat 0 d ++ c) con_force in
  let result :=
    Torch.map2 (Torch.map2 Rplus) H_vector_field con_force_vector_field in
  Torch.chunk2 x = Some (q, p) ->
  HNN_structure_pend.time_derivative_H s' x = Some H ->
  Torch.matmul dH (Torch.t (HNN_structure_pend.M s)) = Some H_vector_field ->
  snd (HNN_structure_pend.time_derivative_con_force autograd_grad (length x)
         q p dH s') = Some (Torch.T2 con_force) ->
  Torch.is_mat bs (d + d) H_vector_field ->
  Torch.is_mat bs d con_force ->
  Torch.cat1_zeros_like (Torch.T2 con_force) =
    Some (Torch.T2 con_force_vector_field) /\
  map (firstn d) con_force_vector_field = Torch.zeros bs d /\
  snd (HNN_structure_pend.time_derivative autograd_grad t x s) =
    Some (Torch.T2 result) /\
  map (firstn d) result = map (firstn d) H_vector_field /\
  map (skipn d) result =
    Torch.map2 (Torch.map2 Rplus) (map (skipn d) H_vector_field) con_force.
Proof.
  intros s' dH F result Hqp HH HHvf Hcf [Hn Hrows] [Hn' Hrows'].
  assert (HF : Torch.cat1_zeros_like (Torch.T2 con_force) = Some (Torch.T2 F)).
  { simpl. do 2 f_equal. subst F. apply map_ext_in. intros c Hc.
    rewrite Forall_forall in Hrows'. rewrite <- (Hrows' c Hc).
    f_equal. clear. induction c; simpl; [|rewrite IHc]; reflexivity. }
  assert (HFmat : Torch.is_mat bs (d + d) F).
  { split; [subst F; now rewrite length_map|].
    apply Forall_forall. intros r Hr. apply in_map_iff in Hr.
    destruct Hr as [c [<- Hc]]. rewrite Forall_forall in Hrows'.
    rewrite length_app, repeat_length, (Hrows' c Hc). reflexivity. }
  assert (Hrow : forall h c, In (h, c) (combine H_vector_field con_force) ->
            Torch.map2 Rplus h (repeat 0 d ++ c) =
            firstn d h ++ Torch.map2 Rplus (skipn d h) c).
  { intros h c Hin. rewrite Forall_forall in Hrows, Hrows'.
    apply map2_plus_zeros_app.
    - apply Hrows. eapply in_combine_l, Hin.
    - apply Hrows'. eapply in_combine_r, Hin. }
  assert (Hres : result =
            Torch.map2 (fun h c => firstn d h ++ Torch.map2 Rplus (skipn d h) c)
                       H_vector_field con_force).
  { subst result F. rewrite map2_map_r. unfold Torch.map2 at 1 3.
    apply map_ext_in. intros [h c] Hin. now apply Hrow. }
  split; [exact HF|]. split.
  { subst F. rewrite map_map. unfold Torch.zeros, Torch.full.
    rewrite <- Hn'. clear - Hrows'.
    induction Hrows' as [|c CF Hc _ IH]; simpl; [reflexivity|].
    rewrite IH. f_equal.
    rewrite firstn_app, repeat_length, Nat.sub_diag. simpl.
    rewrite app_nil_r. apply firstn_all2. rewrite repeat_length. lia. }
  split.
  { unfold HNN_structure_pend.time_derivative.
    cbv [pbind get put lift ret]. fold s'. rewrite Hqp, HH. fold dH.
    change (HNN_structure_pend.M s') with (HNN_structure_pend.M s).
    rewrite HHvf.
    pose proof (time_derivative_con_force_preserves autograd_grad (length x)
                  q p dH s') as Hfst.
    destruct (HNN_structure_pend.time_derivative_con_force autograd_grad
                (length x) q p dH s') as [s'' o].
    simpl in Hfst, Hcf. subst s'' o. rewrite HF.
    unfold Torch.tbop. simpl Torch.lift3. unfold Torch.bop3, Torch.broadcast.
    simpl length. simpl Nat.eqb. cbv iota. unfold Torch.map2 at 1. simpl.
    fold (Torch.bop2 Rplus H_vector_field F).
    rewrite (bop2_same_shape Rplus bs (d + d));
      [reflexivity|split; assumption|exact HFmat]. }
  rewrite Hres. now apply (rows_of_sum bs).
Qed.

End Constraint_force.

Lemma pend_example_H (k : Z) :
  HNN_structure_pend.time_derivative_H
    (HNN_structure_pend.set_nfe pend_example k) pend_example_x =
  Some (Torch.T2 [[1; 1]; [1; 1]]).
Proof. run_tensor. tensor_eq; lra. Qed.

(** the statement above on the run of [pend_example] on [pend_example_x]:
    the Hamiltonian field is 2-by-6, the constraint force 2-by-3 *)
Lemma constraint_force_momentum_only_witness :
  let con_force := [[5 / 3; 5 / 3; 0]; [5 / 3; 5 / 3; 0]] in
  let H_vector_field := [[4; 0; 0; -2; -2; -2]; [0; 4; 0; -2; -2; -2]] in
  let con_force_vector_field := map (fun c => repeat 0 3 ++ c) con_force in
  let result :=
    Torch.map2 (Torch.map2 Rplus) H_vector_field con_force_vector_field in
  Torch.cat1_zeros_like (Torch.T2 con_force) =
    Some (Torch.T2 con_force_vector_field) /\
  map (firstn 3) con_force_vector_field = Torch.zeros 2 3 /\
  snd (HNN_structure_pend.time_derivative central_difference 0 pend_example_x
         pend_example) = Some (Torch.T2 result) /\
  map (firstn 3) result = map (firstn 3) H_vector_field /\
  map (skipn 3) result =
    Torch.map2 (Torch.map2 Rplus) (map (skipn 3) H_vector_field) con_force.
Proof.
  cbv zeta.
  apply (constraint_force_momentum_only central_difference 0 pend_example_x
           pend_example_q pend_example_p pend_example
           (Torch.T2 [[1; 1]; [1; 1]]) _ _ 2 3).
  - reflexivity.
  - apply pend_example_H.
  - rewrite (pend_example_dH (HNN_structure_pend.nfe pend_example + 1)).
    apply (pend_example_H_vector_field 0).
  - rewrite (pend_example_dH (HNN_structure_pend.nfe pend_example + 1)).
    change (length pend_example_x) with 2%nat.
    fold pend_example_dH_value.
    now rewrite pend_example_con_force.
  - split; [reflexivity|repeat constructor].
  - split; [reflexivity|repeat constructor].
Defined.

(** ** The multiplier of [HNN_structure_pend.time_derivative] *)

Section Multiplier.

Variable autograd_grad : (mat -> option R) -> mat -> mat.

Lemma lambd_value (bs : nat) (q p dH : mat) (s : HNN_structure_pend.self) :
  snd (HNN_structure_pend.time_derivative_lambd autograd_grad bs q p dH s) =
    (RHS <-? snd (HNN_structure_pend.time_derivative_RHS autograd_grad
                    bs q p dH s) ;;
     LHS <-? HNN_structure_pend.time_derivative_LHS s bs q ;;
     LHS_inv <-? Torch.binverse (map (map (map (fun e => e + 0.1))) LHS) ;;
     Torch.bmatmul LHS_inv RHS).
Proof.
  unfold HNN_structure_pend.time_derivative_lambd.
  cbv [pbind get lift ret].
  pose proof (time_derivative_RHS_preserves autograd_grad bs q p dH s) as Hfst.
  destruct (HNN_structure_pend.time_derivative_RHS autograd_grad bs q p dH s)
    as [s' [RHS|]]; simpl in *; [subst s'|reflexivity].
  destruct (HNN_structure_pend.time_derivative_LHS s bs q) as [LHS|];
    simpl; [|reflexivity].
  replace (map (map (map (fun e => e + 1 * 0.1))) LHS)
    with (map (map (map (fun e => e + 0.1))) LHS)
    by (repeat (apply map_ext; intros ?); lra).
  destruct (Torch.binverse _) as [LHS_inv|]; simpl; [|reflexivity].
  destruct (Torch.bmatmul LHS_inv RHS); reflexivity.
Qed.

(** C5, as the code has it: [lambd] is
    [inverse(A^T D A + 0.1) * (A^T D dH/dq - d(A^T D p)/dq * dH/dp)], where
    [D] is the matrix [M_q_inv] of [time_derivative] and [0.1] is added to
    every entry of [A^T D A]; the constraint force is [squeeze(A * lambd)]. *)
Theorem time_derivative_lambd_regularised
    (bs : nat) (q p dH : mat) (s : HNN_structure_pend.self) :
  snd (HNN_structure_pend.time_derivative_lambd autograd_grad bs q p dH s) =
    (RHS <-? snd (HNN_structure_pend.time_derivative_RHS autograd_grad
                    bs q p dH s) ;;
     LHS <-? HNN_structure_pend.time_derivative_LHS s bs q ;;
     LHS_inv <-? Torch.binverse (map (map (map (fun e => e + 0.1))) LHS) ;;
     Torch.bmatmul LHS_inv RHS) /\
  snd (HNN_structure_pend.time_derivative_con_force autograd_grad bs q p dH s) =
    (lambd <-? snd (HNN_structure_pend.time_derivative_lambd autograd_grad
                      bs q p dH s) ;;
     A_lambd <-? Torch.bmatmul (HNN_structure_pend.A_net s q) lambd ;;
     Some (Torch.squeeze A_lambd)).
Proof.
  split; [apply lambd_value|].
  unfold HNN_structure_pend.time_derivative_con_force.
  cbv [pbind get lift ret].
  pose proof (time_derivative_lambd_preserves autograd_grad bs q p dH s)
    as Hfst.
  destruct (HNN_structure_pend.time_derivative_lambd autograd_grad bs q p dH s)
    as [s' [lambd|]]; simpl in *; [subst s'|reflexivity].
  destruct (Torch.bmatmul _ lambd); reflexivity.
Qed.

End Multiplier.

(** C5 fails as stated. On the batch [pend_example_x] of two states, with
    the gradients exact, [A^T D A] is the identity in both batches, the
    right-hand side is [(2, 2)] and [lambd] is [(5/3, 5/3)]:
    [(A^T D A) * lambd] is not the right-hand side, while
    [(A^T D A + 0.1) * lambd] is. *)
Lemma lambd_does_not_solve_unregularised_equation :
  let dH := HNN_structure_pend.time_derivative_dH central_difference
              pend_example pend_example_x in
  let lambd := [[[5 / 3]; [5 / 3]]; [[5 / 3]; [5 / 3]]] in
  let LHS := [[[1; 0]; [0; 1]]; [[1; 0]; [0; 1]]] in
  let RHS := [[[2]; [2]]; [[2]; [2]]] in
  snd (HNN_structure_pend.time_derivative_lambd central_difference 2
         pend_example_q pend_example_p dH pend_example) = Some lambd /\
  HNN_structure_pend.time_derivative_LHS pend_example 2 pend_example_q =
    Some LHS /\
  snd (HNN_structure_pend.time_derivative_RHS central_difference 2
         pend_example_q pend_example_p dH pend_example) = Some RHS /\
  (exists product, Torch.bmatmul LHS lambd = Some product /\ product <> RHS) /\
  (exists product,
     Torch.bmatmul (map (map (map (fun e => e + 0.1))) LHS) lambd =
       Some product /\ product = RHS).
Proof.
  cbv zeta.
  pose proof (pend_example_dH 0) as HdH.
  pose proof (pend_example_lambd 0) as Hlambd.
  pose proof (pend_example_RHS 0) as HRHS.
  change (HNN_structure_pend.set_nfe pend_example 0) with pend_example
    in HdH, Hlambd, HRHS.
  rewrite HdH. fold pend_example_dH_value.
  split; [|split; [|split; [|split]]].
  - now rewrite Hlambd.
  - exact (pend_example_LHS 0).
  - now rewrite HRHS.
  - eexists. split; [run_tensor; reflexivity|].
    intros Heq. injection Heq as Heq _. lra.
  - eexists. split; [run_tensor; reflexivity|].
    tensor_eq; lra.
Qed.

(** ** [HNN_structure_pend]: [forward] against [time_derivative] *)

Lemma ignores_ret {A : Type} (a : A) : ignores_M_net (ret a).
Proof. intros s m. reflexivity. Qed.

Lemma ignores_lift {A : Type} (o : option A) : ignores_M_net (lift o).
Proof. intros s m. reflexivity. Qed.

Lemma ignores_pbind {A B : Type} (c : prog HNN_structure_pend.self A)
    (k : A -> prog HNN_structure_pend.self B) :
  preserves c -> ignores_M_net c -> (forall a, ignores_M_net (k a)) ->
  ignores_M_net (pbind c k).
Proof.
  intros Hp Hc Hk s m. unfold pbind.
  pose proof (Hp s) as H1. pose proof (Hp (with_M_net s m)) as H2.
  specialize (Hc s m).
  destruct (c s) as [s1 o1], (c (with_M_net s m)) as [s2 o2].
  simpl in *. subst s1 s2 o2.
  destruct o1 as [a|]; [apply Hk|reflexivity].
Qed.

(** reading the module is harmless when what follows reads no [M_net] *)
Lemma ignores_get {B : Type}
    (k : HNN_structure_pend.self -> prog HNN_structure_pend.self B) :
  (forall s, ignores_M_net (k s)) ->
  (forall s m, k (with_M_net s m) = k s) ->
  ignores_M_net (pbind get k).
Proof.
  intros Hk Heq s m. unfold pbind, get. rewrite Heq. apply Hk.
Qed.

Ltac ignore_M_net :=
  repeat first
    [ apply ignores_ret | apply ignores_lift
    | apply ignores_get; [intros ?|intros ? ?; reflexivity]
    | match goal with
      | |- ignores_M_net (let '(_, _) := ?qp in _) => destruct qp
      end ].

Section Mass_network.

Variable autograd_grad : (mat -> option R) -> mat -> mat.

Lemma get_jacobian_ignores (input : mat) (output : mat -> option bmat) :
  ignores_M_net (HNN_structure_pend.get_jacobian autograd_grad input output).
Proof.
  unfold HNN_structure_pend.get_jacobian.
  repeat (apply ignores_pbind; [frame| |intros ?]); ignore_M_net.
Qed.

Lemma time_derivative_RHS_ignores (bs : nat) (q p dH : mat) :
  ignores_M_net
    (HNN_structure_pend.time_derivative_RHS autograd_grad bs q p dH).
Proof.
  unfold HNN_structure_pend.time_derivative_RHS.
  apply ignores_get; [intros s|intros s m; reflexivity].
  apply ignores_pbind; [frame|ignore_M_net|intros [dHdq dHdp]].
  apply ignores_pbind; [frame|ignore_M_net|intros ?].
  apply ignores_pbind;
    [apply get_jacobian_preserves|apply get_jacobian_ignores|intros ?].
  repeat (apply ignores_pbind; [frame|ignore_M_net|intros ?]); ignore_M_net.
Qed.

Lemma time_derivative_lambd_ignores (bs : nat) (q p dH : mat) :
  ignores_M_net
    (HNN_structure_pend.time_derivative_lambd autograd_grad bs q p dH).
Proof.
  unfold HNN_structure_pend.time_derivative_lambd.
  apply ignores_get; [intros s|intros s m; reflexivity].
  apply ignores_pbind;
    [apply time_derivative_RHS_preserves|apply time_derivative_RHS_ignores
    |intros ?].
  repeat (apply ignores_pbind; [frame|ignore_M_net|intros ?]); ignore_M_net.
Qed.

Lemma time_derivative_con_force_ignores (bs : nat) (q p dH : mat) :
  ignores_M_net
    (HNN_structure_pend.time_derivative_con_force autograd_grad bs q p dH).
Proof.
  unfold HNN_structure_pend.time_derivative_con_force.
  apply ignores_get; [intros s|intros s m; reflexivity].
  apply ignores_pbind;
    [apply time_derivative_lambd_preserves|apply time_derivative_lambd_ignores
    |intros ?].
  repeat (apply ignores_pbind; [frame|ignore_M_net|intros ?]); ignore_M_net.
Qed.

(** [time_derivative] never calls [M_net]: with any other mass network it
    returns the same field *)
Lemma time_derivative_ignores_M_net (t : R) (x : mat) :
  ignores_M_net (HNN_structure_pend.time_derivative autograd_grad t x).
Proof.
  intros s m. unfold HNN_structure_pend.time_derivative.
  unfold pbind at 1, get at 1. unfold pbind at 1, put at 1.
  symmetry. unfold pbind at 1, get at 1. unfold pbind at 1, put at 1.
  symmetry.
  change (HNN_structure_pend.set_nfe (with_M_net s m)
            (HNN_structure_pend.nfe (with_M_net s m) + 1)%Z)
    with (with_M_net
            (HNN_structure_pend.set_nfe s (HNN_structure_pend.nfe s + 1)%Z) m).
  generalize (HNN_structure_pend.set_nfe s (HNN_structure_pend.nfe s + 1)%Z).
  clear s. intros s. revert s m.
  change (ignores_M_net
    (s <- get ;;
     qp <- lift (Torch.chunk2 x) ;;
     (let '(q, p) := qp in
      H <- lift (HNN_structure_pend.time_derivative_H s x) ;;
      H_vector_field <-
        lift (Torch.matmul
                (HNN_structure_pend.time_derivative_dH autograd_grad s x)
                (Torch.t (HNN_structure_pend.M s))) ;;
      con_force <-
        HNN_structure_pend.time_derivative_con_force autograd_grad (length x)
          q p (HNN_structure_pend.time_derivative_dH autograd_grad s x) ;;
      con_force_vector_field <- lift (Torch.cat1_zeros_like con_force) ;;
      lift (Torch.tbop Rplus (Torch.T2 H_vector_field)
              con_force_vector_field)))).
  apply ignores_get; [intros s|intros s m; reflexivity].
  apply ignores_pbind; [frame|ignore_M_net|intros [q p]].
  apply ignores_pbind; [frame|ignore_M_net|intros ?].
  apply ignores_pbind; [frame|ignore_M_net|intros ?].
  apply ignores_pbind;
    [apply time_derivative_con_force_preserves
    |apply time_derivative_con_force_ignores|intros ?].
  repeat (apply ignores_pbind; [frame|ignore_M_net|intros ?]); ignore_M_net.
Qed.

End Mass_network.

(** C2 fails on the code: on the batch [pend_example3_x], with the gradients
    exact, [forward] returns, the gradient of [forward(x).sum()] has
    [(12, 12, 12)] in the momentum half of every row, and the gradient [dH]
    that [time_derivative] takes has [(6, 0, 0)], [(0, 6, 0)] and
    [(0, 0, 18)]: it comes from the constant [diag(1, 1, 3)], not from
    [M_net]. *)
Theorem dH_is_not_the_gradient_of_forward :
  let s := pend_example3 in
  let x := pend_example3_x in
  snd (HNN_structure_pend.forward x s) <> None /\
  forward_gradient central_difference s x =
    [[0; 0; 0; 12; 12; 12]; [0; 0; 0; 12; 12; 12]; [0; 0; 0; 12; 12; 12]] /\
  HNN_structure_pend.time_derivative_dH central_difference s x =
    [[0; 0; 0; 6; 0; 0]; [0; 0; 0; 0; 6; 0]; [0; 0; 0; 0; 0; 18]] /\
  forward_gradient central_difference s x <>
  HNN_structure_pend.time_derivative_dH central_difference s x.
Proof.
  cbv zeta.
  assert (H1 : forward_gradient central_difference pend_example3
                 pend_example3_x =
               [[0; 0; 0; 12; 12; 12]; [0; 0; 0; 12; 12; 12];
                [0; 0; 0; 12; 12; 12]]).
  { run_tensor. tensor_eq; lra. }
  assert (H2 : HNN_structure_pend.time_derivative_dH central_difference
                 pend_example3 pend_example3_x =
               [[0; 0; 0; 6; 0; 0]; [0; 0; 0; 0; 6; 0]; [0; 0; 0; 0; 0; 18]]).
  { run_tensor. tensor_eq; lra. }
  split; [run_tensor; discriminate|].
  split; [exact H1|]. split; [exact H2|].
  rewrite H1, H2. intros Heq. injection Heq as Heq. lra.
Qed.

(** ** The regularised system of the multiplier *)

(** a list of known length as its elements *)
Ltac explicit_list :=
  repeat match goal with
         | H : length ?l = S _ |- _ =>
             destruct l; simpl in H; [discriminate H|injection H as H]
         | H : length ?l = O |- _ =>
             destruct l; [clear H|discriminate H]
         | H : Forall _ (_ :: _) |- _ => inversion H; subst; clear H
         | H : Forall _ [] |- _ => clear H
         end.

(** for at most four constraints, [inverse(A) * v] solves [A * x = v] *)
Lemma inverse_solves (k : nat) (A B v x : mat) :
  (k <= 4)%nat ->
  Torch.is_mat k k A -> Torch.is_mat k 1 v ->
  Torch.inverse A = Some B -> Torch.matmul B v = Some x ->
  Torch.matmul A x = Some v.
Proof.
  intros Hk [HA HrA] [Hv Hrv] Hinv Hx.
  assert (Hcases : (k = 0 \/ k = 1 \/ k = 2 \/ k = 3 \/ k = 4)%nat) by lia.
  destruct Hcases as [-> | [-> | [-> | [-> | ->]]]]; explicit_list;
    unfold Torch.inverse in Hinv; simpl Torch.is_square in Hinv;
    cbv iota in Hinv;
    match type of Hinv with
    | context [Req_dec_T ?d 0] => destruct (Req_dec_T d 0) as [Hz|Hdet]
    end; try discriminate Hinv;
    injection Hinv as <-;
    cbv - [Rplus Rminus Rmult Rdiv Ropp Rinv IZR] in Hx, Hdet;
    injection Hx as <-;
    cbv - [Rplus Rminus Rmult Rdiv Ropp Rinv IZR];
    tensor_eq; field; intros Hc; apply Hdet;
    match goal with
    | Hc : ?e = 0 |- ?d = 0 => replace d with e by ring; exact Hc
    end.
Qed.

Lemma sequence_Some_inv {A : Type} (a : option A) (l : list (option A))
    (r : list A) :
  sequence (a :: l) = Some r ->
  exists x r', a = Some x /\ sequence l = Some r' /\ r = x :: r'.
Proof.
  simpl. destruct a as [x|]; simpl; [|discriminate].
  destruct (sequence l) as [r'|]; simpl; [|discriminate].
  intros [= <-]. now exists x, r'.
Qed.

Lemma sequence_length {A : Type} (l : list (option A)) (r : list A) :
  sequence l = Some r -> length r = length l.
Proof.
  revert r. induction l as [|a l IH]; intros r H.
  - now injection H as <-.
  - destruct (sequence_Some_inv a l r H) as [x [r' [_ [Hr' ->]]]].
    simpl. now rewrite (IH r' Hr').
Qed.

(** batch by batch *)
Lemma sequence_inverse_solves (k : nat) (Ls Bs vs xs : bmat) :
  (k <= 4)%nat ->
  Forall (Torch.is_mat k k) Ls -> Forall (Torch.is_mat k 1) vs ->
  length Ls = length vs ->
  sequence (map Torch.inverse Ls) = Some Bs ->
  sequence (Torch.map2 Torch.matmul Bs vs) = Some xs ->
  sequence (Torch.map2 Torch.matmul Ls xs) = Some vs.
Proof.
  intros Hk HLs. revert Bs vs xs.
  induction HLs as [|A Ls HA HLs IH]; intros Bs vs xs Hvs Hlen Hinv Hx.
  - destruct vs; [reflexivity|discriminate].
  - destruct vs as [|v vs]; [discriminate|].
    inversion Hvs as [|? ? Hv Hvs']; subst.
    simpl map in Hinv.
    destruct (sequence_Some_inv _ _ _ Hinv) as [B [Bs' [HB [HBs ->]]]].
    unfold Torch.map2 in Hx. simpl in Hx.
    destruct (sequence_Some_inv _ _ _ Hx) as [x [xs' [Hx0 [Hxs ->]]]].
    unfold Torch.map2. simpl.
    rewrite (inverse_solves k A B v x Hk HA Hv HB Hx0). simpl.
    fold (Torch.map2 Torch.matmul Ls xs').
    rewrite (IH Bs' vs xs' Hvs'); [reflexivity|simpl in Hlen; lia|exact HBs|].
    exact Hxs.
Qed.

Section Regularised_system.

Variable autograd_grad : (mat -> option R) -> mat -> mat.

(** when [time_derivative] reaches [lambd] with [k <= 4] constraints, the
    same batch size on both sides and a column on the right, [lambd] solves
    the system whose matrix is [A^T D A] with [0.1] added to every entry *)
Lemma lambd_solves_regularised_equation
    (bs k n : nat) (q p dH : mat) (s : HNN_structure_pend.self)
    (LHS RHS lambd : bmat) :
  (k <= 4)%nat ->
  snd (HNN_structure_pend.time_derivative_RHS autograd_grad bs q p dH s) =
    Some RHS ->
  HNN_structure_pend.time_derivative_LHS s bs q = Some LHS ->
  snd (HNN_structure_pend.time_derivative_lambd autograd_grad bs q p dH s) =
    Some lambd ->
  Torch.is_bmat n k k LHS -> Torch.is_bmat n k 1 RHS ->
  Torch.bmatmul (map (map (map (fun e => e + 0.1))) LHS) lambd = Some RHS.
Proof.
  intros Hk HRHS HLHS Hlambd [HnL HL] [HnR HR].
  rewrite lambd_value, HRHS, HLHS in Hlambd. simpl in Hlambd.
  set (Lreg := map (map (map (fun e => e + 0.1))) LHS) in *.
  destruct (Torch.binverse Lreg) as [Linv|] eqn:Hinv; [|discriminate].
  simpl in Hlambd. unfold Torch.binverse in Hinv.
  assert (HlenL : length Lreg = n) by (subst Lreg; now rewrite length_map).
  assert (HlenI : length Linv = n).
  { rewrite (sequence_length _ _ Hinv), length_map. exact HlenL. }
  unfold Torch.bmatmul, Torch.broadcast in Hlambd.
  rewrite HlenI, HnR, Nat.eqb_refl in Hlambd.
  assert (Hlenx : length lambd = n).
  { rewrite (sequence_length _ _ Hlambd), length_map2. lia. }
  unfold Torch.bmatmul, Torch.broadcast.
  rewrite HlenL, Hlenx, Nat.eqb_refl.
  apply (sequence_inverse_solves k Lreg Linv RHS lambd); try assumption.
  - subst Lreg. apply Forall_forall. intros A HA. apply in_map_iff in HA.
    destruct HA as [A' [<- HA']]. apply is_mat_map.
    rewrite Forall_forall in HL. now apply HL.
  - congruence.
Qed.

End Regularised_system.

(** * Further properties of the code *)

(** ** The counter over a sequence of calls *)

Section Call_sequences.

Variable autograd_grad : (mat -> option R) -> mat -> mat.

Lemma HNN_time_derivative_module (s : HNN.self) (t : R) (x : mat) :
  fst (HNN.time_derivative autograd_grad t x s) =
  HNN.set_nfe s (HNN.nfe s + 1)%Z.
Proof.
  unfold HNN.time_derivative. unfold pbind at 1. unfold get at 1.
  apply fst_put_then. frame; apply HNN_forward_preserves.
Qed.

Lemma HNN_Hamiltonian_vector_preserves (x : mat) :
  preserves (HNN.Hamiltonian_vector autograd_grad x).
Proof. unfold HNN.Hamiltonian_vector. frame; apply HNN_forward_preserves. Qed.

Lemma pend_time_derivative_module
    (s : HNN_structure_pend.self) (t : R) (x : mat) :
  fst (HNN_structure_pend.time_derivative autograd_grad t x s) =
  HNN_structure_pend.set_nfe s (HNN_structure_pend.nfe s + 1)%Z.
Proof.
  unfold HNN_structure_pend.time_derivative.
  unfold pbind at 1. unfold get at 1.
  apply fst_put_then. frame; apply time_derivative_con_force_preserves.
Qed.

Lemma HNN_step_module (s : HNN.self) (c : HNN_call) :
  HNN_step autograd_grad s c =
  HNN.set_nfe s
    (HNN.nfe s + if HNN_is_time_derivative c then 1 else 0)%Z.
Proof.
  destruct c as [t x|x|x|n]; simpl.
  - apply HNN_time_derivative_module.
  - rewrite HNN_forward_preserves. destruct s; simpl. now rewrite Z.add_0_r.
  - rewrite HNN_Hamiltonian_vector_preserves. destruct s; simpl.
    now rewrite Z.add_0_r.
  - destruct s; simpl. now rewrite Z.add_0_r.
Qed.

Lemma pend_step_module (s : HNN_structure_pend.self) (c : pend_call) :
  pend_step autograd_grad s c =
  HNN_structure_pend.set_nfe s
    (HNN_structure_pend.nfe s + if pend_is_time_derivative c then 1 else 0)%Z.
Proof.
  destruct c as [t x|x|n]; simpl.
  - apply pend_time_derivative_module.
  - rewrite HNN_structure_pend_forward_preserves. destruct s; simpl.
    now rewrite Z.add_0_r.
  - destruct s; simpl. now rewrite Z.add_0_r.
Qed.

Lemma HNN_fold_calls (calls : list HNN_call) (s : HNN.self) :
  fold_left (HNN_step autograd_grad) calls s =
  HNN.set_nfe s
    (HNN.nfe s +
     Z.of_nat (length (filter HNN_is_time_derivative calls)))%Z.
Proof.
  revert s. induction calls as [|c calls IH]; intros s.
  - destruct s; simpl. now rewrite Z.add_0_r.
  - simpl fold_left. rewrite IH, HNN_step_module.
    destruct s as [b f acc dev M k d net].
    unfold HNN.set_nfe. simpl. f_equal.
    destruct (HNN_is_time_derivative c); simpl length; lia.
Qed.

Lemma pend_fold_calls (calls : list pend_call) (s : HNN_structure_pend.self) :
  fold_left (pend_step autograd_grad) calls s =
  HNN_structure_pend.set_nfe s
    (HNN_structure_pend.nfe s +
     Z.of_nat (length (filter pend_is_time_derivative calls)))%Z.
Proof.
  revert s. induction calls as [|c calls IH]; intros s.
  - destruct s; simpl. now rewrite Z.add_0_r.
  - simpl fold_left. rewrite IH, pend_step_module.
    destruct s as [mn vn an dev acc M k].
    unfold HNN_structure_pend.set_nfe. simpl. f_equal.
    destruct (pend_is_time_derivative c); simpl length; lia.
Qed.

(** X1: after any sequence of method calls on a freshly built [HNN], whether
    they return or raise, the module is the one [__init__] built with [nfe]
    set to the number of [time_derivative] calls: the matrix [M], the flags
    and the networks are never touched. *)
Theorem HNN_nfe_counts_calls
    (input_dim : nat) (differentiale_model : mat -> mat) (device : nat)
    (baseline assume_canonical_coords damp : bool)
    (dampNet : option (mat -> bmat)) (calls : list HNN_call) :
  let s0 := HNN.init input_dim differentiale_model device baseline
              assume_canonical_coords damp dampNet in
  fold_left (HNN_step autograd_grad) calls s0 =
  HNN.set_nfe s0
    (Z.of_nat (length (filter HNN_is_time_derivative calls))).
Proof. cbv zeta. now rewrite HNN_fold_calls. Qed.

(** X2: the same for [HNN_structure_pend]: after any sequence of calls of
    [time_derivative], [forward] and [permutation_tensor] on a freshly built
    module, [nfe] is the number of [time_derivative] calls, the failed ones
    included, and nothing else has changed. *)
Theorem pend_nfe_counts_calls
    (input_dim : nat) (M_net : mat -> bmat) (V_net : mat -> mat)
    (A_net : mat -> bmat) (device : nat) (assume_canonical_coords : bool)
    (calls : list pend_call) :
  let s0 := HNN_structure_pend.init input_dim M_net V_net A_net device
              assume_canonical_coords in
  fold_left (pend_step autograd_grad) calls s0 =
  HNN_structure_pend.set_nfe s0
    (Z.of_nat (length (filter pend_is_time_derivative calls))).
Proof. cbv zeta. now rewrite pend_fold_calls. Qed.

End Call_sequences.

(** ** Hamilton's equations and the conservation of energy *)

Lemma dot_comm (u v : vec) : Torch.dot u v = Torch.dot v u.
Proof.
  revert v. induction u as [|a u IH]; intros [|b v]; simpl; try reflexivity.
  rewrite IH. ring.
Qed.

Lemma dot_app (u u' v v' : vec) :
  length u = length v ->
  Torch.dot (u ++ u') (v ++ v') = Torch.dot u v + Torch.dot u' v'.
Proof.
  revert v. induction u as [|a u IH]; intros [|b v] H; try discriminate.
  - simpl. ring.
  - simpl. rewrite IH by (simpl in H; lia). ring.
Qed.

(** a row of the gradient is orthogonal to its row of the field *)
Lemma dot_hamiltonian_field_row (d : nat) (r : vec) :
  length r = (d + d)%nat ->
  Torch.dot r (skipn d r ++ Torch.vneg (firstn d r)) = 0.
Proof.
  intros Hr. rewrite <- (firstn_skipn d r) at 1.
  rewrite dot_app by (rewrite length_firstn, length_skipn; lia).
  rewrite dot_vneg_r, (dot_comm (skipn d r)). ring.
Qed.

Lemma hamiltonian_field_orthogonal (d : nat) (dH : mat) :
  Forall (fun r => length r = (d + d)%nat) dH ->
  Forall2 (fun g f => Torch.dot g f = 0) dH (hamiltonian_field d dH).
Proof.
  intros H. unfold hamiltonian_field.
  induction H as [|r dH Hr _ IH]; simpl; constructor; [|exact IH].
  now apply dot_hamiltonian_field_row.
Qed.

Section Conservation.

Variable autograd_grad : (mat -> option R) -> mat -> mat.

(** X3: an [HNN] in canonical coordinates, without [baseline] and [damp],
    returns the field of Hamilton's equations, [(dH/dp, -dH/dq)] in every
    row, and this field is orthogonal to the gradient row by row: along it
    the predicted energy does not change. *)
Theorem HNN_field_conserves_energy
    (d : nat) (differentiale_model : mat -> mat) (device : nat)
    (dampNet : option (mat -> bmat)) (k : Z) (t : R) (x : mat) :
  let s := HNN.set_nfe
             (HNN.init (d + d) differentiale_model device false true false
                       dampNet) k in
  let dH := HNN_dH autograd_grad s x in
  Forall (fun r => length r = (d + d)%nat) dH ->
  snd (HNN.time_derivative autograd_grad t x s) =
    Some (Torch.T2 (hamiltonian_field d dH)) /\
  Forall2 (fun g f => Torch.dot g f = 0) dH (hamiltonian_field d dH).
Proof.
  cbv zeta. intros Hrows. split.
  - rewrite HNN_time_derivative_plain by reflexivity.
    change (HNN.M _) with (permutation_tensor true (d + d)).
    now rewrite matmul_permutation_tensor_t.
  - now apply hamiltonian_field_orthogonal.
Qed.

Lemma HNN_structure_forward_set_nfe
    (s : HNN_structure.self) (k : Z) (x : mat) :
  HNN_structure.forward x (HNN_structure.set_nfe s k) =
  (HNN_structure.set_nfe s k, snd (HNN_structure.forward x s)).
Proof.
  pose proof (HNN_structure_forward_preserves x (HNN_structure.set_nfe s k))
    as Hfst.
  assert (Hsnd : snd (HNN_structure.forward x (HNN_structure.set_nfe s k)) =
                 snd (HNN_structure.forward x s))
    by (rewrite !HNN_structure_forward_value; reflexivity).
  destruct (HNN_structure.forward x (HNN_structure.set_nfe s k)) as [s' o].
  simpl in *. now subst.
Qed.

Lemma HNN_structure_time_derivative_value
    (s : HNN_structure.self) (t : R) (x : mat) :
  snd (HNN_structure.time_derivative autograd_grad t x s) =
  (H <-? snd (HNN_structure.forward x s) ;;
   Torch.matmul (HNN_structure_dH autograd_grad s x)
     (Torch.t (HNN_structure.M s))).
Proof.
  unfold HNN_structure.time_derivative. cbv [pbind get put lift ret].
  rewrite HNN_structure_forward_set_nfe.
  destruct (snd (HNN_structure.forward x s)) as [H|]; [|reflexivity].
  simpl. unfold HNN_structure_dH.
  replace (fun x' =>
             option_map Torch.msum
               (snd (HNN_structure.forward x'
                       (HNN_structure.set_nfe s (HNN_structure.nfe s + 1)%Z))))
    with (fun x' => option_map Torch.msum (snd (HNN_structure.forward x' s))).
  2:{ apply functional_extensionality. intros x'.
      now rewrite HNN_structure_forward_set_nfe. }
  change (HNN_structure.M (HNN_structure.set_nfe s _))
    with (HNN_structure.M s).
  destruct (Torch.matmul _ _); reflexivity.
Qed.

(** X4: an [HNN_structure] in canonical coordinates returns, wherever
    [forward] returns, the field of Hamilton's equations of the gradient of
    its Hamiltonian, orthogonal to that gradient row by row; where [forward]
    raises, so does [time_derivative]. *)
Theorem HNN_structure_field_conserves_energy
    (d : nat) (L_net V_net : mat -> mat) (device : nat)
    (k : Z) (t : R) (x : mat) :
  let s := HNN_structure.set_nfe
             (HNN_structure.init (d + d) L_net V_net device true) k in
  let dH := HNN_structure_dH autograd_grad s x in
  Forall (fun r => length r = (d + d)%nat) dH ->
  (snd (HNN_structure.forward x s) = None ->
   snd (HNN_structure.time_derivative autograd_grad t x s) = None) /\
  (snd (HNN_structure.forward x s) <> None ->
   snd (HNN_structure.time_derivative autograd_grad t x s) =
     Some (hamiltonian_field d dH)) /\
  Forall2 (fun g f => Torch.dot g f = 0) dH (hamiltonian_field d dH).
Proof.
  cbv zeta. intros Hrows.
  rewrite HNN_structure_time_derivative_value.
  change (HNN_structure.M _) with (permutation_tensor true (d + d)).
  rewrite matmul_permutation_tensor_t by exact Hrows.
  split; [|split].
  - now intros ->.
  - intros Hfw.
    now destruct (snd (HNN_structure.forward x _)) as [H|]; [|contradiction].
  - now apply hamiltonian_field_orthogonal.
Qed.

End Conservation.

(** the statement above for the energy [q^2 + p^2] on two states *)
Lemma HNN_field_conserves_energy_witness :
  let s := HNN.set_nfe
             (HNN.init (1 + 1) quadratic_energy 0 false true false None) 0 in
  let dH := HNN_dH central_difference s [[1; 2]; [3; 4]] in
  snd (HNN.time_derivative central_difference 0 [[1; 2]; [3; 4]] s) =
    Some (Torch.T2 (hamiltonian_field 1 dH)) /\
  Forall2 (fun g f => Torch.dot g f = 0) dH (hamiltonian_field 1 dH).
Proof.
  cbv zeta.
  apply (HNN_field_conserves_energy central_difference 1 quadratic_energy 0
           None 0 0 [[1; 2]; [3; 4]]).
  run_tensor. repeat constructor.
Defined.

(** the statement above for [L_net = 1] and [V_net = 1] on two states *)
Lemma HNN_structure_field_conserves_energy_witness :
  let s := HNN_structure.set_nfe
             (HNN_structure.init (1 + 1) constant_one constant_one 0 true) 0 in
  let dH := HNN_structure_dH central_difference s [[1; 2]; [3; 4]] in
  (snd (HNN_structure.forward [[1; 2]; [3; 4]] s) = None ->
   snd (HNN_structure.time_derivative central_difference 0 [[1; 2]; [3; 4]] s)
     = None) /\
  (snd (HNN_structure.forward [[1; 2]; [3; 4]] s) <> None ->
   snd (HNN_structure.time_derivative central_difference 0 [[1; 2]; [3; 4]] s)
     = Some (hamiltonian_field 1 dH)) /\
  Forall2 (fun g f => Torch.dot g f = 0) dH (hamiltonian_field 1 dH).
Proof.
  cbv zeta.
  apply (HNN_structure_field_conserves_energy central_difference 1
           constant_one constant_one 0 0 0 [[1; 2]; [3; 4]]).
  run_tensor. repeat constructor.
Defined.

(** ** [HNN.Hamiltonian_vector] and the damping of [HNN] *)

Section HNN_further.

Variable autograd_grad : (mat -> option R) -> mat -> mat.

Lemma HNN_forward_value (s : HNN.self) (x : mat) :
  HNN.forward x s = (s, Some (HNN.differentiale_model s x)).
Proof.
  unfold HNN.forward, pbind, get, ret. now destruct (HNN.baseline s).
Qed.

Lemma HNN_Hamiltonian_vector_value (s : HNN.self) (x : mat) :
  HNN.Hamiltonian_vector autograd_grad x s =
  (s, Torch.matmul (HNN_dH autograd_grad s x) (Torch.t (HNN.M s))).
Proof.
  unfold HNN.Hamiltonian_vector. cbv [pbind get lift ret].
  rewrite HNN_forward_value. unfold HNN_dH.
  destruct (Torch.matmul _ _); reflexivity.
Qed.

(** the gradient reads the module through [differentiale_model] only *)
Lemma HNN_dH_value (s : HNN.self) (x : mat) :
  HNN_dH autograd_grad s x =
  autograd_grad
    (fun x' => Some (Torch.msum (HNN.differentiale_model s x'))) x.
Proof.
  unfold HNN_dH. f_equal. apply functional_extensionality. intros x'.
  now rewrite HNN_forward_value.
Qed.

(** X5: [Hamiltonian_vector] reads neither [baseline] nor [damp]: on a
    module built with any flags it returns what [time_derivative] returns on
    the module built with both flags off, and unlike [time_derivative] it
    leaves [nfe] as it was. *)
Theorem Hamiltonian_vector_is_undamped_time_derivative
    (input_dim : nat) (differentiale_model : mat -> mat) (device : nat)
    (baseline assume_canonical_coords damp : bool)
    (dampNet : option (mat -> bmat)) (k : Z) (t : R) (x : mat) :
  let s := HNN.set_nfe
             (HNN.init input_dim differentiale_model device baseline
                       assume_canonical_coords damp dampNet) k in
  let s0 := HNN.set_nfe
              (HNN.init input_dim differentiale_model device false
                        assume_canonical_coords false dampNet) k in
  option_map Torch.T2 (snd (HNN.Hamiltonian_vector autograd_grad x s)) =
    snd (HNN.time_derivative autograd_grad t x s0) /\
  fst (HNN.Hamiltonian_vector autograd_grad x s) = s /\
  HNN.nfe (fst (HNN.time_derivative autograd_grad t x s0)) = (k + 1)%Z.
Proof.
  cbv zeta. split; [|split].
  - rewrite HNN_Hamiltonian_vector_value.
    rewrite HNN_time_derivative_plain by reflexivity.
    now rewrite !HNN_dH_value.
  - now rewrite HNN_Hamiltonian_vector_value.
  - now rewrite HNN_time_derivative_module.
Qed.

(** X6: an [HNN] built with [damp=True] and no [dampNet] (the default) and
    without [baseline] cannot be evaluated: every call of [time_derivative]
    raises, after the counter has been incremented. *)
Theorem HNN_damp_without_dampNet_raises
    (input_dim : nat) (differentiale_model : mat -> mat) (device : nat)
    (assume_canonical_coords : bool) (k : Z) (t : R) (x : mat) :
  let s := HNN.set_nfe
             (HNN.init input_dim differentiale_model device false
                       assume_canonical_coords true None) k in
  HNN.time_derivative autograd_grad t x s = (HNN.set_nfe s (k + 1), None).
Proof.
  cbv zeta. unfold HNN.time_derivative. cbv [pbind get put lift ret].
  simpl. destruct (Torch.matmul _ _); reflexivity.
Qed.

End HNN_further.

(** ** The shapes [HNN_structure_pend] accepts *)

Lemma sequence_cons_None {A : Type} (l : list (option A)) :
  sequence (None :: l) = None.
Proof. reflexivity. Qed.

(** the product with a matrix of another height raises *)
Lemma matmul_height_mismatch (r : vec) (A B : mat) :
  length r <> length B -> Torch.matmul (r :: A) B = None.
Proof.
  intros H. unfold Torch.matmul. simpl.
  destruct (Nat.eqb_spec (length r) (length B)); [contradiction|reflexivity].
Qed.

(** the constant mass matrix times momenta that are not three raises *)
Lemma bmatmul_mass_mismatch (r : vec) (p : mat) :
  length r <> 3%nat ->
  Torch.bmatmul (HNN_structure_pend.M_q_inv_const (length (r :: p)))
                (Torch.unsqueeze2 (r :: p)) = None.
Proof.
  intros Hr. unfold Torch.bmatmul, Torch.broadcast.
  unfold HNN_structure_pend.M_q_inv_const, Torch.unsqueeze2.
  rewrite repeat_length, length_map, Nat.eqb_refl.
  change (Torch.diag_embed [1; 1; 3])
    with ([1; 0; 0] :: [[0; 1; 0]; [0; 0; 3]]).
  cbn [length repeat map Torch.map2 combine fst snd sequence].
  rewrite matmul_height_mismatch; [reflexivity|].
  rewrite length_map. simpl. congruence.
Qed.

Lemma time_derivative_H_needs_three_momenta
    (s : HNN_structure_pend.self) (n c : nat) (x : mat) :
  Torch.is_mat (S n) c x -> c <> 6%nat -> c <> 7%nat ->
  HNN_structure_pend.time_derivative_H s x = None.
Proof.
  intros Hx H6 H7. pose proof (ncols_is_mat n c x Hx) as Hc.
  destruct Hx as [Hlen Hrows].
  unfold HNN_structure_pend.time_derivative_H.
  unfold Torch.chunk2. rewrite Hc.
  destruct (Nat.eqb c 1); [reflexivity|]. cbn [obind].
  destruct x as [|r x]; [discriminate|].
  inversion Hrows as [|? ? Hr Hrows']. clear Hrows.
  cbn [map].
  replace (length (r :: x))
    with (length (skipn ((c + 1) / 2) r :: map (skipn ((c + 1) / 2)) x))
    by (cbn [length]; now rewrite length_map).
  rewrite bmatmul_mass_mismatch; [reflexivity|].
  rewrite length_skipn, Hr.
  pose proof (Nat.div_mod_eq (c + 1) 2) as Hd.
  pose proof (Nat.mod_upper_bound (c + 1) 2 ltac:(lia)). lia.
Qed.

Section Pend_shapes.

Variable autograd_grad : (mat -> option R) -> mat -> mat.

(** X7: [HNN_structure_pend.time_derivative] multiplies with a hard-coded
    3-by-3 mass matrix: on a non-empty batch of states with [c] columns it
    raises unless [c] is 6 or 7, that is unless the momentum half has three
    columns. *)
Theorem pend_time_derivative_needs_three_momenta
    (s : HNN_structure_pend.self) (t : R) (n c : nat) (x : mat) :
  Torch.is_mat (S n) c x -> c <> 6%nat -> c <> 7%nat ->
  snd (HNN_structure_pend.time_derivative autograd_grad t x s) = None.
Proof.
  intros Hx H6 H7.
  unfold HNN_structure_pend.time_derivative. cbv [pbind get put lift ret].
  destruct (Torch.chunk2 x) as [[q p]|]; [|reflexivity].
  now rewrite (time_derivative_H_needs_three_momenta _ n c x Hx H6 H7).
Qed.

(** X8: [HNN_structure_pend.forward] multiplies the batched mass matrices
    with the unbatched momenta: when [M_net] returns 3-by-3 matrices, it
    raises on every batch whose size is not 3. *)
Theorem pend_forward_needs_batch_of_three
    (s : HNN_structure_pend.self) (B : nat) (x : mat) :
  Torch.is_bmat (S B) 3 3
    (HNN_structure_pend.M_net s
       (map (firstn ((Torch.ncols x + 1) / 2)) x)) ->
  length x <> 3%nat ->
  snd (HNN_structure_pend.forward x s) = None.
Proof.
  intros [HB HM] Hx.
  unfold HNN_structure_pend.forward. cbv [pbind get lift ret].
  unfold Torch.chunk2.
  destruct (Nat.eqb (Torch.ncols x) 1); [reflexivity|].
  destruct (HNN_structure_pend.M_net s _) as [|Mb Ms]; [discriminate|].
  inversion HM as [|? ? [HMb HMrows] _]; subst.
  destruct Mb as [|r Mb]; [discriminate|].
  inversion HMrows as [|? ? Hr _]; subst.
  unfold Torch.matmul32. simpl map.
  rewrite matmul_height_mismatch; [reflexivity|].
  rewrite length_map. congruence.
Qed.

End Pend_shapes.

(** the statement above on one state of dimension 4 *)
Lemma pend_time_derivative_needs_three_momenta_witness :
  snd (HNN_structure_pend.time_derivative central_difference 0
         [[1; 2; 3; 4]] pend_example) = None.
Proof.
  apply (pend_time_derivative_needs_three_momenta central_difference
           pend_example 0 0 4 [[1; 2; 3; 4]]).
  - split; [reflexivity|repeat constructor].
  - discriminate.
  - discriminate.
Defined.

(** the statement above on the batch of two states [pend_example_x] *)
Lemma pend_forward_needs_batch_of_three_witness :
  snd (HNN_structure_pend.forward pend_example_x pend_example) = None.
Proof.
  apply (pend_forward_needs_batch_of_three pend_example 1 pend_example_x).
  - split; [reflexivity|].
    repeat constructor.
  - discriminate.
Defined.

(** ** [HNN_structure_pend.get_jacobian] *)

Lemma sequence_map_total {A B : Type} (f : A -> option B) (g : A -> B)
    (l : list A) :
  (forall a, In a l -> f a = Some (g a)) ->
  sequence (map f l) = Some (map g l).
Proof.
  induction l as [|a l IH]; intros H; [reflexivity|].
  simpl. rewrite (H a (or_introl eq_refl)). simpl.
  rewrite IH by (intros b Hb; apply H; now right). reflexivity.
Qed.

Section Jacobian.

Variable autograd_grad : (mat -> option R) -> mat -> mat.

Lemma get_jacobian_2d (input : mat) (output : mat -> option bmat)
    (s : HNN_structure_pend.self) (out : bmat) (A : mat) :
  output input = Some out -> Torch.squeeze out = Torch.T2 A ->
  snd (HNN_structure_pend.get_jacobian autograd_grad input output s) =
  HNN_structure_pend.stack1
    (jacobian_rows autograd_grad input output (Torch.ncols A)).
Proof.
  intros Hout Hsq. unfold HNN_structure_pend.get_jacobian.
  cbv [pbind get lift ret]. rewrite Hout, Hsq.
  cbn [HNN_structure_pend.sum0 HNN_structure_pend.len]. rewrite length_map, length_seq.
  rewrite (sequence_map_total _
             (fun i => autograd_grad
                (fun q' => o <-? output q' ;;
                   HNN_structure_pend.scalar_item
                     (HNN_structure_pend.sum0 (Torch.squeeze o)) i)
                input)).
  - fold (jacobian_rows autograd_grad input output (Torch.ncols A)).
    now destruct (HNN_structure_pend.stack1 _).
  - intros i Hi. apply in_seq in Hi.
    cbn [HNN_structure_pend.scalar_item].
    destruct (nth_error _ i) eqn:Hnth; [reflexivity|].
    apply nth_error_None in Hnth. rewrite length_map, length_seq in Hnth. lia.
Qed.

Lemma get_jacobian_not_2d (input : mat) (output : mat -> option bmat)
    (s : HNN_structure_pend.self) (out : bmat) :
  output input = Some out ->
  (forall A, Torch.squeeze out = Torch.T2 A -> Torch.ncols A = O) ->
  snd (HNN_structure_pend.get_jacobian autograd_grad input output s) = None.
Proof.
  intros Hout Hsq.
  destruct (Torch.squeeze out) as [r|v|A|B] eqn:Hs.
  - unfold HNN_structure_pend.get_jacobian. cbv [pbind get lift ret].
    now rewrite Hout, Hs.
  - unfold HNN_structure_pend.get_jacobian. cbv [pbind get lift ret].
    now rewrite Hout, Hs.
  - rewrite (get_jacobian_2d input output s out A Hout Hs).
    now rewrite (Hsq A eq_refl).
  - unfold HNN_structure_pend.get_jacobian. cbv [pbind get lift ret].
    rewrite Hout, Hs.
    cbn [HNN_structure_pend.sum0 HNN_structure_pend.len].
    rewrite length_map, length_seq.
    destruct (length (hd [] B)) as [|n]; reflexivity.
Qed.


End Jacobian.

(** ** [HNN_structure_pend.time_derivative] on a single state *)

Lemma ncols_matmul_le (X B C : mat) :
  Torch.matmul X B = Some C -> (Torch.ncols C <= Torch.ncols B)%nat.
Proof.
  unfold Torch.matmul. destruct (forallb _ X); [|discriminate].
  intros [= <-]. destruct X as [|r X]; simpl; [lia|].
  rewrite length_map, length_t. lia.
Qed.

Lemma ncols_unsqueeze_row (v : vec) :
  (Torch.ncols (map (fun e => [e]) v) <= 1)%nat.
Proof. destruct v; simpl; lia. Qed.

Lemma bmatmul_singletons (X Y : mat) :
  Torch.bmatmul [X] [Y] = option_map (fun C => [C]) (Torch.matmul X Y).
Proof.
  unfold Torch.bmatmul, Torch.broadcast, Torch.map2.
  cbn [length Nat.eqb combine map fst snd sequence].
  destruct (Torch.matmul X Y); reflexivity.
Qed.

(** squeezing one matrix with at most one column leaves no 2-D tensor with
    a column *)
Lemma squeeze_single_narrow (C A : mat) :
  (Torch.ncols C <= 1)%nat -> Torch.squeeze [C] = Torch.T2 A ->
  Torch.ncols A = O.
Proof.
  intros HC. unfold Torch.squeeze, Torch.shape. cbn [length hd Nat.eqb].
  destruct (Nat.eqb_spec (length C) 1), (Nat.eqb_spec (Torch.ncols C) 1);
    intros Hsq; try discriminate.
  injection Hsq as <-. lia.
Qed.

Lemma A_T_M_inv_p_single (s : HNN_structure_pend.self) (p0 : vec) (q : mat)
    (out : bmat) :
  length (HNN_structure_pend.A_net s q) = 1%nat ->
  HNN_structure_pend.time_derivative_A_T_M_inv_p s 1 [p0] q = Some out ->
  exists C, out = [C] /\ (Torch.ncols C <= 1)%nat.
Proof.
  intros HA. unfold HNN_structure_pend.time_derivative_A_T_M_inv_p.
  unfold HNN_structure_pend.M_q_inv_const, Torch.unsqueeze2, Torch.transpose12.
  cbn [repeat map]. rewrite bmatmul_singletons.
  destruct (Torch.matmul _ (map (fun e => [e]) p0)) as [Mp|] eqn:HMp;
    [|discriminate].
  cbn [option_map obind].
  destruct (HNN_structure_pend.A_net s q) as [|A0 [|A1 As]];
    try discriminate.
  cbn [map]. rewrite bmatmul_singletons.
  destruct (Torch.matmul (Torch.t A0) Mp) as [C|] eqn:HC; [|discriminate].
  intros [= <-]. exists C. split; [reflexivity|].
  pose proof (ncols_matmul_le _ _ _ HC).
  pose proof (ncols_matmul_le _ _ _ HMp).
  pose proof (ncols_unsqueeze_row p0). lia.
Qed.

Section Pend_single_state.

Variable autograd_grad : (mat -> option R) -> mat -> mat.

(** X10: [HNN_structure_pend.time_derivative] cannot be evaluated on a batch
    of one state: when [A_net] returns one matrix for the one state, the
    squeezed [A_T_M_inv_p] has lost its batch dimension, so that
    [get_jacobian] finds nothing to iterate over and the call raises. *)
Theorem pend_time_derivative_single_state_raises
    (s : HNN_structure_pend.self) (t : R) (r : vec) :
  length (HNN_structure_pend.A_net s [firstn ((length r + 1) / 2) r]) = 1%nat ->
  snd (HNN_structure_pend.time_derivative autograd_grad t [r] s) = None.
Proof.
  intros HA.
  unfold HNN_structure_pend.time_derivative. cbv [pbind get put lift ret].
  unfold Torch.chunk2. cbn [Torch.ncols map length].
  destruct (Nat.eqb (length r) 1); [reflexivity|].
  destruct (HNN_structure_pend.time_derivative_H _ _); [|reflexivity].
  destruct (Torch.matmul _ _); [|reflexivity].
  unfold HNN_structure_pend.time_derivative_con_force,
    HNN_structure_pend.time_derivative_lambd,
    HNN_structure_pend.time_derivative_RHS.
  cbv [pbind get put lift ret].
  destruct (Torch.chunk2 _) as [[dHdq dHdp]|]; [|reflexivity].
  destruct (HNN_structure_pend.time_derivative_A_T_M_inv_p _ _ _ _)
    as [out|] eqn:Hout; [|reflexivity].
  match goal with
  | |- context [HNN_structure_pend.get_jacobian ?ag ?i ?o ?s'] =>
      assert (HJ : snd (HNN_structure_pend.get_jacobian ag i o s') = None)
  end.
  { apply (get_jacobian_not_2d _ _ _ _ out Hout).
    destruct (A_T_M_inv_p_single _ _ _ _ HA Hout) as [C [-> HC]].
    intros A. now apply squeeze_single_narrow. }
  destruct (HNN_structure_pend.get_jacobian _ _ _ _) as [s2 [J|]];
    [discriminate|reflexivity].
Qed.

End Pend_single_state.

(** a single state of the example module *)
Lemma pend_time_derivative_single_state_raises_witness :
  length (HNN_structure_pend.A_net pend_example
            [firstn ((length [0; 0; 0; 1; 0; 0] + 1) / 2) [0; 0; 0; 1; 0; 0]])
    = 1%nat /\
  snd (HNN_structure_pend.time_derivative central_difference 0
         [[0; 0; 0; 1; 0; 0]] pend_example) = None.
Proof.
  split; [reflexivity|].
  apply (pend_time_derivative_single_state_raises central_difference
           pend_example 0 [0; 0; 0; 1; 0; 0]).
  reflexivity.
Defined.

(** ** The damped field of [HNN] *)

Lemma nth_map2 {A B C : Type} (f : A -> B -> C) (l : list A) (l' : list B)
    (b : nat) (da : A) (db : B) (dc : C) :
  (b < length l)%nat -> (b < length l')%nat ->
  nth b (Torch.map2 f l l') dc = f (nth b l da) (nth b l' db).
Proof.
  unfold Torch.map2. revert l' b.
  induction l as [|a l IH]; intros [|a' l'] [|b] Hl Hl'; simpl in *;
    try lia; [reflexivity|].
  apply IH; lia.
Qed.

Lemma dot_map2_minus (g f v : vec) :
  length f = length v ->
  Torch.dot g (Torch.map2 Rminus f v) = Torch.dot g f - Torch.dot g v.
Proof.
  unfold Torch.map2. revert f v.
  induction g as [|a g IH]; intros [|b f] [|c v] H; simpl in *;
    try discriminate; try ring.
  rewrite IH by lia. ring.
Qed.

(** the rows of the gradient, each times the matrix of its state *)
Lemma bmatmul_unsqueeze1 (n : nat) (dH : mat) (D : bmat) :
  length dH = length D ->
  Forall (fun g => length g = n) dH -> Forall (fun Dm => length Dm = n) D ->
  Torch.bmatmul (Torch.unsqueeze1 dH) D =
  Some (Torch.map2 (fun g Dm => [map (Torch.dot g) (Torch.t Dm)]) dH D).
Proof.
  intros Hlen HdH HD. unfold Torch.bmatmul, Torch.broadcast, Torch.unsqueeze1.
  rewrite length_map, Hlen, Nat.eqb_refl. clear Hlen.
  unfold Torch.map2. revert D HD.
  induction HdH as [|g dH Hg _ IH]; intros D HD; [reflexivity|].
  destruct HD as [|Dm D HDm HD]; [reflexivity|].
  cbn [map combine fst snd sequence].
  rewrite (IH D HD). unfold Torch.matmul.
  cbn [forallb length]. rewrite Hg, HDm, Nat.eqb_refl. reflexivity.
Qed.

Lemma tbop_T2_same_shape (f : R -> R -> R) (n m : nat) (A B : mat) :
  Torch.is_mat n m A -> Torch.is_mat n m B ->
  Torch.tbop f (Torch.T2 A) (Torch.T2 B) =
  Some (Torch.T2 (Torch.map2 (Torch.map2 f) A B)).
Proof.
  intros HA HB. unfold Torch.tbop, Torch.bop3, Torch.broadcast, Torch.map2.
  cbn [Torch.lift3 length Nat.eqb combine map fst snd sequence].
  fold (Torch.map2 (Torch.bop2 f)).
  rewrite (bop2_same_shape f n m A B HA HB). reflexivity.
Qed.

(** a one-row matrix minus a vector of the same length *)
Lemma tbop_T2_T1_row (f : R -> R -> R) (u v : vec) :
  length u = length v ->
  Torch.tbop f (Torch.T2 [u]) (Torch.T1 v) =
  Some (Torch.T2 [Torch.map2 f u v]).
Proof.
  intros H. unfold Torch.tbop, Torch.bop3, Torch.bop2, Torch.broadcast.
  unfold Torch.map2 at 1 2.
  cbn [Torch.lift3 length Nat.eqb combine map fst snd sequence].
  rewrite (bop1_same_length f u v H). reflexivity.
Qed.

Lemma hamiltonian_field_is_mat (n d : nat) (dH : mat) :
  Torch.is_mat n (d + d) dH -> Torch.is_mat n (d + d) (hamiltonian_field d dH).
Proof.
  intros [Hn Hrows]. unfold hamiltonian_field. split; [now rewrite length_map|].
  apply Forall_forall. intros r Hr. apply in_map_iff in Hr.
  destruct Hr as [g [<- Hg]]. rewrite Forall_forall in Hrows.
  specialize (Hrows g Hg).
  rewrite length_app, length_skipn. unfold Torch.vneg.
  rewrite length_map, length_firstn. lia.
Qed.

Lemma damping_field_is_mat (n m : nat) (dH : mat) (D : bmat) :
  length dH = n -> Torch.is_bmat n (S m) (S m) D ->
  Torch.is_mat n (S m) (damping_field dH D).
Proof.
  intros Hn [HDn HD]. unfold damping_field. split.
  - rewrite length_map2. lia.
  - apply Forall_forall. intros r Hr. unfold Torch.map2 in Hr.
    apply in_map_iff in Hr. destruct Hr as [[g Dm] [<- Hin]].
    apply in_combine_r in Hin. rewrite Forall_forall in HD.
    cbn [fst snd]. rewrite length_map, length_t.
    exact (ncols_is_mat m (S m) Dm (HD Dm Hin)).
Qed.

(** squeezing a batch of at least two one-row matrices with at least two
    columns removes the middle dimension *)
Lemma squeeze_rows (B : bmat) (r0 : vec) :
  (2 <= length B)%nat -> hd [] B = [r0] -> (2 <= length r0)%nat ->
  Torch.squeeze B = Torch.T2 (map (hd []) B).
Proof.
  intros HB Hhd Hr. unfold Torch.squeeze, Torch.shape, Torch.ncols.
  rewrite Hhd. cbn [length Nat.eqb].
  destruct (Nat.eqb_spec (length B) 1); [lia|].
  destruct (Nat.eqb_spec (length r0) 1); [lia|reflexivity].
Qed.

(** the field minus the squeezed damping term, for any gradient *)
Lemma damped_field_value (d bs : nat) (dH : mat) (D : bmat) :
  Torch.is_mat (S bs) (S d + S d) dH ->
  Torch.is_bmat (S bs) (S d + S d) (S d + S d) D ->
  (D_vector_field <-?
     option_map Torch.squeeze (Torch.bmatmul (Torch.unsqueeze1 dH) D) ;;
   Torch.tbop Rminus (Torch.T2 (hamiltonian_field (S d) dH)) D_vector_field) =
  Some (Torch.T2 (Torch.map2 (Torch.map2 Rminus)
                    (hamiltonian_field (S d) dH) (damping_field dH D))).
Proof.
  intros HdH HD.
  pose proof (hamiltonian_field_is_mat _ _ _ HdH) as Hhf.
  pose proof (damping_field_is_mat (S bs) (d + S d) dH D (proj1 HdH) HD) as Hdf.
  destruct HdH as [HdHn HdHr]. destruct HD as [HDn HDm].
  rewrite (bmatmul_unsqueeze1 (S d + S d) dH D); [|congruence|exact HdHr|].
  2:{ eapply Forall_impl; [|exact HDm]. intros Dm HDm'. exact (proj1 HDm'). }
  cbn [option_map obind].
  destruct dH as [|g dH']; [discriminate|].
  destruct D as [|Dm D']; [discriminate|].
  assert (Hcols : length (map (Torch.dot g) (Torch.t Dm)) = S (d + S d)).
  { rewrite length_map, length_t.
    inversion HDm as [|? ? HDm0 _]; subst.
    exact (ncols_is_mat _ _ _ HDm0). }
  destruct bs as [|bs].
  - destruct dH'; [|discriminate]. destruct D'; [|discriminate].
    unfold Torch.squeeze, Torch.shape, Torch.ncols, Torch.map2.
    cbn [combine map fst snd hd length Nat.eqb]. rewrite Hcols.
    cbn [Nat.eqb]. destruct (Nat.eqb_spec (d + S d) 0); [lia|].
    unfold hamiltonian_field, damping_field, Torch.map2.
    cbn [combine map fst snd].
    rewrite tbop_T2_T1_row; [reflexivity|].
    inversion HdHr as [|? ? Hg _]; subst.
    rewrite length_app, length_skipn, Hcols. unfold Torch.vneg.
    rewrite length_map, length_firstn. lia.
  - rewrite (squeeze_rows _ (map (Torch.dot g) (Torch.t Dm))).
    + replace (map (hd []) _) with (damping_field (g :: dH') (Dm :: D')).
      2:{ unfold damping_field, Torch.map2. rewrite map_map. reflexivity. }
      apply (tbop_T2_same_shape Rminus (S (S bs)) (S d + S d)); assumption.
    + rewrite length_map2. simpl in HdHn, HDn |- *. lia.
    + reflexivity.
    + lia.
Qed.

(** the rate at which the energy changes along the damped field *)
Lemma damped_field_rate (d bs : nat) (dH : mat) (D : bmat) (b : nat) :
  Torch.is_mat (S bs) (S d + S d) dH ->
  Torch.is_bmat (S bs) (S d + S d) (S d + S d) D ->
  (b < S bs)%nat ->
  Torch.dot (nth b dH [])
    (nth b (Torch.map2 (Torch.map2 Rminus)
              (hamiltonian_field (S d) dH) (damping_field dH D)) []) =
  - quadratic_form (nth b dH []) (nth b D []).
Proof.
  intros HdH HD Hb.
  pose proof (hamiltonian_field_is_mat _ _ _ HdH) as Hhf.
  pose proof (damping_field_is_mat (S bs) (d + S d) dH D (proj1 HdH) HD) as Hdf.
  destruct HdH as [HdHn HdHr]. destruct HD as [HDn HDm].
  destruct Hhf as [Hhfn Hhfr]. destruct Hdf as [Hdfn Hdfr].
  rewrite (nth_map2 _ _ _ b [] [] []) by lia.
  assert (Hl : forall A : mat, length A = S bs ->
            Forall (fun r => length r = (S d + S d)%nat) A ->
            length (nth b A []) = (S d + S d)%nat).
  { intros A HA HAr. rewrite Forall_forall in HAr.
    apply HAr, nth_In. lia. }
  rewrite dot_map2_minus by (rewrite !Hl by assumption; reflexivity).
  replace (nth b (hamiltonian_field (S d) dH) [])
    with (skipn (S d) (nth b dH []) ++ Torch.vneg (firstn (S d) (nth b dH []))).
  2:{ unfold hamiltonian_field.
      exact (eq_sym (map_nth
               (fun r => skipn (S d) r ++ Torch.vneg (firstn (S d) r))
               dH [] b)). }
  rewrite dot_hamiltonian_field_row by (apply Hl; assumption).
  unfold damping_field.
  rewrite (nth_map2 _ _ _ b [] [] []) by lia.
  unfold quadratic_form. ring.
Qed.

Section Damping.

Variable autograd_grad : (mat -> option R) -> mat -> mat.

Lemma HNN_time_derivative_damped
    (s : HNN.self) (dampNet : mat -> bmat) (t : R) (x : mat) :
  HNN.baseline s = false -> HNN.damp s = true ->
  HNN.dampNet s = Some dampNet ->
  snd (HNN.time_derivative autograd_grad t x s) =
  (H_vector_field <-?
     Torch.matmul (HNN_dH autograd_grad s x) (Torch.t (HNN.M s)) ;;
   D_vector_field <-?
     option_map Torch.squeeze
       (Torch.bmatmul (Torch.unsqueeze1 (HNN_dH autograd_grad s x))
                      (dampNet x)) ;;
   Torch.tbop Rminus (Torch.T2 H_vector_field) D_vector_field).
Proof.
  intros Hb Hd Hnet. destruct s as [b f acc dev M k d net].
  cbn [HNN.baseline HNN.damp HNN.dampNet] in Hb, Hd, Hnet. subst b d net.
  unfold HNN.time_derivative, HNN_dH, HNN.forward.
  cbv [pbind get put lift ret HNN.set_nfe HNN.baseline HNN.damp HNN.dampNet
       HNN.differentiale_model HNN.M HNN.nfe HNN.assume_canonical_coords
       HNN.device negb fst snd].
  destruct (Torch.matmul _ _); [|reflexivity].
  cbn [obind].
  destruct (option_map Torch.squeeze _); [|reflexivity].
  cbn [obind].
  destruct (Torch.tbop _ _ _); reflexivity.
Qed.

(** X11: a damped [HNN] in canonical coordinates, on a batch of at least one
    state of dimension [2 d >= 2] with one damping matrix per state, returns
    in every state the field of Hamilton's equations minus the gradient times
    the damping matrix; along it the predicted energy changes at the rate
    [- dH D dH^T], so it cannot grow when [D] is positive semidefinite. *)
Theorem HNN_damped_field_dissipates
    (d bs : nat) (differentiale_model : mat -> mat) (device : nat)
    (dampNet : mat -> bmat) (k : Z) (t : R) (x : mat) :
  let s := HNN.set_nfe
             (HNN.init (S d + S d) differentiale_model device false true true
                       (Some dampNet)) k in
  let dH := HNN_dH autograd_grad s x in
  let D := dampNet x in
  let field := Torch.map2 (Torch.map2 Rminus)
                 (hamiltonian_field (S d) dH) (damping_field dH D) in
  Torch.is_mat (S bs) (S d + S d) dH ->
  Torch.is_bmat (S bs) (S d + S d) (S d + S d) D ->
  snd (HNN.time_derivative autograd_grad t x s) = Some (Torch.T2 field) /\
  forall b, (b < S bs)%nat ->
    Torch.dot (nth b dH []) (nth b field []) =
    - quadratic_form (nth b dH []) (nth b D []).
Proof.
  cbv zeta. intros HdH HD. split.
  - rewrite (HNN_time_derivative_damped _ dampNet) by reflexivity.
    change (HNN.M _) with (permutation_tensor true (S d + S d)).
    rewrite matmul_permutation_tensor_t by exact (proj2 HdH).
    cbn [obind]. exact (damped_field_value d bs _ _ HdH HD).
  - intros b Hb. now apply (damped_field_rate d bs).
Qed.

End Damping.

(** the statement above for the energy [q^2 + p^2] and the identity as
    damping matrix, on two states *)
Lemma HNN_damped_field_dissipates_witness :
  let s := HNN.set_nfe
             (HNN.init (1 + 1) quadratic_energy 0 false true true
                       (Some unit_damping)) 0 in
  let x := [[1; 2]; [3; 4]] in
  let dH := HNN_dH central_difference s x in
  let D := unit_damping x in
  let field := Torch.map2 (Torch.map2 Rminus)
                 (hamiltonian_field 1 dH) (damping_field dH D) in
  Torch.is_mat 2 (1 + 1) dH /\
  Torch.is_bmat 2 (1 + 1) (1 + 1) D /\
  snd (HNN.time_derivative central_difference 0 x s) = Some (Torch.T2 field) /\
  forall b, (b < 2)%nat ->
    Torch.dot (nth b dH []) (nth b field []) =
    - quadratic_form (nth b dH []) (nth b D []).
Proof.
  cbv zeta.
  assert (HdH : Torch.is_mat 2 (1 + 1)
                  (HNN_dH central_difference
                     (HNN.set_nfe
                        (HNN.init (1 + 1) quadratic_energy 0 false true true
                                  (Some unit_damping)) 0)
                     [[1; 2]; [3; 4]])).
  { split; [reflexivity|]. repeat constructor. }
  assert (HD : Torch.is_bmat 2 (1 + 1) (1 + 1)
                 (unit_damping [[1; 2]; [3; 4]])).
  { split; [reflexivity|]. repeat constructor. }
  split; [exact HdH|]. split; [exact HD|].
  exact (HNN_damped_field_dissipates central_difference 0 1 quadratic_energy 0
           unit_damping 0 0 [[1; 2]; [3; 4]] HdH HD).
Defined.

(** ** [permutation_tensor] without canonical coordinates *)

Lemma map_even_pair {A : Type} (f : A -> A) (d : A) (l : list A) :
  (length (Torch.map_even f l) = length l /\
   forall i, (i < length l)%nat ->
     nth i (Torch.map_even f l) d =
     if Nat.even i then f (nth i l d) else nth i l d) /\
  (forall a,
     length (Torch.map_even f (a :: l)) = S (length l) /\
     forall i, (i < S (length l))%nat ->
       nth i (Torch.map_even f (a :: l)) d =
       if Nat.even i then f (nth i (a :: l) d) else nth i (a :: l) d).
Proof.
  induction l as [|b l [[IHl IHn] IHc]].
  - split; [split; [reflexivity|intros i Hi; simpl in Hi; lia]|].
    intros a. split; [reflexivity|].
    intros [|i] Hi; [reflexivity|simpl in Hi; lia].
  - split; [apply IHc|]. intros a.
    change (Torch.map_even f (a :: b :: l))
      with (f a :: b :: Torch.map_even f l).
    split; [simpl; now rewrite IHl|].
    intros [|[|i]] Hi; [reflexivity|reflexivity|].
    change (Nat.even (S (S i))) with (Nat.even i). cbn [nth].
    apply IHn. simpl in Hi. lia.
Qed.

Lemma length_map_even {A : Type} (f : A -> A) (l : list A) :
  length (Torch.map_even f l) = length l.
Proof.
  destruct l as [|a l]; [reflexivity|].
  exact (proj1 (proj2 (map_even_pair f a l) a)).
Qed.

Lemma nth_map_even {A : Type} (f : A -> A) (l : list A) (i : nat) (d : A) :
  (i < length l)%nat ->
  nth i (Torch.map_even f l) d =
  if Nat.even i then f (nth i l d) else nth i l d.
Proof. exact (proj2 (proj1 (map_even_pair f d l)) i). Qed.

Lemma length_upd {A : Type} (i : nat) (f : A -> A) (l : list A) :
  length (Torch.upd i f l) = length l.
Proof.
  revert i. induction l as [|a l IH]; intros [|i]; simpl; try reflexivity.
  now rewrite IH.
Qed.

Lemma nth_upd {A : Type} (i : nat) (f : A -> A) (l : list A) (k : nat) (d : A) :
  (k < length l)%nat ->
  nth k (Torch.upd i f l) d = if Nat.eqb k i then f (nth k l d) else nth k l d.
Proof.
  revert i k. induction l as [|a l IH]; intros [|i] [|k] H; simpl in *;
    try lia; try reflexivity.
  apply IH. lia.
Qed.

Lemma is_mat_nth (n m : nat) (A : mat) (i : nat) :
  Torch.is_mat n m A -> (i < n)%nat -> length (nth i A []) = m.
Proof.
  intros [HA Hr] Hi. rewrite Forall_forall in Hr. apply Hr, nth_In. lia.
Qed.

Lemma is_mat_of_nth (n m : nat) (A : mat) :
  length A = n -> (forall i, (i < n)%nat -> length (nth i A []) = m) ->
  Torch.is_mat n m A.
Proof.
  intros HA Hr. split; [exact HA|]. apply Forall_forall. intros r Hin.
  destruct (In_nth A r [] Hin) as [i [Hi <-]]. apply Hr. lia.
Qed.

(** [M[i, j] = f(M[i, j])] *)
Lemma upd_entry (n : nat) (M : mat) (i j : nat) (f : R -> R) :
  Torch.is_mat n n M ->
  Torch.is_mat n n (Torch.upd i (Torch.upd j f) M) /\
  forall a b, (a < n)%nat -> (b < n)%nat ->
    Torch.entry (Torch.upd i (Torch.upd j f) M) a b =
    if Nat.eqb a i && Nat.eqb b j then f (Torch.entry M a b)
    else Torch.entry M a b.
Proof.
  intros HM. pose proof HM as [Hlen _]. split.
  - apply is_mat_of_nth; [now rewrite length_upd|].
    intros a Ha. rewrite nth_upd by lia.
    destruct (Nat.eqb a i); [rewrite length_upd|]; now apply (is_mat_nth n).
  - intros a b Ha Hb. unfold Torch.entry. rewrite nth_upd by lia.
    destruct (Nat.eqb a i); [|reflexivity]. cbn [andb].
    apply nth_upd. now rewrite (is_mat_nth n n M a HM Ha).
Qed.

(** the inner loop: the entries of row [i] at the columns [s, ..., s+len-1] *)
Lemma flip_row (n : nat) (f : R -> R) (i len : nat) :
  forall (s : nat) (M : mat),
  Torch.is_mat n n M ->
  Torch.is_mat n n
    (fold_left (fun M j => Torch.upd i (Torch.upd j f) M) (seq s len) M) /\
  forall a b, (a < n)%nat -> (b < n)%nat ->
    Torch.entry
      (fold_left (fun M j => Torch.upd i (Torch.upd j f) M) (seq s len) M) a b =
    if Nat.eqb a i && Nat.leb s b && Nat.ltb b (s + len)
    then f (Torch.entry M a b) else Torch.entry M a b.
Proof.
  induction len as [|len IH]; intros s M HM; cbn [seq fold_left].
  - split; [exact HM|]. intros a b _ _.
    destruct (Nat.ltb_spec b (s + 0)), (Nat.leb_spec s b);
      try lia; now rewrite ?andb_false_r.
  - destruct (upd_entry n M i s f HM) as [HM1 He1].
    destruct (IH (S s) _ HM1) as [HM2 He2].
    split; [exact HM2|]. intros a b Ha Hb.
    rewrite He2, He1 by assumption.
    destruct (Nat.eqb_spec a i), (Nat.leb_spec (S s) b),
      (Nat.ltb_spec b (S s + len)), (Nat.leb_spec s b),
      (Nat.ltb_spec b (s + S len)), (Nat.eqb_spec b s);
      cbn [andb]; try lia; reflexivity.
Qed.

(** the two loops: the entries above the diagonal in the rows
    [s, ..., s+len-1] *)
Lemma flip_upper (n : nat) (f : R -> R) (len : nat) :
  forall (s : nat) (M : mat),
  Torch.is_mat n n M ->
  Torch.is_mat n n
    (fold_left
       (fun M i =>
          fold_left (fun M j => Torch.upd i (Torch.upd j f) M)
                    (seq (i + 1) (n - (i + 1))) M)
       (seq s len) M) /\
  forall a b, (a < n)%nat -> (b < n)%nat ->
    Torch.entry
      (fold_left
         (fun M i =>
            fold_left (fun M j => Torch.upd i (Torch.upd j f) M)
                      (seq (i + 1) (n - (i + 1))) M)
         (seq s len) M) a b =
    if Nat.leb s a && Nat.ltb a (s + len) && Nat.ltb a b
    then f (Torch.entry M a b) else Torch.entry M a b.
Proof.
  induction len as [|len IH]; intros s M HM; cbn [seq fold_left].
  - split; [exact HM|]. intros a b _ _.
    destruct (Nat.ltb_spec a (s + 0)), (Nat.leb_spec s a);
      try lia; reflexivity.
  - destruct (flip_row n f s (n - (s + 1)) (s + 1) M HM) as [HM1 He1].
    destruct (IH (S s) _ HM1) as [HM2 He2].
    split; [exact HM2|]. intros a b Ha Hb.
    rewrite He2, He1 by assumption.
    destruct (Nat.eqb_spec a s), (Nat.leb_spec (S s) a),
      (Nat.ltb_spec a (S s + len)), (Nat.leb_spec s a),
      (Nat.ltb_spec a (s + S len)), (Nat.ltb_spec a b),
      (Nat.leb_spec (s + 1) b), (Nat.ltb_spec b (s + 1 + (n - (s + 1))));
      cbn [andb]; try lia; reflexivity.
Qed.

Lemma nth_repeat_lt {A : Type} (a d : A) (n i : nat) :
  (i < n)%nat -> nth i (repeat a n) d = a.
Proof.
  revert i. induction n as [|n IH]; intros [|i] H; simpl; try lia;
    [reflexivity|]. apply IH. lia.
Qed.

Lemma entry_map (g : R -> R) (n m : nat) (A : mat) (i j : nat) :
  Torch.is_mat n m A -> (i < n)%nat -> (j < m)%nat ->
  Torch.entry (map (map g) A) i j = g (Torch.entry A i j).
Proof.
  intros HA Hi Hj. pose proof HA as [Hlen _]. unfold Torch.entry.
  change (@nil R) with (map g []) at 1. rewrite map_nth.
  rewrite (nth_indep _ 0 (g 0))
    by (rewrite length_map, (is_mat_nth n m A i HA Hi); exact Hj).
  apply map_nth.
Qed.

(** the matrix before the loops: ones off the diagonal, with the sign of
    the even rows and of the even columns changed *)
Lemma levi_civita_signs (n : nat) :
  let M := map (Torch.map_even (fun e => e * -1))
             (Torch.map_even (map (fun e => e * -1))
                (Torch.emul (Torch.ones n n)
                   (map (map (fun e => 1 - e)) (Torch.eye n)))) in
  Torch.is_mat n n M /\
  forall i j, (i < n)%nat -> (j < n)%nat ->
    Torch.entry M i j =
    let e := 1 * (1 - (if Nat.eqb j i then 1 else 0)) in
    let e := if Nat.even i then e * -1 else e in
    if Nat.even j then e * -1 else e.
Proof.
  cbv zeta.
  set (E := map (map (fun e => 1 - e)) (Torch.eye n)).
  assert (HE : Torch.is_mat n n E) by apply is_mat_map, eye_is_mat.
  set (M1 := Torch.emul (Torch.ones n n) E).
  assert (HM1 : Torch.is_mat n n M1 /\
                forall i j, (i < n)%nat -> (j < n)%nat ->
                  Torch.entry M1 i j =
                  1 * (1 - (if Nat.eqb j i then 1 else 0))).
  { change M1 with (Torch.map2 (Torch.map2 Rmult) (Torch.ones n n) E).
    assert (Hrow : forall i, (i < n)%nat ->
              nth i (Torch.map2 (Torch.map2 Rmult) (Torch.ones n n) E) [] =
              Torch.map2 Rmult (repeat 1 n) (nth i E [])).
    { intros i Hi. rewrite (nth_map2 _ _ _ i [] [] []).
      - unfold Torch.ones, Torch.full. now rewrite nth_repeat_lt.
      - unfold Torch.ones, Torch.full. now rewrite repeat_length.
      - now rewrite (proj1 HE). }
    split.
    - apply is_mat_of_nth.
      + rewrite length_map2. unfold Torch.ones, Torch.full.
        rewrite repeat_length, (proj1 HE). lia.
      + intros i Hi. rewrite Hrow by exact Hi.
        rewrite length_map2, repeat_length, (is_mat_nth n n E i HE Hi). lia.
    - intros i j Hi Hj. unfold Torch.entry at 1. rewrite Hrow by exact Hi.
      rewrite (nth_map2 _ _ _ j 0 0 0).
      + rewrite nth_repeat_lt by exact Hj.
        change (nth j (nth i E []) 0) with (Torch.entry E i j).
        unfold E. rewrite (entry_map _ n n) by (try apply eye_is_mat; lia).
        now rewrite eye_entry.
      + now rewrite repeat_length.
      + now rewrite (is_mat_nth n n E i HE Hi). }
  clearbody M1. clear E HE. destruct HM1 as [HM1 He1].
  set (M2 := Torch.map_even (map (fun e => e * -1)) M1).
  assert (Hrow2 : forall i, (i < n)%nat ->
            nth i M2 [] =
            if Nat.even i then map (fun e => e * -1) (nth i M1 [])
            else nth i M1 []).
  { intros i Hi. apply nth_map_even. now rewrite (proj1 HM1). }
  assert (HM2 : Torch.is_mat n n M2).
  { apply is_mat_of_nth.
    - unfold M2. rewrite length_map_even. exact (proj1 HM1).
    - intros i Hi. rewrite Hrow2 by exact Hi.
      destruct (Nat.even i); [rewrite length_map|];
        exact (is_mat_nth n n M1 i HM1 Hi). }
  assert (He2 : forall i j, (i < n)%nat -> (j < n)%nat ->
            Torch.entry M2 i j =
            if Nat.even i then Torch.entry M1 i j * -1
            else Torch.entry M1 i j).
  { intros i j Hi Hj. unfold Torch.entry. rewrite Hrow2 by exact Hi.
    destruct (Nat.even i); [|reflexivity].
    rewrite (nth_indep _ 0 (0 * -1))
      by (rewrite length_map, (is_mat_nth n n M1 i HM1 Hi); exact Hj).
    apply (map_nth (fun e => e * -1)). }
  clearbody M2. clear Hrow2.
  assert (Hrow3 : forall i, (i < n)%nat ->
            nth i (map (Torch.map_even (fun e => e * -1)) M2) [] =
            Torch.map_even (fun e => e * -1) (nth i M2 [])).
  { intros i Hi.
    exact (map_nth (Torch.map_even (fun e => e * -1)) M2 [] i). }
  split.
  - apply is_mat_of_nth; [rewrite length_map; exact (proj1 HM2)|].
    intros i Hi. rewrite Hrow3 by exact Hi. rewrite length_map_even.
    exact (is_mat_nth n n M2 i HM2 Hi).
  - intros i j Hi Hj. unfold Torch.entry at 1. rewrite Hrow3 by exact Hi.
    rewrite nth_map_even by (rewrite (is_mat_nth n n M2 i HM2 Hi); exact Hj).
    change (nth j (nth i M2 []) 0) with (Torch.entry M2 i j).
    rewrite He2, He1 by assumption. reflexivity.
Qed.

Lemma levi_civita_entry_antisymmetric (i j : nat) :
  levi_civita_entry j i = - levi_civita_entry i j.
Proof.
  unfold levi_civita_entry. rewrite (Nat.add_comm j i).
  destruct (Nat.eqb_spec i j), (Nat.eqb_spec j i), (Nat.ltb_spec i j),
    (Nat.ltb_spec j i), (Nat.even (i + j)); cbn [Bool.eqb]; try lia; lra.
Qed.

Lemma permutation_tensor_levi_civita_entries (n : nat) :
  Torch.is_mat n n (permutation_tensor false n) /\
  forall i j, (i < n)%nat -> (j < n)%nat ->
    Torch.entry (permutation_tensor false n) i j = levi_civita_entry i j.
Proof.
  unfold permutation_tensor. cbv zeta.
  destruct (levi_civita_signs n) as [HM He].
  destruct (flip_upper n (fun e => e * -1) n 0 _ HM) as [HM' He'].
  split; [exact HM'|]. intros i j Hi Hj.
  rewrite He', He by assumption. cbv zeta.
  unfold levi_civita_entry. rewrite Nat.even_add.
  destruct (Nat.eqb_spec j i), (Nat.eqb_spec i j), (Nat.leb_spec 0 i),
    (Nat.ltb_spec i (0 + n)), (Nat.ltb_spec i j),
    (Nat.even i), (Nat.even j); cbn [andb Bool.eqb]; try lia; lra.
Qed.

Lemma is_mat_t_square (n : nat) (A : mat) :
  Torch.is_mat n n A -> Torch.is_mat n n (Torch.t A).
Proof.
  intros HA. destruct n as [|n].
  - destruct HA as [HA _]. destruct A; [|discriminate]. split; [reflexivity|].
    constructor.
  - pose proof (ncols_is_mat n (S n) A HA) as Hc. split.
    + now rewrite length_t.
    + unfold Torch.t. apply Forall_forall. intros r Hr.
      apply in_map_iff in Hr. destruct Hr as [j [<- _]].
      unfold Torch.col. rewrite length_map. exact (proj1 HA).
Qed.

Lemma entry_t (A : mat) (i j : nat) :
  (i < Torch.ncols A)%nat -> Torch.entry (Torch.t A) i j = Torch.entry A j i.
Proof.
  intros Hi. unfold Torch.entry at 1. rewrite nth_t by exact Hi.
  apply nth_col.
Qed.

Lemma entry_neg (A : mat) (i j : nat) :
  Torch.entry (Torch.neg A) i j = - Torch.entry A i j.
Proof.
  unfold Torch.entry, Torch.neg.
  change (@nil R) with (Torch.vneg []) at 1. rewrite map_nth.
  apply nth_vneg.
Qed.

Lemma is_mat_neg (n m : nat) (A : mat) :
  Torch.is_mat n m A -> Torch.is_mat n m (Torch.neg A).
Proof. apply is_mat_map. Qed.

(** a square matrix with [A[j, i] = -A[i, j]] is the negative of its
    transpose *)
Lemma t_antisymmetric (n : nat) (A : mat) :
  Torch.is_mat n n A ->
  (forall i j, (i < n)%nat -> (j < n)%nat ->
     Torch.entry A j i = - Torch.entry A i j) ->
  Torch.t A = Torch.neg A.
Proof.
  intros HA Hanti.
  apply (mat_ext n n); [now apply is_mat_t_square|now apply is_mat_neg|].
  intros i j Hi Hj. rewrite entry_neg, entry_t.
  - now apply Hanti.
  - destruct n as [|n]; [lia|]. now rewrite (ncols_is_mat n (S n) A HA).
Qed.

(** X12: without [assume_canonical_coords], [permutation_tensor(n)] is for
    every [n] the [n]-by-[n] matrix with zeros on the diagonal and, off it,
    the sign [(-1)^(i+j)] below the diagonal and the opposite sign above; it
    is antisymmetric, [M.t() = -M]. *)
Theorem permutation_tensor_levi_civita (n : nat) :
  let M := permutation_tensor false n in
  Torch.is_mat n n M /\
  (forall i j, (i < n)%nat -> (j < n)%nat ->
     Torch.entry M i j = levi_civita_entry i j) /\
  Torch.t M = Torch.neg M.
Proof.
  cbv zeta. destruct (permutation_tensor_levi_civita_entries n) as [HM He].
  split; [exact HM|]. split; [exact He|].
  apply (t_antisymmetric n _ HM). intros i j Hi Hj.
  rewrite !He by assumption. apply levi_civita_entry_antisymmetric.
Qed.

(** ** Conservation of energy without canonical coordinates *)

Lemma vsum_map_zero {A : Type} (l : list A) : Torch.vsum (map (fun _ => 0) l) = 0.
Proof. induction l as [|a l IH]; simpl; [reflexivity|rewrite IH; ring]. Qed.

Lemma vsum_map_plus {A : Type} (f g : A -> R) (l : list A) :
  Torch.vsum (map (fun i => f i + g i) l) =
  Torch.vsum (map f l) + Torch.vsum (map g l).
Proof. induction l as [|a l IH]; simpl; [ring|rewrite IH; ring]. Qed.

Lemma vsum_map_scale {A : Type} (c : R) (f : A -> R) (l : list A) :
  Torch.vsum (map (fun i => c * f i) l) = c * Torch.vsum (map f l).
Proof. induction l as [|a l IH]; simpl; [ring|rewrite IH; ring]. Qed.

Lemma vsum_map_opp {A : Type} (f : A -> R) (l : list A) :
  Torch.vsum (map (fun i => - f i) l) = - Torch.vsum (map f l).
Proof. induction l as [|a l IH]; simpl; [ring|rewrite IH; ring]. Qed.

Lemma vsum_map_swap {A B : Type} (f : A -> B -> R) (l : list A) (l' : list B) :
  Torch.vsum (map (fun i => Torch.vsum (map (fun j => f i j) l')) l) =
  Torch.vsum (map (fun j => Torch.vsum (map (fun i => f i j) l)) l').
Proof.
  induction l as [|a l IH]; cbn [map Torch.vsum fold_right].
  - now rewrite vsum_map_zero.
  - fold (Torch.vsum (map (fun i => Torch.vsum (map (fun j => f i j) l')) l)).
    rewrite IH, <- vsum_map_plus. reflexivity.
Qed.

(** the scalar product as a sum over the indices *)
Lemma dot_vsum (u v : vec) (n : nat) :
  length u = n -> length v = n ->
  Torch.dot u v =
  Torch.vsum (map (fun i => nth i u 0 * nth i v 0) (seq 0 n)).
Proof.
  revert v n. induction u as [|a u IH]; intros [|b v] [|n] Hu Hv;
    try discriminate; [reflexivity|].
  cbn [Torch.dot seq map Torch.vsum fold_right nth].
  rewrite <- seq_shift, map_map. cbn [nth].
  rewrite (IH v n) by (simpl in *; lia). reflexivity.
Qed.

(** [g M g^T = 0] for an antisymmetric [M] *)
Lemma quadratic_form_antisymmetric (n : nat) (M : mat) (g : vec) :
  Torch.is_mat n n M ->
  (forall i j, (i < n)%nat -> (j < n)%nat ->
     Torch.entry M j i = - Torch.entry M i j) ->
  length g = n ->
  Torch.dot g (map (Torch.dot g) M) = 0.
Proof.
  intros HM Hanti Hg.
  set (F := fun i j => nth i g 0 * (nth j g 0 * Torch.entry M i j)).
  assert (HQ : Torch.dot g (map (Torch.dot g) M) =
               Torch.vsum (map (fun i => Torch.vsum (map (fun j => F i j)
                                                       (seq 0 n)))
                               (seq 0 n))).
  { rewrite (dot_vsum g _ n) by (rewrite ?length_map; try exact Hg; apply HM).
    f_equal. apply map_ext_in. intros i Hi. apply in_seq in Hi.
    unfold F. rewrite (vsum_map_scale (nth i g 0)). f_equal.
    rewrite (nth_indep _ 0 (Torch.dot g []))
      by (rewrite length_map, (proj1 HM); lia).
    rewrite (map_nth (Torch.dot g) M [] i).
    apply (dot_vsum g (nth i M []) n Hg).
    apply (is_mat_nth n n M i HM). lia. }
  assert (Hneg : Torch.vsum (map (fun i => Torch.vsum (map (fun j => F i j)
                                                         (seq 0 n)))
                                 (seq 0 n)) =
                 - Torch.vsum (map (fun i => Torch.vsum (map (fun j => F i j)
                                                           (seq 0 n)))
                                   (seq 0 n))).
  { rewrite vsum_map_swap at 1. rewrite <- vsum_map_opp.
    f_equal. apply map_ext_in. intros i Hi. apply in_seq in Hi.
    rewrite <- vsum_map_opp. f_equal. apply map_ext_in. intros j Hj.
    apply in_seq in Hj. unfold F. rewrite (Hanti i j) by lia. ring. }
  rewrite HQ. lra.
Qed.

(** the product with the transpose of an antisymmetric matrix *)
Lemma matmul_t_antisymmetric (n : nat) (M dH : mat) :
  Torch.is_mat n n M -> Torch.t M = Torch.neg M ->
  Forall (fun g => length g = n) dH ->
  Torch.matmul dH (Torch.t M) = Some (times_transpose dH M).
Proof.
  intros HM Ht HdH. unfold Torch.matmul.
  assert (Htt : Torch.t (Torch.t M) = M)
    by now rewrite Ht, t_neg, Ht, neg_involutive.
  rewrite Htt, length_t.
  assert (Hc : Torch.ncols M = n).
  { destruct n as [|n]; [|exact (ncols_is_mat n (S n) M HM)].
    destruct HM as [HM _]. now destruct M. }
  rewrite Hc.
  replace (forallb _ dH) with true; [reflexivity|].
  symmetry. apply forallb_forall. intros g Hin.
  rewrite Forall_forall in HdH. apply Nat.eqb_eq. now apply HdH.
Qed.

Section Conservation_levi_civita.

Variable autograd_grad : (mat -> option R) -> mat -> mat.

(** X13: an [HNN] built without [assume_canonical_coords], [baseline] and
    [damp] returns, for every [input_dim], a field that is orthogonal to the
    gradient of the predicted energy in every state: the energy is conserved
    along it, as in canonical coordinates. *)
Theorem HNN_levi_civita_field_conserves_energy
    (n : nat) (differentiale_model : mat -> mat) (device : nat)
    (dampNet : option (mat -> bmat)) (k : Z) (t : R) (x : mat) :
  let s := HNN.set_nfe
             (HNN.init n differentiale_model device false false false
                       dampNet) k in
  let dH := HNN_dH autograd_grad s x in
  let field := times_transpose dH (permutation_tensor false n) in
  Forall (fun g => length g = n) dH ->
  snd (HNN.time_derivative autograd_grad t x s) = Some (Torch.T2 field) /\
  Forall2 (fun g f => Torch.dot g f = 0) dH field.
Proof.
  cbv zeta. intros HdH.
  destruct (permutation_tensor_levi_civita_entries n) as [HM He].
  assert (Hanti : forall i j, (i < n)%nat -> (j < n)%nat ->
            Torch.entry (permutation_tensor false n) j i =
            - Torch.entry (permutation_tensor false n) i j).
  { intros i j Hi Hj. rewrite !He by assumption.
    apply levi_civita_entry_antisymmetric. }
  split.
  - rewrite HNN_time_derivative_plain by reflexivity.
    change (HNN.M _) with (permutation_tensor false n).
    rewrite (matmul_t_antisymmetric n); try assumption; [reflexivity|].
    now apply (t_antisymmetric n).
  - unfold times_transpose.
    induction HdH as [|g dH Hg _ IH]; cbn [map]; constructor; [|exact IH].
    now apply (quadratic_form_antisymmetric n).
Qed.

End Conservation_levi_civita.

(** the statement above for the energy [q^2 + p^2] on two states of
    dimension 3 *)
Lemma HNN_levi_civita_field_conserves_energy_witness :
  let x := [[1; 2; 3]; [4; 5; 6]] in
  let s := HNN.set_nfe
             (HNN.init 3 quadratic_energy 0 false false false None) 0 in
  let dH := HNN_dH central_difference s x in
  let field := times_transpose dH (permutation_tensor false 3) in
  snd (HNN.time_derivative central_difference 0 x s) = Some (Torch.T2 field) /\
  Forall2 (fun g f => Torch.dot g f = 0) dH field.
Proof.
  cbv zeta.
  apply (HNN_levi_civita_field_conserves_energy central_difference 3
           quadratic_energy 0 None 0 0 [[1; 2; 3]; [4; 5; 6]]).
  run_tensor. repeat constructor.
Defined.

(** ** The canonical [permutation_tensor] for every [input_dim] *)

(** the first [n - n/2] rows are the unit rows [n/2, ..., n-1], the other
    [n/2] rows the negated unit rows [0, ..., n/2-1] *)
Lemma permutation_tensor_rows_any (n : nat) :
  permutation_tensor true n =
  map (fun i => Torch.unit_row n (n / 2 + i)) (seq 0 (n - n / 2)) ++
  map (fun i => Torch.vneg (Torch.unit_row n i)) (seq 0 (n / 2)).
Proof.
  unfold permutation_tensor, Torch.eye.
  pose proof (Nat.div_mod_eq n 2) as Hdiv.
  set (h := (n / 2)%nat) in *.
  assert (Hh : (h <= n)%nat) by lia.
  replace (seq 0 n) with (seq 0 (h + (n - h))) by (f_equal; lia).
  rewrite seq_app, map_app.
  assert (Hl : length (map (Torch.unit_row n) (seq 0 h)) = h)
    by now rewrite length_map, length_seq.
  rewrite skipn_app, firstn_app, Hl, Nat.sub_diag.
  rewrite skipn_all2 by lia. rewrite firstn_all2 by lia.
  simpl skipn. simpl firstn. rewrite app_nil_r. simpl app.
  f_equal.
  - replace (seq h (n - h)) with (seq (h + 0) (n - h)) by (f_equal; lia).
    rewrite seq_add_map, map_map. reflexivity.
  - unfold Torch.neg. now rewrite map_map.
Qed.

Lemma permutation_tensor_is_mat_any (n : nat) :
  Torch.is_mat n n (permutation_tensor true n).
Proof.
  rewrite permutation_tensor_rows_any.
  pose proof (Nat.div_mod_eq n 2) as Hdiv. split.
  - rewrite length_app, !length_map, !length_seq. lia.
  - apply Forall_app. split; apply Forall_forall; intros r Hr;
      apply in_map_iff in Hr; destruct Hr as [i [<- _]].
    + apply length_unit_row.
    + unfold Torch.vneg. rewrite length_map. apply length_unit_row.
Qed.

(** a row of the upper block *)
Lemma permutation_tensor_upper_row (n i : nat) :
  (i < n - n / 2)%nat ->
  nth i (permutation_tensor true n) [] = Torch.unit_row n (n / 2 + i).
Proof.
  intros Hi. rewrite permutation_tensor_rows_any.
  rewrite app_nth1 by (rewrite length_map, length_seq; exact Hi).
  now rewrite nth_map_seq.
Qed.

(** X14: with [assume_canonical_coords], [permutation_tensor(n)] is an
    [n]-by-[n] matrix for every [n], and it is antisymmetric, [M.t() = -M],
    exactly when [n] is even: for an odd [n] the entry 1 at row 0, column
    [n // 2] has no [-1] opposite. *)
Theorem permutation_tensor_canonical_antisymmetric_iff_even (n : nat) :
  let M := permutation_tensor true n in
  Torch.is_mat n n M /\
  (Torch.t M = Torch.neg M <-> Nat.even n = true).
Proof.
  cbv zeta. split; [apply permutation_tensor_is_mat_any|]. split.
  - intros Ht.
    destruct (Nat.even n) eqn:Heven; [reflexivity|exfalso].
    assert (Hodd : Nat.odd n = true)
      by (unfold Nat.odd; now rewrite Heven).
    apply Nat.odd_spec in Hodd. destruct Hodd as [h Hn].
    assert (Hh : (n / 2)%nat = h).
    { pose proof (Nat.div_mod_eq n 2).
      pose proof (Nat.mod_upper_bound n 2 ltac:(lia)). lia. }
    pose proof (permutation_tensor_is_mat_any n) as HM.
    assert (Hc : Torch.ncols (permutation_tensor true n) = n).
    { destruct n as [|n]; [lia|].
      exact (ncols_is_mat n (S n) _ HM). }
    assert (H0h : Torch.entry (permutation_tensor true n) 0 h = 1).
    { unfold Torch.entry. rewrite permutation_tensor_upper_row by lia.
      rewrite nth_unit_row by lia. rewrite Hh, Nat.add_0_r.
      now rewrite Nat.eqb_refl. }
    assert (Hh0 : Torch.entry (permutation_tensor true n) h 0 <> -1).
    { unfold Torch.entry. rewrite permutation_tensor_upper_row by lia.
      rewrite nth_unit_row by lia.
      destruct (Nat.eqb 0 (n / 2 + h)); lra. }
    assert (He : Torch.entry (Torch.t (permutation_tensor true n)) h 0 =
                 Torch.entry (Torch.neg (permutation_tensor true n)) h 0)
      by now rewrite Ht.
    rewrite entry_t, entry_neg in He by lia. lra.
  - intros Heven. apply Nat.even_spec in Heven. destruct Heven as [d ->].
    replace (2 * d)%nat with (d + d)%nat by lia.
    apply permutation_tensor_t.
Qed.

(** ** The energy of [HNN_structure] *)

(** the kinetic energy of one momentum is between 0 and [5 p^2] *)
Lemma kinetic_bounds (p L : R) :
  0 <= p * p / (2 * (L * L + 0.1)) <= 5 * (p * p).
Proof.
  pose proof (Rle_0_sqr p) as Hp. pose proof (Rle_0_sqr L) as HL.
  unfold Rsqr in Hp, HL.
  assert (Hm : 0.2 <= 2 * (L * L + 0.1)) by lra.
  assert (Hinv : / (2 * (L * L + 0.1)) <= / 0.2)
    by (apply Rinv_le_contravar; lra).
  assert (Hpos : 0 < / (2 * (L * L + 0.1)))
    by (apply Rinv_0_lt_compat; lra).
  replace (/ 0.2) with 5 in Hinv by lra.
  unfold Rdiv. split.
  - apply Rmult_le_pos; lra.
  - rewrite (Rmult_comm 5). apply Rmult_le_compat_l; lra.
Qed.

Lemma chunk2_halves (n d : nat) (x : mat) :
  Torch.is_mat n (S d + S d) x ->
  Torch.chunk2 x = Some (map (firstn (S d)) x, map (skipn (S d)) x).
Proof.
  intros Hx. destruct n as [|n].
  - destruct Hx as [Hx _]. destruct x; [reflexivity|discriminate].
  - unfold Torch.chunk2. rewrite (ncols_is_mat n _ x Hx).
    replace (Nat.eqb (S d + S d) 1) with false
      by (symmetry; apply Nat.eqb_neq; lia).
    replace ((S d + S d + 1) / 2)%nat with (S d); [reflexivity|].
    replace (S d + S d + 1)%nat with (1 + S d * 2)%nat by lia.
    rewrite Nat.div_add by lia. reflexivity.
Qed.

Lemma sequence_map2_column_value (f : R -> R -> R) (A B : mat) :
  length A = length B ->
  Forall (fun r => length r = 1%nat) B ->
  sequence (Torch.map2 (Torch.bop1 f) A B) =
  Some (Torch.map2 (fun r v => map (fun a => f a (nth 0 v 0)) r) A B).
Proof.
  revert B. induction A as [|r A IH]; intros [|v B] Hlen HB;
    try discriminate; [reflexivity|].
  inversion HB as [|? ? Hv HB']; subst.
  unfold Torch.map2 in *. cbn [combine map fst snd sequence].
  rewrite (bop1_column f r v Hv), (IH B) by (simpl in Hlen; lia || assumption).
  destruct v; reflexivity.
Qed.

(** a column [B] broadcast along the rows of [A], entry by entry *)
Lemma bop2_column_entries (f : R -> R -> R) (n d : nat) (A B : mat) :
  Torch.is_mat n d A -> Torch.is_mat n 1 B ->
  exists C, Torch.bop2 f A B = Some C /\ Torch.is_mat n d C /\
    forall i j, (i < n)%nat -> (j < d)%nat ->
      Torch.entry C i j = f (Torch.entry A i j) (Torch.entry B i 0).
Proof.
  intros HA HB. pose proof HA as [HlA HrA]. pose proof HB as [HlB HrB].
  exists (Torch.map2 (fun r v => map (fun a => f a (nth 0 v 0)) r) A B).
  assert (Hrow : forall i, (i < n)%nat ->
            nth i (Torch.map2 (fun r v => map (fun a => f a (nth 0 v 0)) r)
                     A B) [] =
            map (fun a => f a (Torch.entry B i 0)) (nth i A []))
    by (intros i Hi; now rewrite (nth_map2 _ _ _ i [] [] []) by lia).
  split; [|split].
  - unfold Torch.bop2, Torch.broadcast. rewrite HlA, HlB, Nat.eqb_refl.
    apply sequence_map2_column_value; [congruence|exact HrB].
  - apply is_mat_of_nth; [rewrite length_map2; lia|].
    intros i Hi. rewrite Hrow by exact Hi. rewrite length_map.
    now apply (is_mat_nth n).
  - intros i j Hi Hj. unfold Torch.entry at 1. rewrite Hrow by exact Hi.
    rewrite (nth_indep _ 0 (f 0 (Torch.entry B i 0)))
      by (rewrite length_map, (is_mat_nth n d A i HA Hi); exact Hj).
    apply (map_nth (fun a => f a (Torch.entry B i 0))).
Qed.

(** X15: on a batch of [n] states of dimension [2 d >= 2], with [L_net] and
    [V_net] returning one value per state, [HNN_structure.forward] returns
    for the state [i] and its momentum [p_j] the energy
    [p_j^2 / (2 (L_i^2 + 0.1)) + V_i], which lies between the potential [V_i]
    and [V_i + 5 p_j^2]: the kinetic part is never negative and, through the
    constant 0.1, never above [5 p_j^2]. *)
Theorem HNN_structure_energy_bounds
    (s : HNN_structure.self) (n d : nat) (x : mat) :
  let q := map (firstn (S d)) x in
  Torch.is_mat n (S d + S d) x ->
  Torch.is_mat n 1 (HNN_structure.L_net s q) ->
  Torch.is_mat n 1 (HNN_structure.V_net s q) ->
  exists H, snd (HNN_structure.forward x s) = Some H /\
    Torch.is_mat n (S d) H /\
    forall i j, (i < n)%nat -> (j < S d)%nat ->
      let p := Torch.entry x i (S d + j) in
      let L := Torch.entry (HNN_structure.L_net s q) i 0 in
      let V := Torch.entry (HNN_structure.V_net s q) i 0 in
      Torch.entry H i j = p * p / (2 * (L * L + 0.1)) + V /\
      V <= Torch.entry H i j <= V + 5 * (p * p).
Proof.
  cbv zeta. intros Hx HL HV.
  rewrite HNN_structure_forward_value, (chunk2_halves n d x Hx).
  cbn [obind]. unfold kinetic_plus_potential, kinetic_term.
  assert (Hp : Torch.is_mat n (S d) (map (skipn (S d)) x)).
  { destruct Hx as [Hlx Hrx]. split; [now rewrite length_map|].
    apply Forall_forall. intros r Hr. apply in_map_iff in Hr.
    destruct Hr as [r' [<- Hr']]. rewrite Forall_forall in Hrx.
    rewrite length_skipn, (Hrx r' Hr'). lia. }
  destruct (bop2_column_entries (fun a m => a / (2 * m)) n (S d)
              (square (map (skipn (S d)) x))
              (mass_term (HNN_structure.L_net s (map (firstn (S d)) x))))
    as [K [HK [HmK HeK]]];
    [now apply is_mat_map|now apply is_mat_map|].
  rewrite HK. cbn [obind].
  destruct (bop2_column_entries Rplus n (S d) K
              (HNN_structure.V_net s (map (firstn (S d)) x)) HmK HV)
    as [H [HH [HmH HeH]]].
  exists H. split; [exact HH|]. split; [exact HmH|].
  intros i j Hi Hj.
  assert (Hval : Torch.entry H i j =
            Torch.entry x i (S d + j) * Torch.entry x i (S d + j) /
            (2 * (Torch.entry (HNN_structure.L_net s (map (firstn (S d)) x)) i 0 *
                  Torch.entry (HNN_structure.L_net s (map (firstn (S d)) x)) i 0
                  + 0.1)) +
            Torch.entry (HNN_structure.V_net s (map (firstn (S d)) x)) i 0).
  { rewrite HeH, HeK by assumption. unfold square, mass_term.
    rewrite (entry_map _ n (S d)) by assumption.
    rewrite (entry_map _ n 1) by (try assumption; lia).
    replace (Torch.entry (map (skipn (S d)) x) i j)
      with (Torch.entry x i (S d + j)); [reflexivity|].
    unfold Torch.entry.
    change (@nil R) with (skipn (S d) (@nil R)) at 2.
    rewrite (map_nth (skipn (S d)) x [] i). now rewrite nth_skipn. }
  split; [exact Hval|]. rewrite Hval.
  pose proof (kinetic_bounds (Torch.entry x i (S d + j))
                (Torch.entry (HNN_structure.L_net s (map (firstn (S d)) x)) i 0)).
  lra.
Qed.

(** the statement above for [L_net = 1] and [V_net = 1] on two states of
    dimension 2 *)
Lemma HNN_structure_energy_bounds_witness :
  let s := HNN_structure.init 2 constant_one constant_one 0 true in
  let x := [[1; 2]; [3; 4]] in
  let q := map (firstn 1) x in
  exists H, snd (HNN_structure.forward x s) = Some H /\
    Torch.is_mat 2 1 H /\
    forall i j, (i < 2)%nat -> (j < 1)%nat ->
      let p := Torch.entry x i (1 + j) in
      let L := Torch.entry (HNN_structure.L_net s q) i 0 in
      let V := Torch.entry (HNN_structure.V_net s q) i 0 in
      Torch.entry H i j = p * p / (2 * (L * L + 0.1)) + V /\
      V <= Torch.entry H i j <= V + 5 * (p * p).
Proof.
  cbv zeta.
  apply (HNN_structure_energy_bounds
           (HNN_structure.init 2 constant_one constant_one 0 true) 2 0
           [[1; 2]; [3; 4]]);
    (split; [reflexivity|repeat constructor]).
Defined.

(** ** The Hamiltonian that [HNN_structure_pend.time_derivative] differentiates *)

Lemma sequence_map2_repeat {A B C : Type} (f : A -> B -> option C)
    (h : B -> C) (a : A) (l : list B) :
  (forall b, In b l -> f a b = Some (h b)) ->
  sequence (Torch.map2 f (repeat a (length l)) l) = Some (map h l).
Proof.
  unfold Torch.map2. induction l as [|b l IH]; intros H; [reflexivity|].
  cbn [length repeat combine map fst snd sequence].
  rewrite (H b (or_introl eq_refl)), IH by (intros b' Hb'; apply H; now right).
  reflexivity.
Qed.

(** the constant mass matrix times three momenta as a column *)
Lemma matmul_mass_momenta (a b c : R) :
  Torch.matmul (Torch.diag_embed [1; 1; 3]) (map (fun e => [e]) [a; b; c]) =
  Some (map (fun r => [Torch.dot r [a; b; c]]) (Torch.diag_embed [1; 1; 3])).
Proof. reflexivity. Qed.

Lemma momenta_mass_momenta (a b c : R) :
  Torch.matmul (Torch.t (map (fun e => [e]) [a; b; c]))
    (map (fun r => [Torch.dot r [a; b; c]]) (Torch.diag_embed [1; 1; 3])) =
  Some [[momentum_form [a; b; c]]].
Proof.
  unfold momentum_form. cbn. do 3 f_equal. ring.
Qed.

Lemma bmatmul_mass_momenta (p : mat) :
  (forall pb, In pb p -> exists a b c, pb = [a; b; c]) ->
  Torch.bmatmul (HNN_structure_pend.M_q_inv_const (length p))
                (Torch.unsqueeze2 p) =
  Some (map (fun pb => map (fun r => [Torch.dot r pb])
                           (Torch.diag_embed [1; 1; 3])) p).
Proof.
  intros Hp. unfold Torch.bmatmul, Torch.broadcast.
  unfold HNN_structure_pend.M_q_inv_const, Torch.unsqueeze2.
  rewrite repeat_length, length_map, Nat.eqb_refl.
  rewrite <- (length_map (map (fun e => [e])) p).
  rewrite (sequence_map2_repeat _
             (fun col => map (fun r => [Torch.dot r (map (hd 0) col)])
                             (Torch.diag_embed [1; 1; 3]))).
  - rewrite map_map. f_equal. apply map_ext_in. intros pb Hpb.
    destruct (Hp pb Hpb) as [a [b [c ->]]]. reflexivity.
  - intros col Hin. apply in_map_iff in Hin. destruct Hin as [pb [<- Hpb]].
    destruct (Hp pb Hpb) as [a [b [c ->]]]. apply matmul_mass_momenta.
Qed.

Lemma bmatmul_momenta_mass (p : mat) :
  (forall pb, In pb p -> exists a b c, pb = [a; b; c]) ->
  Torch.bmatmul (Torch.transpose12 (Torch.unsqueeze2 p))
    (map (fun pb => map (fun r => [Torch.dot r pb])
                        (Torch.diag_embed [1; 1; 3])) p) =
  Some (map (fun pb => [[momentum_form pb]]) p).
Proof.
  intros Hp. unfold Torch.bmatmul, Torch.broadcast.
  unfold Torch.transpose12, Torch.unsqueeze2.
  rewrite !length_map, Nat.eqb_refl.
  rewrite !map_map, map2_map_l, map2_map_r, map2_diag.
  apply sequence_map_total.
  intros pb Hpb. destruct (Hp pb Hpb) as [a [b [c ->]]].
  apply momenta_mass_momenta.
Qed.

Lemma squeeze_scalars {A : Type} (k : A -> R) (l : list A) :
  (2 <= length l)%nat ->
  Torch.squeeze (map (fun a => [[k a]]) l) = Torch.T1 (map k l).
Proof.
  intros Hl. unfold Torch.squeeze, Torch.shape. rewrite length_map.
  destruct l as [|a [|a' l]]; try (simpl in Hl; lia).
  cbn [map hd length Torch.ncols Nat.eqb]. f_equal. do 2 f_equal.
  now rewrite map_map.
Qed.

(** a vector plus a column of at least two rows: every row gets the whole
    vector *)
Lemma tbop_T1_column (f : R -> R -> R) (v : vec) (V : mat) :
  (2 <= length V)%nat -> Forall (fun r => length r = 1%nat) V ->
  Torch.tbop f (Torch.T1 v) (Torch.T2 V) =
  Some (Torch.T2 (map (fun r => map (fun a => f a (nth 0 r 0)) v) V)).
Proof.
  intros HV Hr. unfold Torch.tbop, Torch.bop3, Torch.broadcast.
  unfold Torch.map2.
  cbn [Torch.lift3 length Nat.eqb combine map fst snd sequence].
  unfold Torch.bop2, Torch.broadcast. cbn [length hd].
  destruct (Nat.eqb_spec 1 (length V)) as [H1|_]; [lia|].
  cbn [Nat.eqb].
  rewrite (sequence_map_total _ (fun r => map (fun a => f a (nth 0 r 0)) v)).
  - reflexivity.
  - intros r Hin. rewrite Forall_forall in Hr.
    rewrite (bop1_column f v r (Hr r Hin)). now destruct r.
Qed.

Lemma vsum_map_plus_const (c : R) (v : vec) :
  Torch.vsum (map (fun a => a + c) v) = Torch.vsum v + INR (length v) * c.
Proof.
  induction v as [|a v IH]; [simpl; ring|].
  cbn [map Torch.vsum fold_right]. fold (Torch.vsum (map (fun a => a + c) v)).
  fold (Torch.vsum v). rewrite IH.
  change (length (a :: v)) with (S (length v)). rewrite S_INR. ring.
Qed.

Lemma pend_time_derivative_H_value
    (s : HNN_structure_pend.self) (bs : nat) (x : mat) :
  Torch.is_mat (S (S bs)) 6 x ->
  Forall (fun r => length r = 1%nat)
    (HNN_structure_pend.V_net s (map (firstn 3) x)) ->
  length (HNN_structure_pend.V_net s (map (firstn 3) x)) = S (S bs) ->
  HNN_structure_pend.time_derivative_H s x =
  Some (Torch.T2
          (map (fun r => map (fun k => k + nth 0 r 0)
                           (map momentum_form (map (skipn 3) x)))
               (HNN_structure_pend.V_net s (map (firstn 3) x)))).
Proof.
  intros Hx HVr HVl. unfold HNN_structure_pend.time_derivative_H.
  rewrite (chunk2_halves (S (S bs)) 2 x Hx). cbn [obind].
  set (p := map (skipn 3) x).
  assert (Hp : forall pb, In pb p -> exists a b c, pb = [a; b; c]).
  { intros pb Hin. apply in_map_iff in Hin. destruct Hin as [r [<- Hr]].
    destruct Hx as [_ Hrx]. rewrite Forall_forall in Hrx.
    specialize (Hrx r Hr).
    destruct r as [|? [|? [|? [|a [|b [|c [|]]]]]]]; try discriminate.
    now exists a, b, c. }
  assert (Hlp : length p = length x) by (unfold p; now rewrite length_map).
  rewrite <- Hlp, (bmatmul_mass_momenta p Hp). cbn [obind].
  rewrite (bmatmul_momenta_mass p Hp). cbn [obind].
  rewrite squeeze_scalars by (rewrite Hlp, (proj1 Hx); lia).
  apply tbop_T1_column; [lia|exact HVr].
Qed.

(** X16: on a batch of [bs >= 2] states of dimension 6, with [V_net]
    returning one value per state, the Hamiltonian that
    [HNN_structure_pend.time_derivative] differentiates is not one value per
    state but a [bs]-by-[bs] matrix: the squeezed kinetic terms, of shape
    [(bs,)], broadcast against the potential, of shape [(bs, 1)], to
    [H[i, j] = p_j^T diag(1, 1, 3) p_j + V_i]. Its sum, of which the gradient
    is taken, is [bs] times the sum of the kinetic and the potential terms. *)
Theorem pend_hamiltonian_scaled_by_batch
    (s : HNN_structure_pend.self) (bs : nat) (x : mat) :
  let n := S (S bs) in
  let q := map (firstn 3) x in
  let p := map (skipn 3) x in
  let V := HNN_structure_pend.V_net s q in
  Torch.is_mat n 6 x -> Torch.is_mat n 1 V ->
  exists H, HNN_structure_pend.time_derivative_H s x = Some (Torch.T2 H) /\
    Torch.is_mat n n H /\
    (forall i j, (i < n)%nat -> (j < n)%nat ->
       Torch.entry H i j = momentum_form (nth j p []) + Torch.entry V i 0) /\
    Torch.tsum (Torch.T2 H) =
      INR n * (Torch.vsum (map momentum_form p) +
               Torch.vsum (map (fun r => nth 0 r 0) V)).
Proof.
  cbv zeta. intros Hx [HVl HVr].
  rewrite (pend_time_derivative_H_value s bs x Hx HVr HVl).
  set (V := HNN_structure_pend.V_net s (map (firstn 3) x)) in *.
  set (p := map (skipn 3) x).
  assert (Hlp : length p = S (S bs))
    by (unfold p; rewrite length_map; exact (proj1 Hx)).
  eexists. split; [reflexivity|].
  assert (Hrow : forall i, (i < S (S bs))%nat ->
            nth i (map (fun r => map (fun k => k + nth 0 r 0)
                                   (map momentum_form p)) V) [] =
            map (fun k => k + Torch.entry V i 0) (map momentum_form p)).
  { intros i Hi.
    rewrite (nth_indep _ []
               ((fun r => map (fun k => k + nth 0 r 0) (map momentum_form p))
                  []))
      by (rewrite length_map; lia).
    exact (map_nth (fun r => map (fun k => k + nth 0 r 0)
                               (map momentum_form p)) V [] i). }
  split; [|split].
  - apply is_mat_of_nth; [now rewrite length_map|].
    intros i Hi. rewrite Hrow by exact Hi. now rewrite !length_map.
  - intros i j Hi Hj. unfold Torch.entry at 1. rewrite Hrow by exact Hi.
    rewrite map_map.
    rewrite (nth_indep _ 0
               ((fun pb => momentum_form pb + Torch.entry V i 0) []))
      by (rewrite length_map; lia).
    exact (map_nth (fun pb => momentum_form pb + Torch.entry V i 0) p [] j).
  - cbn [Torch.tsum]. unfold Torch.msum. rewrite map_map.
    rewrite (map_ext _
               (fun r => Torch.vsum (map momentum_form p) +
                         INR (S (S bs)) * nth 0 r 0)).
    2:{ intros r. rewrite vsum_map_plus_const, length_map, Hlp.
        reflexivity. }
    rewrite vsum_map_plus, vsum_map_scale.
    replace (Torch.vsum (map (fun _ => Torch.vsum (map momentum_form p)) V))
      with (INR (S (S bs)) * Torch.vsum (map momentum_form p)).
    + ring.
    + rewrite <- HVl. clear. induction V as [|r V IH]; [simpl; ring|].
      cbn [map Torch.vsum fold_right].
      fold (Torch.vsum (map (fun _ => Torch.vsum (map momentum_form p)) V)).
      rewrite <- IH. change (length (r :: V)) with (S (length V)).
      rewrite S_INR. ring.
Qed.

(** the statement above on the two states of the example *)
Lemma pend_hamiltonian_scaled_by_batch_witness :
  let n := 2%nat in
  let q := map (firstn 3) pend_example_x in
  let p := map (skipn 3) pend_example_x in
  let V := HNN_structure_pend.V_net pend_example q in
  exists H,
    HNN_structure_pend.time_derivative_H pend_example pend_example_x =
      Some (Torch.T2 H) /\
    Torch.is_mat n n H /\
    (forall i j, (i < n)%nat -> (j < n)%nat ->
       Torch.entry H i j = momentum_form (nth j p []) + Torch.entry V i 0) /\
    Torch.tsum (Torch.T2 H) =
      INR n * (Torch.vsum (map momentum_form p) +
               Torch.vsum (map (fun r => nth 0 r 0) V)).
Proof.
  cbv zeta.
  apply (pend_hamiltonian_scaled_by_batch pend_example 0 pend_example_x);
    (split; [reflexivity|repeat constructor]).
Defined.

(** ** States with a single column *)

Lemma chunk2_single_column (x : mat) :
  Torch.ncols x = 1%nat -> Torch.chunk2 x = None.
Proof. intros H. unfold Torch.chunk2. now rewrite H. Qed.

Section Single_column.

Variable autograd_grad : (mat -> option R) -> mat -> mat.

(** X17: on states with a single column [torch.chunk] gives one chunk only,
    and the unpacking [q, p = ...] raises: [forward] and [time_derivative] of
    [HNN_structure] and of [HNN_structure_pend] all raise, [time_derivative]
    after it has counted the call and [forward] with the module unchanged. *)
Theorem single_column_raises
    (s : HNN_structure.self) (s' : HNN_structure_pend.self) (t : R) (x : mat) :
  Torch.ncols x = 1%nat ->
  HNN_structure.forward x s = (s, None) /\
  HNN_structure.time_derivative autograd_grad t x s =
    (HNN_structure.set_nfe s (HNN_structure.nfe s + 1), None) /\
  HNN_structure_pend.forward x s' = (s', None) /\
  HNN_structure_pend.time_derivative autograd_grad t x s' =
    (HNN_structure_pend.set_nfe s' (HNN_structure_pend.nfe s' + 1), None).
Proof.
  intros Hx. pose proof (chunk2_single_column x Hx) as Hc.
  repeat split.
  - unfold HNN_structure.forward. cbv [pbind get lift ret]. now rewrite Hc.
  - unfold HNN_structure.time_derivative, HNN_structure.forward.
    cbv [pbind get put lift ret]. now rewrite Hc.
  - unfold HNN_structure_pend.forward. cbv [pbind get lift ret].
    now rewrite Hc.
  - unfold HNN_structure_pend.time_derivative. cbv [pbind get put lift ret].
    now rewrite Hc.
Qed.

End Single_column.

(** two states with one column *)
Lemma single_column_raises_witness :
  let s := HNN_structure.init 1 constant_one constant_one 0 true in
  let x := [[1]; [2]] in
  HNN_structure.forward x s = (s, None) /\
  HNN_structure.time_derivative central_difference 0 x s =
    (HNN_structure.set_nfe s (HNN_structure.nfe s + 1), None) /\
  HNN_structure_pend.forward x pend_example = (pend_example, None) /\
  HNN_structure_pend.time_derivative central_difference 0 x pend_example =
    (HNN_structure_pend.set_nfe pend_example
       (HNN_structure_pend.nfe pend_example + 1), None).
Proof.
  cbv zeta.
  apply (single_column_raises central_difference
           (HNN_structure.init 1 constant_one constant_one 0 true)
           pend_example 0 [[1]; [2]]).
  reflexivity.
Defined.
